(** * optimal_splitk: the coordinate-exchange engine of [doe.py]

    A shallow embedding of [x2fx], [generate_coordinates], [optimize] and
    [doe] from [src/optimal_splitk/doe.py], and the properties of the
    specification checked against it.

    Conventions of the embedding.
    - A numpy array of floats is a list over an arbitrary carrier [F] with
      the operations the code uses ([Scalar]); nothing is assumed about
      them, so every statement holds for IEEE doubles as well as for the
      integers used in the examples.
    - A 2-d array is the list of its rows; an array of arbitrary leading
      shape is an [ndarr].
    - Python exceptions are values of [exn]; fallible code returns a
      [result].
    - Indices (levels, column starts, block numbers) are [nat]: the
      negative indices of Python are outside the model.
    - Sizes and their products are unbounded naturals, whereas numpy
      computes [np.prod] and [np.cumprod] in [int64] and wraps.  The
      model agrees with the code as long as the products of the plot
      sizes stay below [2^63]; a statement about the values of these
      products says so ([int64_products]).  Memory is unbounded: no
      allocation fails.
    - [x2fx] is compiled by numba: reading a column a row does not have
      is not checked and yields whatever is found there ([Fstray]), and
      a [**] with a negative exponent divides, raising
      ZeroDivisionError when the divisor is zero. *)

From Stdlib Require Import String.
From Stdlib Require Import List ZArith Lia Bool Arith PeanoNat.
Import ListNotations.

Set Implicit Arguments.
Set Warnings "-register-all".

(** ** Exceptions and results *)

Inductive exn : Type :=
| LinAlgError                      (* numpy.linalg.LinAlgError *)
| AssertionError (msg : string)    (* a failed [assert] *)
| TypeError
| ValueError
| IndexError
| ZeroDivisionError
| CriterionError (code : nat)      (* any other subclass of Exception *)
| KeyboardInterrupt.               (* a BaseException that is no Exception *)

(** [except Exception] catches everything but the exceptions that only
    derive from BaseException. *)
Definition is_Exception (e : exn) : bool :=
  match e with
  | KeyboardInterrupt => false
  | _ => true
  end.

(** [except np.linalg.LinAlgError]. *)
Definition is_LinAlgError (e : exn) : bool :=
  match e with
  | LinAlgError => true
  | _ => false
  end.

Inductive result (A : Type) : Type :=
| Ret (a : A)
| Raise (e : exn).

Arguments Ret {A} a.
Arguments Raise {A} e.

Definition rbind {A B : Type} (r : result A) (k : A -> result B) : result B :=
  match r with
  | Ret a => k a
  | Raise e => Raise e
  end.

Definition rmap {A B : Type} (f : A -> B) (r : result A) : result B :=
  rbind r (fun a => Ret (f a)).

Fixpoint mapR {A B : Type} (f : A -> result B) (l : list A) : result (list B) :=
  match l with
  | [] => Ret []
  | a :: l' => rbind (f a) (fun b => rbind (mapR f l') (fun bs => Ret (b :: bs)))
  end.

(** ** Scalars *)

Class Scalar (F : Type) : Type := {
  F0 : F;                      (* 0.0 *)
  F1 : F;                      (* 1.0 *)
  Fopp : F -> F;               (* unary minus *)
  Fmul : F -> F -> F;          (* [*] *)
  Fpow : F -> Z -> F;          (* [**] with an integer exponent *)
  Feqb : F -> F -> bool;       (* [==] *)
  Fstray : list F -> nat -> F  (* what an unchecked read of column [j]
                                  finds beyond the end of a row *)
}.

#[export] Instance Scalar_Z : Scalar Z := {
  F0 := 0%Z;
  F1 := 1%Z;
  Fopp := Z.opp;
  Fmul := Z.mul;
  Fpow := Z.pow;
  Feqb := Z.eqb;
  Fstray := fun _ _ => 0%Z
}.

(** Arrays of arbitrary leading shape with a trailing factor axis. *)
Inductive ndarr (F : Type) : Type :=
| Vec (v : list F)
| Stack (subs : list (ndarr F)).

Arguments Vec {F} v.
Arguments Stack {F} subs.

(** ** numpy helpers *)

Section Numpy.
Context {A : Type}.

(** What numpy sees when it iterates over one argument of
    [np.concatenate]: a 0-d scalar or a 1-d array. *)
Inductive npitem : Type :=
| Item0d (x : A)
| Item1d (xs : list A).

(** The second positional argument of [np.concatenate] is [axis]. *)
Inductive axis_arg : Type :=
| AxisInt (n : Z)
| AxisArray (a : list A).

Fixpoint concat_items (items : list npitem) : result (list A) :=
  match items with
  | [] => Ret []
  | Item0d _ :: _ => Raise ValueError   (* zero-dimensional arrays cannot be concatenated *)
  | Item1d xs :: rest => rbind (concat_items rest) (fun r => Ret (xs ++ r))
  end.

(** [np.concatenate(arrays, axis)]: the axis is converted first (an
    array is no integer: TypeError), then the items are joined; 1-d
    items only have axis 0. *)
Definition np_concatenate (arrays : list npitem) (axis : axis_arg) : result (list A) :=
  match axis with
  | AxisArray _ => Raise TypeError
  | AxisInt n =>
      match arrays with
      | [] => Raise ValueError        (* need at least one array to concatenate *)
      | _ => if (n =? 0)%Z then concat_items arrays
             else match concat_items arrays with
                  | Raise e => Raise e
                  | Ret _ => Raise ValueError   (* axis out of bounds *)
                  end
      end
  end.

(** Iterating over a 1-d array yields its 0-d elements. *)
Definition iter_1d (a : list A) : list npitem := map Item0d a.

(** [a.size] of a 2-d array. *)
Definition arr_size (a : list (list A)) : nat := length (concat a).

(** [a.shape[1]] of a 2-d array with at least one row. *)
Definition width (a : list (list A)) : nat := length (hd [] a).

(** [a[start:start+len]] (slices clip). *)
Definition slice (start len : nat) (a : list A) : list A :=
  firstn len (skipn start a).

(** [a[start:start+len] = mid] for a [mid] of the slice's extent. *)
Definition splice (start len : nat) (mid a : list A) : list A :=
  firstn start a ++ mid ++ skipn (start + len) a.

End Numpy.

Arguments npitem A : clear implicits.
Arguments axis_arg A : clear implicits.

(** [np.cumprod] and [np.cumsum], on naturals: the [int64] arithmetic
    of numpy wraps, which these do not (see the conventions). *)
Fixpoint cumprod_from (acc : nat) (l : list nat) : list nat :=
  match l with
  | [] => []
  | x :: l' => (acc * x) :: cumprod_from (acc * x) l'
  end.

Definition cumprod (l : list nat) : list nat := cumprod_from 1 l.

Fixpoint cumsum_from (acc : nat) (l : list nat) : list nat :=
  match l with
  | [] => []
  | x :: l' => (acc + x) :: cumsum_from (acc + x) l'
  end.

Definition cumsum (l : list nat) : list nat := cumsum_from 0 l.

(** [np.prod], on naturals as well. *)
Definition np_prod (l : list nat) : nat := fold_left Nat.mul l 1.

(** ** [x2fx] (lines 13-52) *)

Section X2fx.
Context {F : Type} {SF : Scalar F}.

(** [Y[..., j]] at one leading index [y], as numba compiles it: without
    a bounds check. *)
Definition unchecked_read (y : list F) (j : nat) : F :=
  match nth_error y j with
  | Some v => v
  | None => Fstray y j
  end.

(** [v ** t] as numba compiles it for an integer [t]: a negative
    exponent gives [1.0 / v ** -t], and the division raises when
    [v ** -t] is zero. *)
Definition power (v : F) (t : Z) : result F :=
  if ((t <? 0)%Z && Feqb (Fpow v (- t)) F0)%bool then Raise ZeroDivisionError
  else Ret (Fpow v t).

(** The loop over [j in range(model.shape[1])] for one term at one
    leading index [y]; [p] is the running product. *)
Fixpoint x2fx_term (y : list F) (term : list Z) (j : nat) (p : F) : result F :=
  match term with
  | [] => Ret p
  | t :: term' =>
      if (t =? 0)%Z then x2fx_term y term' (S j) p
      else if (t =? 1)%Z then x2fx_term y term' (S j) (Fmul p (unchecked_read y j))
      else rbind (power (unchecked_read y j) t)
                 (fun q => x2fx_term y term' (S j) (Fmul p q))
  end.

(** The loop over the terms at one leading index: [X[..., i] = p]. *)
Definition x2fx_point (model : list (list Z)) (y : list F) : result (list F) :=
  mapR (fun term => x2fx_term y term 0 F1) model.

(** [x2fx(Y, model)] for any leading shape. *)
Fixpoint x2fx (Y : ndarr F) (model : list (list Z)) : result (ndarr F) :=
  match Y with
  | Vec y => rmap Vec (x2fx_point model y)
  | Stack subs =>
      rmap Stack
        ((fix go (l : list (ndarr F)) : result (list (ndarr F)) :=
            match l with
            | [] => Ret []
            | a :: l' =>
                rbind (x2fx a model) (fun b => rbind (go l') (fun bs => Ret (b :: bs)))
            end) subs)
  end.

(** [x2fx] on a 2-d array given as the list of its rows, as [optimize]
    calls it. *)
Definition x2fx_2d (Y : list (list F)) (model : list (list Z)) : result (list (list F)) :=
  mapR (x2fx_point model) Y.

(** The specification's column: the product, over the factors with a
    nonzero exponent, of the value raised to the exponent, a plain
    factor when the exponent is 1. *)
Definition spec_factor (y : list F) (je : nat * Z) : F :=
  if (snd je =? 1)%Z then nth (fst je) y F0 else Fpow (nth (fst je) y F0) (snd je).

Definition nonzero_exponent (je : nat * Z) : bool := negb (snd je =? 0)%Z.

Definition spec_column (y : list F) (term : list Z) : F :=
  fold_left Fmul
    (map (spec_factor y)
         (filter nonzero_exponent (combine (seq 0 (length term)) term)))
    F1.

Definition spec_row (model : list (list Z)) (y : list F) : list F :=
  map (spec_column y) model.

(** [X] has the leading shape of [Y] and the specified row at every
    leading index. *)
Inductive x2fx_spec (model : list (list Z)) : ndarr F -> ndarr F -> Prop :=
| spec_vec : forall y, x2fx_spec model (Vec y) (Vec (spec_row model y))
| spec_stack : forall ys xs,
    Forall2 (x2fx_spec model) ys xs -> x2fx_spec model (Stack ys) (Stack xs).

(** The trailing axis of [Y] covers the columns of the model. *)
Inductive fits (model : list (list Z)) : ndarr F -> Prop :=
| fits_vec : forall y,
    Forall (fun term => length term <= length y) model -> fits model (Vec y)
| fits_stack : forall ys, Forall (fits model) ys -> fits model (Stack ys).

(** The leading shape: the extents of all axes but the last. *)
Fixpoint lshape (Y : ndarr F) : list nat :=
  match Y with
  | Vec _ => []
  | Stack subs =>
      length subs ::
      match subs with
      | [] => []
      | a :: _ => lshape a
      end
  end.

(** The extent of the last axis at every leading index. *)
Inductive last_axis (n : nat) : ndarr F -> Prop :=
| last_vec : forall y, length y = n -> last_axis n (Vec y)
| last_stack : forall ys, Forall (last_axis n) ys -> last_axis n (Stack ys).

End X2fx.

(** ** [generate_coordinates] (lines 58-97) *)

Section Coordinates.
Context {F : Type} {SF : Scalar F}.

(** [np.eye(n)]. *)
Definition eye (n : nat) : list (list F) :=
  map (fun i => map (fun j => if Nat.eqb i j then F1 else F0) (seq 0 n)) (seq 0 n).

(** The default value of the parameter [default]: [np.array([[]])]. *)
Definition no_default : list (list F) := [[]].

Definition generate_coordinates (cat_lvl : Z) (default : list (list F)) : list (list F) :=
  if Nat.eqb (arr_size default) 0 then
    if (cat_lvl <=? 1)%Z then [[Fopp F1]; [F0]; [F1]]
    else
      let n_cat_levels := Z.to_nat (cat_lvl - 1) in
      eye n_cat_levels ++ [repeat (Fopp F1) n_cat_levels]
  else default.

End Coordinates.

(** ** The optimality criterion

    The object [optim] with its four methods.  A method either returns or
    raises; [update] returns the acceptance flag and the state to use from
    then on. *)

Class Optim (F UModel Pre St Metric : Type) : Type := {
  preinit : list nat -> UModel * list (list Z) -> list (nat * Z) -> list F -> result Pre;
  init : Pre -> list (list F) -> list (list F) -> result St;
  update : St -> list (list F) -> list (list F) -> nat -> nat -> result (bool * St);
  metric : St -> list (list F) -> list (list F) -> result Metric
}.

(** ** [optimize] (lines 101-249) *)

Section Optimize.
Context {F UModel Pre St Metric : Type} {SF : Scalar F}.
Context {optim : Optim F UModel Pre St Metric}.

(** [state.Minv[:] = np.linalg.inv(X.T @ np.linalg.solve(state.V, X))]:
    the linear algebra is not modelled; it yields the state with
    [Minv] recomputed or raises (LinAlgError on a singular matrix). *)
Variable refresh_Minv : St -> list (list F) -> result St.

Definition design : Type := list (list F).

(** The variables of the main loop, and two records kept for the
    proofs: every assignment [Y[runs, cols] = v] made for factor [i],
    latest first, and the number of sweeps started. *)
Record ostate : Type := mk_ostate {
  cur_Y : design;
  cur_X : design;
  cur_state : St;
  updated : bool;
  writes : list (nat * list F);
  sweeps : nat
}.

(** Code that mutates the loop variables and may raise. *)
Definition M (A : Type) : Type := ostate -> ostate * result A.

Definition ret {A : Type} (a : A) : M A := fun s => (s, Ret a).

Definition bind {A B : Type} (m : M A) (k : A -> M B) : M B :=
  fun s =>
    match m s with
    | (s', Ret a) => k a s'
    | (s', Raise e) => (s', Raise e)
    end.

Definition lift {A : Type} (r : result A) : M A := fun s => (s, r).

Definition index {A : Type} (l : list A) (n : nat) : M A :=
  match nth_error l n with
  | Some a => ret a
  | None => lift (Raise IndexError)
  end.

Fixpoint for_each {A : Type} (body : A -> M unit) (l : list A) : M unit :=
  match l with
  | [] => ret tt
  | a :: l' => bind (body a) (fun _ => for_each body l')
  end.

(** [row[col:col+w] = v] once the shapes are known to broadcast: [n] is
    the clipped extent of the target. *)
Definition put_cols (col n : nat) (v : list F) (row : list F) : list F :=
  splice col n (if Nat.eqb (length v) n then v else repeat (hd F0 v) n) row.

(** [Y[r0:r0+jmp, col:col+w] = v].  Slices clip; a 1-d value broadcasts
    to the target when its length is the target's extent or 1. *)
Definition write_block (r0 jmp col w : nat) (v : list F) (Y : design) : result design :=
  let n := length (slice col w (hd [] Y)) in
  if Nat.eqb (length v) n || Nat.eqb (length v) 1 then
    Ret (splice r0 jmp (map (put_cols col n v) (slice r0 jmp Y)) Y)
  else Raise ValueError.

(** [np.all(a == b)] for 1-d arrays; the shapes broadcast after a
    successful assignment. *)
Definition all_eq (a b : list F) : bool :=
  if Nat.eqb (length a) (length b) then
    forallb (fun p => Feqb (fst p) (snd p)) (combine a b)
  else if Nat.eqb (length a) 1 then forallb (Feqb (hd F0 a)) b
  else if Nat.eqb (length b) 1 then forallb (fun x => Feqb x (hd F0 b)) a
  else false.

Section Loop.
Variable model : list (list Z).
Variables alphas betas col_start : list nat.
Variable _possible_coords : list (list (list F)).

Definition assign_block (i r0 jmp col w : nat) (v : list F) : M unit :=
  fun s =>
    match write_block r0 jmp col w v (cur_Y s) with
    | Ret Y' =>
        (mk_ostate Y' (cur_X s) (cur_state s) (updated s)
                   ((i, v) :: writes s) (sweeps s), Ret tt)
    | Raise e => (s, Raise e)
    end.

(** The body of [for new_coord in possible_coords] (lines 206-235);
    returns the new [best_coord]. *)
Definition try_candidate (i level grp r0 jmp col w : nat)
           (init_coord best_coord new_coord : list F) : M (list F) :=
  bind (assign_block i r0 jmp col w new_coord) (fun _ =>
  if all_eq new_coord init_coord then ret best_coord
  else
    fun s =>
      match x2fx_2d (slice r0 jmp (cur_Y s)) model with
      | Raise e => (s, Raise e)
      | Ret Xi_star =>
          match update (cur_state s) (cur_X s) Xi_star level grp with
          | Ret (accept, state') =>
              if accept then
                (mk_ostate (cur_Y s) (splice r0 jmp Xi_star (cur_X s))
                           state' true (writes s) (sweeps s),
                 Ret new_coord)
              else
                (mk_ostate (cur_Y s) (cur_X s) state' (updated s) (writes s) (sweeps s),
                 Ret best_coord)
          | Raise e =>
              if is_Exception e then (s, Ret best_coord)   (* accept = False *)
              else (s, Raise e)
          end
      end).

Fixpoint scan_candidates (i level grp r0 jmp col w : nat) (init_coord : list F)
         (coords : list (list F)) (best_coord : list F) : M (list F) :=
  match coords with
  | [] => ret best_coord
  | new_coord :: rest =>
      bind (try_candidate i level grp r0 jmp col w init_coord best_coord new_coord)
           (scan_candidates i level grp r0 jmp col w init_coord rest)
  end.

(** The body of [for grp in range(alphas[level])] (lines 191-238). *)
Definition scan_block (i level jmp col grp : nat) : M unit :=
  bind (index _possible_coords i) (fun possible_coords =>
  let w := width possible_coords in
  let r0 := grp * jmp in
  bind (fun s => match nth_error (cur_Y s) r0 with
                 | Some row => (s, Ret (slice col w row))
                 | None => (s, Raise IndexError)
                 end) (fun init_coord =>
  bind (scan_candidates i level grp r0 jmp col w init_coord possible_coords init_coord)
       (fun best_coord => assign_block i r0 jmp col w best_coord))).

(** The body of [for i, factor in enumerate(factors)] (lines 184-238). *)
Definition scan_factor (ifactor : nat * (nat * Z)) : M unit :=
  let i := fst ifactor in
  let level := fst (snd ifactor) in
  bind (index betas level) (fun jmp =>
  bind (index col_start i) (fun col =>
  bind (index alphas level) (fun n_groups =>
  for_each (scan_block i level jmp col) (seq 0 n_groups)))).

Definition enumerate {A : Type} (l : list A) : list (nat * A) :=
  combine (seq 0 (length l)) l.

(** One pass of [for it in range(max_it)] up to the test of
    [updated] (lines 175-238). *)
Definition sweep (factors : list (nat * Z)) : M unit :=
  fun s =>
    for_each scan_factor (enumerate factors)
             (mk_ostate (cur_Y s) (cur_X s) (cur_state s) false (writes s) (S (sweeps s))).

(** [for it in range(max_it)] with its [break] and the recomputation of
    [Minv] (lines 175-244). *)
Fixpoint iterate (factors : list (nat * Z)) (max_it : nat) : M unit :=
  match max_it with
  | 0 => ret tt
  | S k =>
      bind (sweep factors) (fun _ s =>
        if updated s then
          match refresh_Minv (cur_state s) (cur_X s) with
          | Ret state' =>
              iterate factors k
                      (mk_ostate (cur_Y s) (cur_X s) state' (updated s) (writes s) (sweeps s))
          | Raise e => (s, Raise e)
          end
        else (s, Ret tt))
  end.

End Loop.

(** The width of a factor in the design: [np.where(factors[:, 1] > 1,
    factors[:, 1] - 1, 1)]. *)
Definition factor_width (factor : nat * Z) : nat :=
  if (snd factor >? 1)%Z then Z.to_nat (snd factor - 1) else 1.

Definition default_col_start (factors : list (nat * Z)) : list nat :=
  0 :: cumsum (map factor_width factors).

Definition col_start_of (factors : list (nat * Z)) (col_start : option (list nat))
  : list nat :=
  match col_start with
  | None => default_col_start factors
  | Some cs => cs
  end.

Definition possible_coords_of (factors : list (nat * Z))
           (default_coords : option (list (list (list F)))) : list (list (list F)) :=
  match default_coords with
  | Some dcs =>
      map (fun df => generate_coordinates (snd (snd df)) (fst df)) (combine dcs factors)
  | None => map (fun factor => generate_coordinates (snd factor) no_default) factors
  end.

(** What a call of [optimize] leaves behind: the design as mutated in
    place, the two proof records, and what the caller gets. *)
Record run : Type := mk_run {
  final_Y : design;
  final_updated : bool;
  all_writes : list (nat * list F);
  n_sweeps : nat;
  outcome : result (design * Metric)
}.

Definition optimize_run (Y : design) (model : list (list Z)) (plot_sizes : list nat)
           (factors : list (nat * Z)) (prestate : Pre) (max_it : nat)
           (col_start : option (list nat))
           (default_coords : option (list (list (list F)))) : run :=
  match x2fx_2d Y model with
  | Raise e => mk_run Y false [] 0 (Raise e)
  | Ret X =>
      match init prestate Y X with
      | Raise e => mk_run Y false [] 0 (Raise e)
      | Ret state =>
          let alphas := rev (cumprod (rev plot_sizes)) in
          match np_concatenate [Item1d [1]; Item1d plot_sizes] (AxisInt 0) with
          | Raise e => mk_run Y false [] 0 (Raise e)
          | Ret ones_sizes =>
              let betas := cumprod ones_sizes in
              let col_start := col_start_of factors col_start in
              let _possible_coords := possible_coords_of factors default_coords in
              match iterate model alphas betas col_start _possible_coords factors max_it
                            (mk_ostate Y X state false [] 0) with
              | (s, Raise e) =>
                  mk_run (cur_Y s) (updated s) (writes s) (sweeps s) (Raise e)
              | (s, Ret _) =>
                  mk_run (cur_Y s) (updated s) (writes s) (sweeps s)
                         (rmap (fun m => (cur_Y s, m))
                               (metric (cur_state s) (cur_Y s) (cur_X s)))
              end
          end
      end
  end.

Definition optimize (Y : design) (model : list (list Z)) (plot_sizes : list nat)
           (factors : list (nat * Z)) (prestate : Pre) (max_it : nat)
           (col_start : option (list nat))
           (default_coords : option (list (list (list F)))) : result (design * Metric) :=
  outcome (optimize_run Y model plot_sizes factors prestate max_it col_start default_coords).

End Optimize.

(** ** [doe] (lines 255-365) *)

(** The comparisons [doe] makes on metrics: [np.zeros], [-np.inf] and
    [>]. *)
Class MetricOps (Metric : Type) : Type := {
  metric_zero : Metric;
  neg_inf : Metric;
  metric_gt : Metric -> Metric -> bool
}.

(** What an observer of [doe] sees, in order: the call of
    [optim.preinit], the start of an attempt (the [k]-th call of the
    initializer) and the call [it_callback(i)]. *)
Inductive event : Type :=
| EvPreinit
| EvAttempt (k : nat)
| EvCallback (i : nat).

Inductive status : Type :=
| Finished
| Fatal (e : exn)
| OutOfFuel.       (* the attempts examined did not complete the restarts *)

Section Doe.
Context {F UModel Pre St Metric Decoded : Type} {SF : Scalar F} {MO : MetricOps Metric}.
Context {optim : Optim F UModel Pre St Metric}.

Variable refresh_Minv : St -> list (list F) -> result St.

(** The collaborators imported from [encode.py] and [init.py], taken
    as given.  [initialize_single] is random: its first argument
    numbers the draws.  It is handed the template [Y] and may fill it
    in place: it yields the content of [Y] after the call and the
    design it returns. *)
Variable encode_model : UModel -> list (nat * Z) -> list (list Z).
Variable initialize_single :
  nat -> list nat -> list (nat * Z) -> list (list F) ->
  option (list (list (list F))) -> list (list F) * list (list F).
Variable encode_design : list (list F) -> list (nat * Z) -> list (list F).
Variable decode_design : list (list F) -> list (nat * Z) -> Decoded.

(** The variables of the restart loop.  [best_Y] is [None] while it is
    still the template object [Y] itself ([best_Y = Y]) and a copy
    afterwards ([np.copy(Yo)]). *)
Record dstate : Type := mk_dstate {
  done : nat;                       (* i *)
  metrics : list Metric;
  best_metric : Metric;
  best_Y : option (list (list F));
  template : list (list F);         (* the content of Y *)
  events : list event               (* latest first *)
}.

(** [metrics[i] = metric]. *)
Definition set_metric (i : nat) (m : Metric) (ms : list Metric) : list Metric :=
  firstn i ms ++ m :: skipn (S i) ms.

(** Ratio normalisation, lines 319-326. *)
Definition normalize_ratios (plot_sizes : list nat) (ratios : option (list F))
  : result (list F) :=
  match ratios with
  | None => Ret (repeat F1 (length plot_sizes))
  | Some r =>
      if Nat.eqb (length r + 1) (length plot_sizes) then
        np_concatenate (iter_1d [F1]) (AxisArray r)
      else if negb (Nat.eqb (length r) (length plot_sizes)) then
        Raise (AssertionError "Ratio sizes do not match plot sizes")
      else
        match r with
        | [] => Raise IndexError
        | r0 :: _ =>
            if Feqb r0 F1 then Ret r
            else Raise (AssertionError "First element of ratios should be 1")
        end
  end.

Section Restarts.
Variable model_enc : list (list Z).
Variable plot_sizes : list nat.
Variable factors : list (nat * Z).
Variable prestate : Pre.
Variables n_tries max_it : nat.
Variable default_coords : option (list (list (list F))).

(** One pass of the loop body up to the result of [optimize]: the
    content of the template after the initializer, and what
    [optimize] returns or raises on the encoded draw. *)
Definition attempt (k : nat) (Y : list (list F))
  : list (list F) * result (list (list F) * Metric) :=
  let YYo := initialize_single k plot_sizes factors Y default_coords in
  let Yoenc := encode_design (snd YYo) factors in
  (fst YYo,
   optimize refresh_Minv Yoenc model_enc plot_sizes factors prestate max_it
            None default_coords).

(** [while i < n_tries] (lines 334-360); [k] numbers the attempts and
    [fuel] bounds how many of them are examined. *)
Fixpoint restarts (fuel k : nat) (d : dstate) : dstate * status :=
  if Nat.ltb (done d) n_tries then
    match fuel with
    | 0 => (d, OutOfFuel)
    | S fuel' =>
        let ev := EvAttempt k :: events d in
        match attempt k (template d) with
        | (Y', Ret (Yo, m)) =>
            let improved := metric_gt m (best_metric d) in
            restarts fuel' (S k)
              (mk_dstate (S (done d))
                         (set_metric (done d) m (metrics d))
                         (if improved then m else best_metric d)
                         (if improved then Some Yo else best_Y d)
                         Y'
                         (EvCallback (S (done d)) :: ev))
        | (Y', Raise e) =>
            let d' := mk_dstate (done d) (metrics d) (best_metric d) (best_Y d) Y' ev in
            if is_LinAlgError e then restarts fuel' (S k) d'
            else (d', Fatal e)
        end
    end
  else (d, Finished).

(** What [optimize] does on the attempts [k], [k+1], ... were they
    all made, [fuel] of them. *)
Fixpoint attempts (fuel k : nat) (Y : list (list F))
  : list (result (list (list F) * Metric)) :=
  match fuel with
  | 0 => []
  | S fuel' => snd (attempt k Y) :: attempts fuel' (S k) (fst (attempt k Y))
  end.

End Restarts.

(** What [doe] returns or raises, with what was observed on the way. *)
Inductive doe_outcome : Type :=
| Returned (best : Decoded) (ms : list Metric)
| Raised (e : exn)
| Unfinished.

Record doe_run : Type := mk_doe_run {
  observed : list event;                 (* earliest first *)
  best_encoded : option (list (list F)); (* best_Y before decoding *)
  doe_result : doe_outcome
}.

Definition doe_run_of (model : UModel) (plot_sizes : list nat) (factors : list (nat * Z))
           (n_tries max_it : nat) (default_coords : option (list (list (list F))))
           (ratios : option (list F)) (fuel : nat) : doe_run :=
  let model_enc := encode_model model factors in
  let Y := repeat (repeat F0 (length factors)) (np_prod plot_sizes) in
  match normalize_ratios plot_sizes ratios with
  | Raise e => mk_doe_run [] None (Raised e)
  | Ret ratios' =>
      match preinit plot_sizes (model, model_enc) factors ratios' with
      | Raise e => mk_doe_run [EvPreinit] None (Raised e)
      | Ret prestate =>
          match restarts model_enc plot_sizes factors prestate n_tries max_it
                         default_coords fuel 0
                         (mk_dstate 0 (repeat metric_zero n_tries) neg_inf None Y
                                    [EvPreinit]) with
          | (d, Finished) =>
              let best := match best_Y d with
                          | Some b => b
                          | None => template d
                          end in
              mk_doe_run (rev (events d)) (Some best)
                         (Returned (decode_design best factors) (metrics d))
          | (d, Fatal e) => mk_doe_run (rev (events d)) None (Raised e)
          | (d, OutOfFuel) => mk_doe_run (rev (events d)) None Unfinished
          end
      end
  end.

Definition doe (model : UModel) (plot_sizes : list nat) (factors : list (nat * Z))
           (n_tries max_it : nat) (default_coords : option (list (list (list F))))
           (ratios : option (list F)) (fuel : nat) : doe_outcome :=
  doe_result (doe_run_of model plot_sizes factors n_tries max_it default_coords ratios fuel).

End Doe.


(** ** Notions used in the statements *)

(** A ModelSpec: every exponent is 0, 1 or a power of at least 2. *)
Definition model_spec (model : list (list Z)) : Prop :=
  Forall (Forall (fun t => (0 <= t)%Z)) model.

Section Statements.
Context {F UModel Pre St Metric : Type} {SF : Scalar F}.

(** [Y] is a point of the product of the coordinate sets: its rows
    have [Wd] entries; factor [i] owns the columns from
    [col_start[i]], as many as its coordinates have entries; the
    columns of two factors do not overlap; and in every row the
    columns of a factor hold one of its coordinates. *)
Definition valid_point (Wd : nat) (col_start : list nat)
           (coords : list (list (list F))) (Y : list (list F)) : Prop :=
  Forall (fun row => length row = Wd) Y
  /\ (forall i cs col,
        nth_error coords i = Some cs -> nth_error col_start i = Some col ->
        col + width cs <= Wd /\ Forall (fun c => length c = width cs) cs)
  /\ (forall i k cs ck col colk,
        i <> k ->
        nth_error coords i = Some cs -> nth_error col_start i = Some col ->
        nth_error coords k = Some ck -> nth_error col_start k = Some colk ->
        col + width cs <= colk \/ colk + width ck <= col)
  /\ (forall row i cs col,
        In row Y ->
        nth_error coords i = Some cs -> nth_error col_start i = Some col ->
        In (slice col (width cs) row) cs).

(** A recorded assignment wrote a coordinate of its factor. *)
Definition member_write (coords : list (list (list F))) (iv : nat * list F) : Prop :=
  exists cs, nth_error coords (fst iv) = Some cs /\ In (snd iv) cs.

(** What the closed search space keeps true of the loop variables. *)
Definition closed_inv (Wd : nat) (col_start : list nat) (coords : list (list (list F)))
           (s : ostate (F := F) (St := St)) : Prop :=
  valid_point Wd col_start coords (cur_Y s) /\ Forall (member_write coords) (writes s).

(** [m] keeps [I] whether it returns or raises, and returns only
    values in [Q]. *)
Definition keeps {A : Type} (I : ostate (F := F) (St := St) -> Prop)
           (m : M (F := F) (St := St) A) (Q : A -> Prop) : Prop :=
  forall s, I s -> I (fst (m s)) /\ forall a, snd (m s) = Ret a -> Q a.

(** [m] started in [P] returns, in a state and with a value in [Q]. *)
Definition returns {A : Type} (P : ostate (F := F) (St := St) -> Prop)
           (m : M (F := F) (St := St) A)
           (Q : A -> ostate (F := F) (St := St) -> Prop) : Prop :=
  forall s, P s -> exists a s', m s = (s', Ret a) /\ Q a s'.

(** The criterion with the [try]/[except Exception] of [optimize]
    moved into [update]: a caught failure is a rejection that returns
    the state it was given. *)
Definition caught (optim : Optim F UModel Pre St Metric) : Optim F UModel Pre St Metric := {|
  preinit := preinit (Optim := optim);
  init := init (Optim := optim);
  update := fun s X Xi level grp =>
              match update (Optim := optim) s X Xi level grp with
              | Ret r => Ret r
              | Raise e => if is_Exception e then Ret (false, s) else Raise e
              end;
  metric := metric (Optim := optim)
|}.

(** The loop variables after [Y[runs, cols] = new_coord] for factor
    [i] has given [Y']. *)
Definition candidate_written (i : nat) (new_coord : list F) (Y' : list (list F))
           (s : ostate (F := F) (St := St)) : ostate (F := F) (St := St) :=
  mk_ostate Y' (cur_X s) (cur_state s) (updated s) ((i, new_coord) :: writes s) (sweeps s).

(** [update] never accepts: it returns a rejection or raises something
    [optimize] catches. *)
Definition never_accepts (optim : Optim F UModel Pre St Metric) : Prop :=
  forall s X Xi level grp,
    match update (Optim := optim) s X Xi level grp with
    | Ret (accept, _) => accept = false
    | Raise e => is_Exception e = true
    end.

(** The rows of the block share the coordinate of the block's first
    row in the columns [col .. col + w). *)
Definition block_constant (Y : list (list F)) (r0 jmp col w : nat) : Prop :=
  Forall (fun row => slice col w row = slice col w (nth r0 Y [])) (slice r0 jmp Y).

(** [Y] with [v] in the columns [col .. col + w) of the rows
    [r0 .. r0 + jmp). *)
Definition block_with (r0 jmp col w : nat) (v : list F) (Y : list (list F))
  : list (list F) :=
  splice r0 jmp (map (splice col w v) (slice r0 jmp Y)) Y.

(** The shapes [optimize] relies on: a rectangular [Y] with one row
    per run and positive plot sizes, wide enough for the model, and for every factor a level
    of [plot_sizes], a start column and a rectangular, non-empty
    coordinate set that fits in the row. *)
Definition shapes_agree (Wd : nat) (Y : list (list F)) (model : list (list Z))
           (plot_sizes : list nat) (factors : list (nat * Z))
           (col_start : list nat) (coords : list (list (list F))) : Prop :=
  Forall (fun row => length row = Wd) Y
  /\ Forall (fun p => 0 < p) plot_sizes
  /\ length Y = np_prod plot_sizes
  /\ Forall (fun term => length term <= Wd) model
  /\ (forall i factor,
        nth_error factors i = Some factor ->
        fst factor < length plot_sizes
        /\ exists col cs,
             nth_error col_start i = Some col
             /\ nth_error coords i = Some cs
             /\ col + width cs <= Wd
             /\ Forall (fun c => length c = width cs) cs).

(** Between two blocks of a sweep in which nothing was accepted: the
    design is [Y], [updated] is False, [n] sweeps were started. *)
Definition at_rest (Y : list (list F)) (n : nat) (s : ostate (F := F) (St := St)) : Prop :=
  cur_Y s = Y /\ updated s = false /\ sweeps s = n.

(** Within the scan of a block: the design is [Y] but for the block,
    which holds some candidate. *)
Definition in_scan (Y : list (list F)) (r0 jmp col w n : nat)
           (s : ostate (F := F) (St := St)) : Prop :=
  (exists v, length v = w /\ cur_Y s = block_with r0 jmp col w v Y)
  /\ updated s = false /\ sweeps s = n.

(** Every block of every factor is constant. *)
Definition blocks_constant (Y : list (list F)) (plot_sizes : list nat)
           (factors : list (nat * Z)) (col_start : list nat)
           (coords : list (list (list F))) : Prop :=
  forall i factor col cs jmp n_groups grp,
    nth_error factors i = Some factor ->
    nth_error col_start i = Some col ->
    nth_error coords i = Some cs ->
    nth_error (cumprod (1 :: plot_sizes)) (fst factor) = Some jmp ->
    nth_error (rev (cumprod (rev plot_sizes))) (fst factor) = Some n_groups ->
    grp < n_groups ->
    block_constant Y (grp * jmp) jmp col (width cs).

(** No improving candidate exists at [Y], whose model matrix is [X]:
    for every block of every factor and every coordinate of the factor
    other than the one the block holds, [update], given the model
    matrix [Xi] of the block with that coordinate, does not accept.  It
    rejects or raises an Exception, in every state of [Inv], and the
    state it returns with a rejection is in [Inv] again. *)
Definition no_improving_candidate (optim : Optim F UModel Pre St Metric)
           (Inv : St -> Prop) (Y X : list (list F)) (model : list (list Z))
           (plot_sizes : list nat) (factors : list (nat * Z)) (col_start : list nat)
           (coords : list (list (list F))) : Prop :=
  forall i factor col cs jmp n_groups grp c Xi s,
    nth_error factors i = Some factor ->
    nth_error col_start i = Some col ->
    nth_error coords i = Some cs ->
    nth_error (cumprod (1 :: plot_sizes)) (fst factor) = Some jmp ->
    nth_error (rev (cumprod (rev plot_sizes))) (fst factor) = Some n_groups ->
    grp < n_groups ->
    In c cs ->
    all_eq c (slice col (width cs) (nth (grp * jmp) Y [])) = false ->
    x2fx_2d (slice (grp * jmp) jmp (block_with (grp * jmp) jmp col (width cs) c Y)) model
    = Ret Xi ->
    Inv s ->
    match update (Optim := optim) s X Xi (fst factor) grp with
    | Ret (accept, s') => accept = false /\ Inv s'
    | Raise e => is_Exception e = true
    end.

End Statements.

Section DoeStatements.
Context {F Metric : Type} {MO : MetricOps Metric}.

(** The attempts that returned, in order. *)
Fixpoint successes (outs : list (result (list (list F) * Metric)))
  : list (list (list F) * Metric) :=
  match outs with
  | [] => []
  | Ret r :: outs' => r :: successes outs'
  | Raise _ :: outs' => successes outs'
  end.

(** An attempt that [doe] survives: it returned, or raised what [doe]
    catches. *)
Definition survivable (out : result (list (list F) * Metric)) : Prop :=
  match out with
  | Ret _ => True
  | Raise e => is_LinAlgError e = true
  end.

(** The arguments of the calls of [it_callback], in order. *)
Fixpoint callbacks (evs : list event) : list nat :=
  match evs with
  | [] => []
  | EvCallback i :: evs' => i :: callbacks evs'
  | _ :: evs' => callbacks evs'
  end.

(** The attempts started, in order. *)
Fixpoint started (evs : list event) : list nat :=
  match evs with
  | [] => []
  | EvAttempt k :: evs' => k :: started evs'
  | _ :: evs' => started evs'
  end.

(** The running best after one more completed restart. *)
Definition track (best : Metric * option (list (list F)))
           (r : list (list F) * Metric) : Metric * option (list (list F)) :=
  if metric_gt (snd r) (fst best) then (snd r, Some (fst r)) else best.

End DoeStatements.

(** ** Notions used in the further properties *)

(** The products that [np.cumprod] computes for [betas] and [alphas],
    those of the first and of the last plot sizes, fit in [int64]. *)
Definition int64_products (plot_sizes : list nat) : Prop :=
  forall k,
    (Z.of_nat (np_prod (firstn k plot_sizes)) < 2 ^ 63)%Z
    /\ (Z.of_nat (np_prod (skipn k plot_sizes)) < 2 ^ 63)%Z.

Section MoreStatements.
Context {F St : Type} {SF : Scalar F}.

(** The term reads no column that the row does not have: its exponents
    beyond the row are zero. *)
Definition reads_inside (y : list F) (term : list Z) : Prop :=
  forall j, length y <= j -> nth j term 0%Z = 0%Z.

(** The term divides by zero at [y]: it has a negative exponent for a
    column whose value, raised to the opposite exponent, is zero. *)
Definition divides_by_zero (y : list F) (term : list Z) : Prop :=
  exists j t,
    nth_error term j = Some t /\ (t < 0)%Z /\ Feqb (Fpow (nth j y F0) (- t)) F0 = true.

(** The column ranges of two factors do not overlap. *)
Definition columns_disjoint (col_start : list nat) (coords : list (list (list F))) : Prop :=
  forall i k cs ck col colk,
    i <> k ->
    nth_error coords i = Some cs -> nth_error col_start i = Some col ->
    nth_error coords k = Some ck -> nth_error col_start k = Some colk ->
    col + width cs <= colk \/ colk + width ck <= col.

(** Column [c] belongs to no factor. *)
Definition outside_columns (col_start : list nat) (coords : list (list (list F)))
           (c : nat) : Prop :=
  forall i col cs,
    nth_error col_start i = Some col -> nth_error coords i = Some cs ->
    c < col \/ col + width cs <= c.

(** [row'] is as long as [row] and agrees with it in the columns that
    belong to no factor. *)
Definition same_outside (col_start : list nat) (coords : list (list (list F)))
           (row row' : list F) : Prop :=
  length row' = length row
  /\ forall c, outside_columns col_start coords c -> nth_error row' c = nth_error row c.

(** [Y'] has the rows of [Y], changed in the factors' columns only. *)
Definition untouched_outside (col_start : list nat) (coords : list (list (list F)))
           (Y Y' : list (list F)) : Prop :=
  Forall2 (same_outside col_start coords) Y Y'.

(** The entries [r0 .. r0 + jmp) of a list are those of its entry
    [r0]. *)
Definition const_block {A : Type} (d : A) (l : list A) (r0 jmp : nat) : Prop :=
  Forall (fun x => x = nth r0 l d) (slice r0 jmp l).

(** [m] started in [P] either returns, in a state and with a value in
    [Q], or raises an exception in [E]. *)
Definition guarded {A : Type} (E : exn -> Prop)
           (P : ostate (F := F) (St := St) -> Prop)
           (m : M (F := F) (St := St) A)
           (Q : A -> ostate (F := F) (St := St) -> Prop) : Prop :=
  forall s, P s ->
            match m s with
            | (s', Ret a) => Q a s'
            | (_, Raise e) => E e
            end.

(** Between two blocks: the shapes agree, every block of the design is
    constant, and [X] is the model matrix of [Y]. *)
Definition consistent (Wd : nat) (model : list (list Z)) (plot_sizes : list nat)
           (factors : list (nat * Z)) (col_start : list nat)
           (coords : list (list (list F))) (s : ostate (F := F) (St := St)) : Prop :=
  shapes_agree Wd (cur_Y s) model plot_sizes factors col_start coords
  /\ blocks_constant (cur_Y s) plot_sizes factors col_start coords
  /\ x2fx_2d (cur_Y s) model = Ret (cur_X s).

(** Within the scan of a block: but for the candidate [v] that the
    block holds, the design is a consistent [Yb] whose block holds
    [best_coord], and [X] is the model matrix of that [Yb]. *)
Definition scanning (Wd : nat) (model : list (list Z)) (plot_sizes : list nat)
           (factors : list (nat * Z)) (col_start : list nat)
           (coords : list (list (list F))) (r0 jmp col w : nat)
           (best_coord : list F) (s : ostate (F := F) (St := St)) : Prop :=
  exists Yb v,
    shapes_agree Wd Yb model plot_sizes factors col_start coords
    /\ blocks_constant Yb plot_sizes factors col_start coords
    /\ x2fx_2d Yb model = Ret (cur_X s)
    /\ length v = w /\ length best_coord = w
    /\ cur_Y s = block_with r0 jmp col w v Yb
    /\ block_with r0 jmp col w best_coord Yb = Yb.

End MoreStatements.

Section CriterionStatements.
Context {F UModel Pre St Metric : Type}.

(** The exceptions that come out of the criterion's code during
    [optimize]: those of [init] and [metric], those of [update] that
    [optimize] does not catch, and those of the recomputation of
    [Minv]. *)
Definition criterion_raises (optim : Optim F UModel Pre St Metric)
           (refresh_Minv : St -> list (list F) -> result St) (e : exn) : Prop :=
  (exists prestate Y X, init (Optim := optim) prestate Y X = Raise e)
  \/ (exists s X Xi level grp,
         update (Optim := optim) s X Xi level grp = Raise e /\ is_Exception e = false)
  \/ (exists s X, refresh_Minv s X = Raise e)
  \/ (exists s Y X, metric (Optim := optim) s Y X = Raise e).

End CriterionStatements.

(** ** Small instances for the examples *)

Module Toy.

(** Metrics with the comparisons of IEEE doubles: the two infinities
    and a value that compares false with everything. *)
Inductive xfloat : Type :=
| NaN
| NegInf
| Fin (z : Z)
| PosInf.

Definition xgt (a b : xfloat) : bool :=
  match a, b with
  | NaN, _ => false
  | _, NaN => false
  | NegInf, _ => false
  | Fin _, NegInf => true
  | Fin x, Fin y => (y <? x)%Z
  | Fin _, PosInf => false
  | PosInf, PosInf => false
  | PosInf, _ => true
  end.

#[global] Instance MetricOps_xfloat : MetricOps xfloat := {
  metric_zero := Fin 0;
  neg_inf := NegInf;
  metric_gt := xgt
}.

(** A criterion over integer designs whose state counts the calls of
    [update] that returned; [upd] decides on the state and the
    candidate rows, [met] on the state and the design. *)
Definition criterion
           (upd : nat -> list (list Z) -> result bool)
           (met : nat -> list (list Z) -> result xfloat)
  : Optim Z (list (list Z)) unit nat xfloat := {|
  preinit := fun _ _ _ _ => Ret tt;
  init := fun _ _ _ => Ret 0;
  update := fun s _ Xi _ _ => rmap (fun b => (b, S s)) (upd s Xi);
  metric := fun s Y _ => met s Y
|}.

Definition keep_Minv (s : nat) (X : list (list Z)) : result nat := Ret s.

(** The inverse of [X.T @ X] does not exist when [X] is all zeros. *)
Definition singular_at_zero (s : nat) (X : list (list Z)) : result nat :=
  if forallb (forallb (Z.eqb 0)) X then Raise LinAlgError else Ret s.

Definition is_rows (rows Xi : list (list Z)) : bool :=
  if list_eq_dec (list_eq_dec Z.eq_dec) Xi rows then true else false.

(** Never accepts; scores 0. *)
Definition never : Optim Z (list (list Z)) unit nat xfloat :=
  criterion (fun _ _ => Ret false) (fun _ _ => Ret (Fin 0)).

(** [update] always raises [e]. *)
Definition raising (e : exn) : Optim Z (list (list Z)) unit nat xfloat :=
  criterion (fun _ _ => Raise e) (fun _ _ => Ret (Fin 0)).

(** Accepts the candidate rows [rows] and no other; scores the number
    of calls of [update] that returned. *)
Definition accepting (rows : list (list Z)) : Optim Z (list (list Z)) unit nat xfloat :=
  criterion (fun _ Xi => Ret (is_rows rows Xi)) (fun s _ => Ret (Fin (Z.of_nat s))).

(** The sum of the entries of a matrix. *)
Definition total (rows : list (list Z)) : Z := fold_left Z.add (concat rows) 0%Z.

(** A criterion that maximises the sum of the entries of the model
    matrix: [update] accepts the candidate rows when they sum to more
    than the rows of [X] they replace, and hands back the state it was
    given. *)
Definition greedy : Optim Z (list (list Z)) unit nat xfloat := {|
  preinit := fun _ _ _ _ => Ret tt;
  init := fun _ _ _ => Ret 0;
  update := fun s X Xi _ grp =>
              Ret ((total (slice (grp * length Xi) (length Xi) X) <? total Xi)%Z, s);
  metric := fun _ _ X => Ret (Fin (total X))
|}.

(** [init] fails on an all-zero model matrix, whose information matrix
    is singular; [update] never accepts, and is interrupted on the
    candidate rows [rows]. *)
Definition interrupted_at (rows : list (list Z)) : Optim Z (list (list Z)) unit nat xfloat := {|
  preinit := fun _ _ _ _ => Ret tt;
  init := fun _ _ X =>
            if forallb (forallb (Z.eqb 0)) X then Raise LinAlgError else Ret 0;
  update := fun s _ Xi _ _ =>
              if is_rows rows Xi then Raise KeyboardInterrupt else Ret (false, S s);
  metric := fun s _ _ => Ret (Fin (Z.of_nat s))
|}.

(** Never accepts; scores [-inf]. *)
Definition hopeless : Optim Z (list (list Z)) unit nat xfloat :=
  criterion (fun _ _ => Ret false) (fun _ _ => Ret NegInf).

(** An initializer that returns the [k]-th of the given draws and
    leaves the template alone. *)
Definition initialize_from (draws : list (list (list Z))) (k : nat) (plot_sizes : list nat)
           (factors : list (nat * Z)) (Y : list (list Z))
           (coords : option (list (list (list Z)))) : list (list Z) * list (list Z) :=
  (Y, nth k draws []).

(** An initializer that fills the template with a fixed design and
    returns it, an encoder that leaves continuous designs as they are,
    and one that replaces every entry by the effect coding of a
    three-level factor. *)
Definition initialize_to (Y0 : list (list Z)) (k : nat) (plot_sizes : list nat)
           (factors : list (nat * Z)) (Y : list (list Z))
           (coords : option (list (list (list Z)))) : list (list Z) * list (list Z) :=
  (Y0, Y0).

Definition encode_model_id (model : list (list Z)) (factors : list (nat * Z))
  : list (list Z) := model.

Definition encode_continuous (Y : list (list Z)) (factors : list (nat * Z))
  : list (list Z) := Y.

Definition effect_code3 (v : Z) : list Z :=
  if (v =? 0)%Z then [1; 0]%Z else if (v =? 1)%Z then [0; 1]%Z else [-1; -1]%Z.

Definition encode_three_level (Y : list (list Z)) (factors : list (nat * Z))
  : list (list Z) := map (fun row => concat (map effect_code3 row)) Y.

Definition decode_id (Y : list (list Z)) (factors : list (nat * Z)) : list (list Z) := Y.

End Toy.
(** * Properties *)

Unset Implicit Arguments.

(** ** Results *)

Lemma mapR_total {A B : Type} (f : A -> result B) (g : A -> B) (l : list A) :
  Forall (fun a => f a = Ret (g a)) l -> mapR f l = Ret (map g l).
Proof.
  induction 1 as [|a l Ha _ IH]; simpl.
  - reflexivity.
  - rewrite Ha; simpl. rewrite IH; reflexivity.
Qed.

Lemma mapR_length {A B : Type} (f : A -> result B) (l : list A) (r : list B) :
  mapR f l = Ret r -> length r = length l.
Proof.
  revert r; induction l as [|a l IH]; simpl; intros r H.
  - inversion H; reflexivity.
  - destruct (f a); simpl in H; [|discriminate].
    destruct (mapR f l); simpl in H; [|discriminate].
    inversion H; subst; simpl. f_equal. apply IH; reflexivity.
Qed.

(** ** Slices *)

Section SliceFacts.
Context {A : Type}.

Lemma splice_slice_id (start n : nat) (a : list A) :
  splice start n (slice start n a) a = a.
Proof.
  unfold splice, slice.
  rewrite Nat.add_comm, <- skipn_skipn, firstn_skipn, firstn_skipn.
  reflexivity.
Qed.

Lemma firstn_splice (start n : nat) (mid a : list A) :
  start <= length a -> firstn start (splice start n mid a) = firstn start a.
Proof.
  intros Hle. unfold splice.
  rewrite firstn_app, length_firstn, Nat.min_l by exact Hle.
  rewrite Nat.sub_diag, firstn_firstn, Nat.min_id. simpl.
  apply app_nil_r.
Qed.

Lemma skipn_splice (start n : nat) (mid a : list A) :
  start <= length a -> length mid = n ->
  skipn (start + n) (splice start n mid a) = skipn (start + n) a.
Proof.
  intros Hle Hmid. unfold splice.
  rewrite skipn_app, length_firstn, Nat.min_l by exact Hle.
  rewrite (skipn_all2 (firstn start a)) by (rewrite length_firstn; lia).
  replace (start + n - start) with n by lia. simpl.
  rewrite skipn_app, Hmid, Nat.sub_diag.
  rewrite (skipn_all2 mid) by lia. reflexivity.
Qed.

Lemma slice_splice (start n : nat) (mid a : list A) :
  start <= length a -> length mid = n ->
  slice start n (splice start n mid a) = mid.
Proof.
  intros Hle Hmid. unfold slice, splice.
  rewrite skipn_app, length_firstn, Nat.min_l by exact Hle.
  rewrite (skipn_all2 (firstn start a)) by (rewrite length_firstn; lia).
  rewrite Nat.sub_diag. simpl.
  rewrite firstn_app, Hmid, Nat.sub_diag. simpl.
  rewrite app_nil_r. apply firstn_all2. lia.
Qed.

Lemma splice_splice (start n : nat) (mid1 mid2 a : list A) :
  start <= length a -> length mid1 = n ->
  splice start n mid2 (splice start n mid1 a) = splice start n mid2 a.
Proof.
  intros Hle Hmid. unfold splice at 1.
  rewrite firstn_splice, skipn_splice by assumption. reflexivity.
Qed.

Lemma length_splice (start n : nat) (mid a : list A) :
  start + n <= length a -> length mid = n ->
  length (splice start n mid a) = length a.
Proof.
  intros Hle Hmid. unfold splice.
  rewrite !length_app, length_firstn, length_skipn. lia.
Qed.

Lemma length_slice (start n : nat) (a : list A) :
  start + n <= length a -> length (slice start n a) = n.
Proof.
  intros Hle. unfold slice. rewrite length_firstn, length_skipn. lia.
Qed.

Lemma In_firstn_all (n : nat) (a : list A) (x : A) : In x (firstn n a) -> In x a.
Proof.
  intros H. rewrite <- (firstn_skipn n a). apply in_or_app. left. exact H.
Qed.

Lemma In_skipn_all (n : nat) (a : list A) (x : A) : In x (skipn n a) -> In x a.
Proof.
  intros H. rewrite <- (firstn_skipn n a). apply in_or_app. right. exact H.
Qed.

Lemma In_slice (start n : nat) (a : list A) (x : A) :
  In x (slice start n a) -> In x a.
Proof.
  unfold slice. intros H.
  apply (In_skipn_all start). apply (In_firstn_all n). exact H.
Qed.

Lemma In_splice (start n : nat) (mid a : list A) (x : A) :
  In x (splice start n mid a) -> In x a \/ In x mid.
Proof.
  unfold splice. intros H.
  apply in_app_or in H. destruct H as [H|H].
  - left. apply (In_firstn_all start). exact H.
  - apply in_app_or in H. destruct H as [H|H].
    + right. exact H.
    + left. apply (In_skipn_all (start + n)). exact H.
Qed.

Lemma slice_firstn (start c w : nat) (a : list A) :
  c + w <= start -> slice c w (firstn start a) = slice c w a.
Proof.
  intros Hcw. unfold slice.
  rewrite !firstn_skipn_comm, firstn_firstn, Nat.min_l by exact Hcw.
  reflexivity.
Qed.

(** A slice on the left of a splice, or on its right, is untouched. *)
Lemma slice_splice_left (start n c w : nat) (mid a : list A) :
  c + w <= start -> start <= length a ->
  slice c w (splice start n mid a) = slice c w a.
Proof.
  intros Hcw Hle.
  rewrite <- (slice_firstn start c w (splice start n mid a) Hcw).
  rewrite firstn_splice by exact Hle.
  apply slice_firstn. exact Hcw.
Qed.

Lemma slice_splice_right (start n c w : nat) (mid a : list A) :
  start + n <= c -> start <= length a -> length mid = n ->
  slice c w (splice start n mid a) = slice c w a.
Proof.
  intros Hcw Hle Hmid. unfold slice.
  replace c with ((c - (start + n)) + (start + n)) by lia.
  rewrite <- (skipn_skipn (c - (start + n)) (start + n) (splice start n mid a)).
  rewrite <- (skipn_skipn (c - (start + n)) (start + n) a).
  rewrite skipn_splice by assumption. reflexivity.
Qed.

End SliceFacts.

(** ** [x2fx] *)

Section X2fxFacts.
Context {F : Type} {SF : Scalar F}.

(** Induction on arrays, with the hypothesis on every sub-array. *)
Lemma ndarr_rect_all (P : ndarr F -> Prop) :
  (forall v, P (Vec v)) ->
  (forall subs, Forall P subs -> P (Stack subs)) ->
  forall Y, P Y.
Proof.
  intros Hv Hs.
  fix IH 1.
  intros [v|subs].
  - apply Hv.
  - apply Hs. induction subs as [|a l IHl]; constructor.
    + apply IH.
    + exact IHl.
Qed.

Lemma power_nonneg (v : F) (t : Z) : (0 <= t)%Z -> power v t = Ret (Fpow v t).
Proof.
  intros Ht. unfold power.
  assert (Hlt : (t <? 0)%Z = false) by (apply Z.ltb_ge; exact Ht).
  rewrite Hlt. reflexivity.
Qed.

Lemma unchecked_read_inside (y : list F) (j : nat) :
  j < length y -> unchecked_read y j = nth j y F0.
Proof.
  intros Hj. unfold unchecked_read.
  destruct (nth_error y j) as [v|] eqn:Hv.
  - symmetry. apply nth_error_nth. exact Hv.
  - apply nth_error_None in Hv. lia.
Qed.

Lemma x2fx_term_product (y : list F) (term : list Z) :
  forall j p,
    j + length term <= length y ->
    Forall (fun t => (0 <= t)%Z) term ->
    x2fx_term y term j p =
    Ret (fold_left Fmul
           (map (spec_factor y)
                (filter nonzero_exponent (combine (seq j (length term)) term)))
           p).
Proof.
  induction term as [|t term IH]; intros j p Hlen Hpos; simpl in *.
  - reflexivity.
  - apply Forall_cons_iff in Hpos. destruct Hpos as [Ht Hpos].
    unfold nonzero_exponent at 1; simpl.
    destruct (t =? 0)%Z eqn:Ht0; simpl.
    + apply IH; [lia|exact Hpos].
    + rewrite unchecked_read_inside by lia.
      unfold spec_factor at 2; simpl.
      destruct (t =? 1)%Z.
      * apply IH; [lia|exact Hpos].
      * rewrite power_nonneg by exact Ht. simpl. apply IH; [lia|exact Hpos].
Qed.

(** With exponents that are not negative nothing is divided: [x2fx]
    returns, whatever it reads. *)
Lemma x2fx_term_returns (y : list F) (term : list Z) :
  Forall (fun t => (0 <= t)%Z) term ->
  forall j p, exists q, x2fx_term y term j p = Ret q.
Proof.
  induction 1 as [|t term Ht _ IH]; intros j p; simpl.
  - exists p. reflexivity.
  - destruct (t =? 0)%Z; [apply IH|].
    destruct (t =? 1)%Z; [apply IH|].
    rewrite power_nonneg by exact Ht. simpl. apply IH.
Qed.

Lemma mapR_returns {A B : Type} (f : A -> result B) (l : list A) :
  Forall (fun a => exists b, f a = Ret b) l -> exists r, mapR f l = Ret r.
Proof.
  induction 1 as [|a l [b Hb] _ [r Hr]]; simpl.
  - exists []. reflexivity.
  - rewrite Hb. simpl. rewrite Hr. simpl. exists (b :: r). reflexivity.
Qed.

Lemma x2fx_point_returns (model : list (list Z)) (y : list F) :
  model_spec model -> exists x, x2fx_point model y = Ret x.
Proof.
  intros Hspec. unfold x2fx_point. apply mapR_returns.
  eapply Forall_impl; [|exact Hspec].
  intros term Hterm. apply x2fx_term_returns. exact Hterm.
Qed.

Lemma x2fx_2d_returns (model : list (list Z)) (rows : list (list F)) :
  model_spec model -> exists X, x2fx_2d rows model = Ret X.
Proof.
  intros Hspec. unfold x2fx_2d. apply mapR_returns.
  apply Forall_forall. intros y _. apply x2fx_point_returns. exact Hspec.
Qed.

Lemma x2fx_point_row (model : list (list Z)) (y : list F) :
  model_spec model ->
  Forall (fun term => length term <= length y) model ->
  x2fx_point model y = Ret (spec_row model y).
Proof.
  intros Hspec Hfit. unfold x2fx_point, spec_row.
  apply mapR_total.
  apply Forall_forall. intros term Hin.
  unfold model_spec in Hspec.
  rewrite Forall_forall in Hspec, Hfit.
  rewrite x2fx_term_product; [reflexivity|simpl; apply Hfit; exact Hin|].
  apply Hspec. exact Hin.
Qed.

Lemma x2fx_spec_lshape (model : list (list Z)) (Y X : ndarr F) :
  x2fx_spec model Y X -> lshape X = lshape Y.
Proof.
  revert X. induction Y as [y|ys IH] using ndarr_rect_all; intros X H.
  - inversion H; reflexivity.
  - inversion H as [|ys' xs HF]; subst. simpl.
    f_equal.
    + symmetry. eapply Forall2_length; exact HF.
    + destruct HF as [|a b l l' Hab _]; [reflexivity|].
      inversion IH; subst. auto.
Qed.

Lemma x2fx_spec_last_axis (model : list (list Z)) (Y X : ndarr F) :
  x2fx_spec model Y X -> last_axis (length model) X.
Proof.
  revert X. induction Y as [y|ys IH] using ndarr_rect_all; intros X H.
  - inversion H; subst. constructor. unfold spec_row. apply length_map.
  - inversion H as [|ys' xs HF]; subst. constructor.
    clear H. induction HF as [|a b l l' Hab _ IHF]; constructor.
    + inversion IH; subst. auto.
    + apply IHF. inversion IH; subst; assumption.
Qed.

Lemma x2fx_returns (model : list (list Z)) (Y : ndarr F) :
  model_spec model ->
  fits model Y -> exists X, x2fx Y model = Ret X /\ x2fx_spec model Y X.
Proof.
  intros Hms.
  induction Y as [y|ys IH] using ndarr_rect_all; intros Hfit.
  - inversion Hfit; subst. exists (Vec (spec_row model y)). split.
    + simpl. rewrite x2fx_point_row by assumption. reflexivity.
    + constructor.
  - inversion Hfit as [|ys' Hall]; subst.
    assert (Hgo : exists xs,
               (fix go (l : list (ndarr F)) : result (list (ndarr F)) :=
                  match l with
                  | [] => Ret []
                  | a :: l' =>
                      rbind (x2fx a model)
                            (fun b => rbind (go l') (fun bs => Ret (b :: bs)))
                  end) ys = Ret xs /\ Forall2 (x2fx_spec model) ys xs).
    { induction ys as [|a l IHl].
      - exists []. split; [reflexivity|constructor].
      - inversion IH as [|? ? Ha Hl]; subst.
        inversion Hall as [|? ? Hfa Hfl]; subst.
        destruct (Ha Hfa) as [b [Hb Hsb]].
        destruct (IHl Hl (fits_stack Hfl) Hfl) as [bs [Hbs Hsbs]].
        exists (b :: bs). split.
        + rewrite Hb; simpl. rewrite Hbs; reflexivity.
        + constructor; assumption. }
    destruct Hgo as [xs [Hxs Hspec]].
    exists (Stack xs). split.
    + simpl. rewrite Hxs. reflexivity.
    + constructor; exact Hspec.
Qed.

Lemma spec_column_intercept (y : list F) (term : list Z) :
  Forall (fun e => e = 0%Z) term -> spec_column y term = F1.
Proof.
  intros Hz. unfold spec_column.
  assert (Hf : forall j,
             filter nonzero_exponent (combine (seq j (length term)) term) = []).
  { induction Hz as [|e l He _ IH]; intros j; simpl.
    - reflexivity.
    - subst e. simpl. apply IH. }
  rewrite Hf. reflexivity.
Qed.

Lemma x2fx_2d_stack (model : list (list Z)) (Y : list (list F)) :
  x2fx (Stack (map Vec Y)) model = rmap (fun X => Stack (map Vec X)) (x2fx_2d Y model).
Proof.
  unfold x2fx_2d. simpl.
  assert (Hgo :
            (fix go (l : list (ndarr F)) : result (list (ndarr F)) :=
               match l with
               | [] => Ret []
               | a :: l' =>
                   rbind (x2fx a model)
                         (fun b => rbind (go l') (fun bs => Ret (b :: bs)))
               end) (map Vec Y) = rmap (map Vec) (mapR (x2fx_point model) Y)).
  { induction Y as [|y Y IH].
    - reflexivity.
    - cbn [map mapR x2fx]. rewrite IH.
      destruct (x2fx_point model y) as [x|e]; [|reflexivity].
      destruct (mapR (x2fx_point model) Y) as [xs|e]; reflexivity. }
  rewrite Hgo.
  destruct (mapR (x2fx_point model) Y); reflexivity.
Qed.

End X2fxFacts.

(** C4.  For every ModelSpec (exponents 0, 1 or at least 2) and every
    design array [Y], of any leading
    shape, whose last axis covers the model's factors, [x2fx] returns an
    array with the leading shape of [Y] and one column per term, whose
    column for a term is the product, in factor order, over the factors
    with a nonzero exponent of the value raised to the exponent (the
    value itself when the exponent is 1); a term of zeros gives the
    constant 1.  Being a function of [Y] and [model], the result is
    determined by them and [Y] is left as it was. *)
Theorem x2fx_model_matrix {F : Type} {SF : Scalar F}
        (model : list (list Z)) (Y : ndarr F) :
  model_spec model ->
  fits model Y ->
  (exists X, x2fx Y model = Ret X
             /\ x2fx_spec model Y X
             /\ lshape X = lshape Y
             /\ last_axis (length model) X)
  /\ (forall y term, Forall (fun e => e = 0%Z) term -> spec_column y term = F1).
Proof.
  intros Hms Hfit. split.
  - destruct (x2fx_returns _ _ Hms Hfit) as [X [HX Hspec]].
    exists X. repeat split.
    + exact HX.
    + exact Hspec.
    + eapply x2fx_spec_lshape; exact Hspec.
    + eapply x2fx_spec_last_axis; exact Hspec.
  - intros y term. apply spec_column_intercept.
Qed.

Lemma x2fx_model_matrix_witness :
  model_spec [[1; 0]; [0; 1]; [0; 0]; [2; 1]]%Z
  /\ fits [[1; 0]; [0; 1]; [0; 0]; [2; 1]]%Z (Stack [Stack [Vec [2; 3]; Vec [5; 7]]%Z])
  /\ x2fx (Stack [Stack [Vec [2; 3]; Vec [5; 7]]%Z]) [[1; 0]; [0; 1]; [0; 0]; [2; 1]]%Z
     = Ret (Stack [Stack [Vec [2; 3; 1; 12]; Vec [5; 7; 1; 175]]%Z]).
Proof.
  assert (Hfit : fits [[1; 0]; [0; 1]; [0; 0]; [2; 1]]%Z
                      (Stack [Stack [Vec [2; 3]; Vec [5; 7]]%Z])).
  { repeat constructor. }
  assert (Hms : model_spec [[1; 0]; [0; 1]; [0; 0]; [2; 1]]%Z).
  { repeat constructor; discriminate. }
  split; [exact Hms|]. split; [exact Hfit|].
  destruct (x2fx_model_matrix _ _ Hms Hfit) as [[X [HX _]] _].
  reflexivity.
Defined.

Example x2fx_intercept_only :
  x2fx (Stack [Vec [2; 3]; Vec [-4; 9]]%Z) [[0; 0]]%Z = Ret (Stack [Vec [1]; Vec [1]]%Z).
Proof. reflexivity. Qed.

Example x2fx_main_effects :
  x2fx (Stack [Vec [2; 3]%Z]) [[1; 0]; [0; 1]]%Z = Ret (Stack [Vec [2; 3]%Z]).
Proof. reflexivity. Qed.

Example x2fx_divides_by_zero :
  x2fx (Stack [Vec [2; 0]%Z]) [[1; -1]]%Z = Raise ZeroDivisionError.
Proof. reflexivity. Qed.

(** ** [generate_coordinates] *)

Section CoordinateFacts.
Context {F : Type} {SF : Scalar F}.

Lemma eye_length (n : nat) : length (eye (F := F) n) = n.
Proof. unfold eye. rewrite length_map, length_seq. reflexivity. Qed.

Lemma eye_entry (n i j : nat) :
  i < n -> j < n ->
  nth j (nth i (eye n) []) F0 = if Nat.eqb i j then F1 else F0.
Proof.
  intros Hi Hj. unfold eye.
  rewrite nth_indep with (d' := map (fun j => if Nat.eqb 0 j then F1 else F0) (seq 0 n))
    by (rewrite length_map, length_seq; exact Hi).
  rewrite (map_nth (fun i => map (fun j => if Nat.eqb i j then F1 else F0) (seq 0 n))
                   (seq 0 n) 0 i).
  rewrite seq_nth by exact Hi. simpl.
  rewrite nth_indep with (d' := if Nat.eqb i 0 then F1 else F0)
    by (rewrite length_map, length_seq; exact Hj).
  rewrite (map_nth (fun j => if Nat.eqb i j then F1 else F0) (seq 0 n) 0 j).
  rewrite seq_nth by exact Hj. reflexivity.
Qed.

Lemma eye_rows (n : nat) : Forall (fun row : list F => length row = n) (eye n).
Proof.
  unfold eye. apply Forall_forall. intros row Hin.
  apply in_map_iff in Hin. destruct Hin as [i [Hrow _]]. subst row.
  rewrite length_map, length_seq. reflexivity.
Qed.

End CoordinateFacts.

(** C5.  [generate_coordinates] returns an override verbatim, an
    override being a [default] that is not empty ([default.size != 0],
    the parameter's own default being the empty array).  Otherwise a
    factor with at most one level gets the three coordinates [-1], [0],
    [1], and a factor with [L > 1] levels gets [L] rows of [L-1]
    entries: the identity matrix and then a row of [-1].  In particular
    [generate_coordinates(1)] is [[-1]; [0]; [1]] and
    [generate_coordinates(3)] is [[1; 0]; [0; 1]; [-1; -1]]. *)
Theorem generate_coordinates_spec {F : Type} {SF : Scalar F}
        (cat_lvl : Z) (default : list (list F)) :
  (arr_size default <> 0 -> generate_coordinates cat_lvl default = default)
  /\ (arr_size default = 0 -> (cat_lvl <= 1)%Z ->
      generate_coordinates cat_lvl default = [[Fopp F1]; [F0]; [F1]])
  /\ (arr_size default = 0 -> (1 < cat_lvl)%Z ->
      let n := Z.to_nat (cat_lvl - 1) in
      generate_coordinates cat_lvl default = eye n ++ [repeat (Fopp F1) n]
      /\ Z.of_nat (length (generate_coordinates cat_lvl default)) = cat_lvl
      /\ Forall (fun row => length row = n) (generate_coordinates cat_lvl default)
      /\ (forall i j, i < n -> j < n ->
            nth j (nth i (generate_coordinates cat_lvl default) []) F0
            = if Nat.eqb i j then F1 else F0))
  /\ generate_coordinates 1 (no_default (F := F)) = [[Fopp F1]; [F0]; [F1]]
  /\ generate_coordinates 3 (no_default (F := F))
     = [[F1; F0]; [F0; F1]; [Fopp F1; Fopp F1]].
Proof.
  unfold generate_coordinates.
  split; [|split; [|split; [|split]]].
  - intros Hsz. apply Nat.eqb_neq in Hsz. rewrite Hsz. reflexivity.
  - intros Hsz Hc. rewrite Hsz. simpl.
    apply Z.leb_le in Hc. rewrite Hc. reflexivity.
  - intros Hsz Hc. cbv zeta. rewrite Hsz. simpl.
    assert (Hgt : (cat_lvl <=? 1)%Z = false) by (apply Z.leb_gt; exact Hc).
    rewrite Hgt. set (n := Z.to_nat (cat_lvl - 1)).
    split; [reflexivity|]. split; [|split].
    + rewrite length_app, eye_length. simpl. unfold n. lia.
    + apply Forall_app. split.
      * apply eye_rows.
      * constructor; [apply repeat_length|constructor].
    + intros i j Hi Hj.
      rewrite app_nth1 by (rewrite eye_length; exact Hi).
      apply eye_entry; assumption.
  - reflexivity.
  - reflexivity.
Qed.

Lemma generate_coordinates_spec_witness :
  generate_coordinates 1 [[5; 6]; [7; 8]]%Z = [[5; 6]; [7; 8]]%Z
  /\ generate_coordinates 0 [[]] = [[-1]; [0]; [1]]%Z
  /\ generate_coordinates 4 [[]] = [[1; 0; 0]; [0; 1; 0]; [0; 0; 1]; [-1; -1; -1]]%Z.
Proof.
  split; [|split].
  - destruct (generate_coordinates_spec 1 [[5; 6]; [7; 8]]%Z) as [H _].
    apply H. discriminate.
  - destruct (generate_coordinates_spec 0 ([[]] : list (list Z))) as [_ [H _]].
    apply H; [reflexivity|lia].
  - destruct (generate_coordinates_spec 4 ([[]] : list (list Z))) as [_ [_ [H _]]].
    destruct H as [H _]; [reflexivity|lia|].
    exact H.
Defined.

(** ** Ratio normalisation in [doe] *)

Section RatioFacts.
Context {F : Type} {SF : Scalar F}.

Lemma normalize_ratios_omitted (plot_sizes : list nat) :
  normalize_ratios (F := F) plot_sizes None = Ret (repeat F1 (length plot_sizes)).
Proof. reflexivity. Qed.

Lemma normalize_ratios_one_shorter (plot_sizes : list nat) (r : list F) :
  length r + 1 = length plot_sizes ->
  normalize_ratios plot_sizes (Some r) = Raise TypeError.
Proof.
  intros Hlen. unfold normalize_ratios.
  apply Nat.eqb_eq in Hlen. rewrite Hlen. reflexivity.
Qed.

(** The call as [optimize] writes it for [betas], with the arrays in
    one tuple, does prepend. *)
Lemma np_concatenate_tuple {A : Type} (x : A) (r : list A) :
  np_concatenate [Item1d [x]; Item1d r] (AxisInt 0) = Ret (x :: r).
Proof. simpl. rewrite app_nil_r. reflexivity. Qed.

Lemma normalize_ratios_mismatch (plot_sizes : list nat) (r : list F) :
  length r <> length plot_sizes ->
  length r + 1 <> length plot_sizes ->
  normalize_ratios plot_sizes (Some r)
  = Raise (AssertionError "Ratio sizes do not match plot sizes").
Proof.
  intros Hne Hne1. unfold normalize_ratios.
  apply Nat.eqb_neq in Hne, Hne1. rewrite Hne1, Hne. reflexivity.
Qed.

Lemma normalize_ratios_first (plot_sizes : list nat) (r0 : F) (r : list F) :
  length (r0 :: r) = length plot_sizes ->
  Feqb r0 F1 = false ->
  normalize_ratios plot_sizes (Some (r0 :: r))
  = Raise (AssertionError "First element of ratios should be 1").
Proof.
  intros Hlen Hr0. unfold normalize_ratios.
  assert (H1 : Nat.eqb (length (r0 :: r) + 1) (length plot_sizes) = false)
    by (apply Nat.eqb_neq; lia).
  apply Nat.eqb_eq in Hlen.
  rewrite H1, Hlen. simpl. rewrite Hr0. reflexivity.
Qed.

End RatioFacts.

(** C1.  With [plot_sizes = [2, 2]] and a [ratios] of one entry, [doe]
    does not prepend the 1: [np.concatenate(np.array([1]), ratios)]
    takes [ratios] for the axis and raises TypeError, whatever the
    entry, the criterion and the other arguments, before
    [optim.preinit] is called and before any restart. *)
Theorem doe_ratios_one_shorter_raises
        {F UModel Pre St Metric Decoded : Type} {SF : Scalar F} {MO : MetricOps Metric}
        {optim : Optim F UModel Pre St Metric}
        (refresh_Minv : St -> list (list F) -> result St)
        (encode_model : UModel -> list (nat * Z) -> list (list Z))
        (initialize_single :
           nat -> list nat -> list (nat * Z) -> list (list F) ->
           option (list (list (list F))) -> list (list F) * list (list F))
        (encode_design : list (list F) -> list (nat * Z) -> list (list F))
        (decode_design : list (list F) -> list (nat * Z) -> Decoded)
        (model : UModel) (factors : list (nat * Z)) (n_tries max_it : nat)
        (default_coords : option (list (list (list F)))) (r : F) (fuel : nat) :
  doe_run_of refresh_Minv encode_model initialize_single encode_design decode_design
             model [2; 2] factors n_tries max_it default_coords (Some [r]) fuel
  = mk_doe_run [] None (Raised TypeError).
Proof. reflexivity. Qed.

(** C10.  A [ratios] whose length is neither that of [plot_sizes] nor
    one less, or whose length is that of [plot_sizes] and whose first
    entry is not 1, makes [doe] raise an AssertionError; nothing was
    observed before it: [optim.preinit] was not called and no restart
    was attempted. *)
Theorem doe_rejects_bad_ratios
        {F UModel Pre St Metric Decoded : Type} {SF : Scalar F} {MO : MetricOps Metric}
        {optim : Optim F UModel Pre St Metric}
        (refresh_Minv : St -> list (list F) -> result St)
        (encode_model : UModel -> list (nat * Z) -> list (list Z))
        (initialize_single :
           nat -> list nat -> list (nat * Z) -> list (list F) ->
           option (list (list (list F))) -> list (list F) * list (list F))
        (encode_design : list (list F) -> list (nat * Z) -> list (list F))
        (decode_design : list (list F) -> list (nat * Z) -> Decoded)
        (model : UModel) (plot_sizes : list nat) (factors : list (nat * Z))
        (n_tries max_it : nat) (default_coords : option (list (list (list F))))
        (ratios : list F) (fuel : nat) :
  (length ratios <> length plot_sizes /\ length ratios + 1 <> length plot_sizes)
  \/ (length ratios = length plot_sizes
      /\ exists r0 rest, ratios = r0 :: rest /\ Feqb r0 F1 = false) ->
  exists msg,
    doe_run_of refresh_Minv encode_model initialize_single encode_design decode_design
               model plot_sizes factors n_tries max_it default_coords (Some ratios) fuel
    = mk_doe_run [] None (Raised (AssertionError msg)).
Proof.
  intros [[Hne Hne1]|[Hlen [r0 [rest [Hr Hr0]]]]]; unfold doe_run_of.
  - rewrite normalize_ratios_mismatch by assumption. eexists; reflexivity.
  - subst ratios. rewrite normalize_ratios_first by assumption. eexists; reflexivity.
Qed.

(** ** The loop of [optimize]: what every step keeps *)

Section KeepFacts.
Context {F UModel Pre St Metric : Type} {SF : Scalar F}.
Context {optim : Optim F UModel Pre St Metric}.

Abbreviation ostate := (ostate (F := F) (St := St)).
Abbreviation M := (M (F := F) (St := St)).

Variable I : ostate -> Prop.

Lemma keeps_ret {A : Type} (a : A) (Q : A -> Prop) : Q a -> keeps I (ret a) Q.
Proof.
  intros Ha s Hs. simpl. split; [exact Hs|].
  intros a' H. inversion H; subst. exact Ha.
Qed.

Lemma keeps_bind {A B : Type} (m : M A) (k : A -> M B) (P : A -> Prop) (Q : B -> Prop) :
  keeps I m P -> (forall a, P a -> keeps I (k a) Q) -> keeps I (bind m k) Q.
Proof.
  intros Hm Hk s Hs. unfold bind.
  destruct (Hm s Hs) as [Hs' Hret].
  destruct (m s) as [s' [a|e]]; simpl in *.
  - apply (Hk a (Hret a eq_refl) s' Hs').
  - split; [exact Hs'|]. intros a H; discriminate.
Qed.

Lemma keeps_weaken {A : Type} (m : M A) (P Q : A -> Prop) :
  keeps I m P -> (forall a, P a -> Q a) -> keeps I m Q.
Proof.
  intros Hm HPQ s Hs. destruct (Hm s Hs) as [Hs' Hret].
  split; [exact Hs'|]. intros a Ha. apply HPQ, Hret, Ha.
Qed.

Lemma keeps_index {A : Type} (l : list A) (n : nat) :
  keeps I (index l n) (fun a => nth_error l n = Some a).
Proof.
  intros s Hs. unfold index.
  destruct (nth_error l n) as [a|]; simpl.
  - split; [exact Hs|]. intros a' H; inversion H; reflexivity.
  - split; [exact Hs|]. intros a' H; discriminate.
Qed.

Lemma keeps_for_each {A : Type} (body : A -> M unit) (l : list A) :
  (forall a, In a l -> keeps I (body a) (fun _ => True)) ->
  keeps I (for_each body l) (fun _ => True).
Proof.
  induction l as [|a l IH]; intros Hbody; simpl.
  - apply keeps_ret. exact Logic.I.
  - eapply keeps_bind.
    + apply Hbody. left; reflexivity.
    + intros _ _. apply IH. intros b Hb. apply Hbody. right; exact Hb.
Qed.

End KeepFacts.

Section ClosedSearchSpace.
Context {F UModel Pre St Metric : Type} {SF : Scalar F}.
Context {optim : Optim F UModel Pre St Metric}.

Variable refresh_Minv : St -> list (list F) -> result St.
Variable model : list (list Z).
Variables alphas betas col_start : list nat.
Variable coords : list (list (list F)).
Variable Wd : nat.

Abbreviation ostate := (ostate (F := F) (St := St)).
Abbreviation Inv := (closed_inv (St := St) Wd col_start coords).

(** Assigning a coordinate of factor [i] to a block of its columns
    leaves a valid point. *)
Lemma write_block_valid (i r0 jmp col : nat) (cs : list (list F)) (v : list F)
      (Y Y' : list (list F)) :
  nth_error coords i = Some cs ->
  nth_error col_start i = Some col ->
  In v cs ->
  valid_point Wd col_start coords Y ->
  write_block r0 jmp col (width cs) v Y = Ret Y' ->
  valid_point Wd col_start coords Y'.
Proof.
  intros Hcs Hcol Hv [Hrect [Hlay [Hdis Hmem]]] Hw.
  unfold write_block in Hw.
  destruct (Nat.eqb (length v) (length (slice col (width cs) (hd [] Y)))
            || Nat.eqb (length v) 1); [|discriminate].
  inversion Hw; subst Y'; clear Hw.
  destruct (Hlay i cs col Hcs Hcol) as [Hfit Hcslen].
  assert (Hvlen : length v = width cs).
  { rewrite Forall_forall in Hcslen. apply Hcslen. exact Hv. }
  (* every row of the result is a row of [Y] or a row of [Y] with [v] written *)
  assert (Hrows : forall row,
             In row (splice r0 jmp
                       (map (put_cols col (length (slice col (width cs) (hd [] Y))) v)
                            (slice r0 jmp Y)) Y) ->
             In row Y \/ exists row0, In row0 Y /\ row = splice col (width cs) v row0).
  { intros row Hin. apply In_splice in Hin. destruct Hin as [Hin|Hin].
    - left; exact Hin.
    - right. apply in_map_iff in Hin. destruct Hin as [row0 [Hrow Hin0]].
      apply In_slice in Hin0. exists row0. split; [exact Hin0|].
      assert (Hhd : length (hd [] Y) = Wd).
      { destruct Y as [|y Y0]; [contradiction|].
        simpl. inversion Hrect; assumption. }
      rewrite length_slice in Hrow by lia.
      subst row. unfold put_cols. rewrite Hvlen, Nat.eqb_refl. reflexivity. }
  assert (Hlen0 : forall row0, In row0 Y -> length row0 = Wd).
  { rewrite Forall_forall in Hrect. exact Hrect. }
  repeat split.
  - apply Forall_forall. intros row Hin.
    destruct (Hrows row Hin) as [HinY|[row0 [Hin0 Hrow]]].
    + apply Hlen0; exact HinY.
    + subst row. rewrite length_splice; [apply Hlen0; exact Hin0| |exact Hvlen].
      rewrite (Hlen0 row0 Hin0). exact Hfit.
  - apply (Hlay i0 cs0 col0); assumption.
  - apply (Hlay i0 cs0 col0); assumption.
  - exact Hdis.
  - intros row k ck colk Hin Hck Hcolk.
    destruct (Hrows row Hin) as [HinY|[row0 [Hin0 Hrow]]].
    + apply (Hmem row k ck colk); assumption.
    + subst row.
      assert (Hcol0 : col <= length row0) by (rewrite (Hlen0 row0 Hin0); lia).
      destruct (Nat.eq_dec k i) as [Hki|Hki].
      * subst k. rewrite Hcs in Hck. inversion Hck; subst ck.
        rewrite Hcol in Hcolk. inversion Hcolk; subst colk.
        rewrite slice_splice by assumption. exact Hv.
      * destruct (Hdis k i ck cs colk col Hki Hck Hcolk Hcs Hcol) as [Hl|Hr].
        -- rewrite slice_splice_left by assumption.
           apply (Hmem row0 k ck colk); assumption.
        -- rewrite slice_splice_right by assumption.
           apply (Hmem row0 k ck colk); assumption.
Qed.

Lemma keeps_assign_block (i r0 jmp col : nat) (cs : list (list F)) (v : list F) :
  nth_error coords i = Some cs ->
  nth_error col_start i = Some col ->
  In v cs ->
  keeps Inv (assign_block i r0 jmp col (width cs) v) (fun _ => True).
Proof.
  intros Hcs Hcol Hv s [Hvalid Hlog]. unfold assign_block.
  destruct (write_block r0 jmp col (width cs) v (cur_Y s)) as [Y'|e] eqn:Hw; simpl.
  - split; [|auto]. split; simpl.
    + eapply write_block_valid; eassumption.
    + constructor; [|exact Hlog]. exists cs. split; assumption.
  - split; [|auto]. split; assumption.
Qed.

Lemma keeps_try_candidate (i level grp r0 jmp col : nat) (cs : list (list F))
      (init_coord best_coord new_coord : list F) :
  nth_error coords i = Some cs ->
  nth_error col_start i = Some col ->
  In best_coord cs -> In new_coord cs ->
  keeps Inv (try_candidate model i level grp r0 jmp col (width cs)
                           init_coord best_coord new_coord)
        (fun b => In b cs).
Proof.
  intros Hcs Hcol Hbest Hnew. unfold try_candidate.
  eapply keeps_bind.
  - eapply keeps_assign_block; eassumption.
  - intros _ _.
    destruct (all_eq new_coord init_coord).
    + apply keeps_ret. exact Hbest.
    + intros s Hs.
      destruct (x2fx_2d (slice r0 jmp (cur_Y s)) model) as [Xi|e]; simpl.
      * destruct (update (cur_state s) (cur_X s) Xi level grp) as [[[|] st']|e]; simpl.
        -- split; [exact Hs|]. intros a H; inversion H; subst; exact Hnew.
        -- split; [exact Hs|]. intros a H; inversion H; subst; exact Hbest.
        -- destruct (is_Exception e); simpl.
           ++ split; [exact Hs|]. intros a H; inversion H; subst; exact Hbest.
           ++ split; [exact Hs|]. intros a H; discriminate.
      * split; [exact Hs|]. intros a H; discriminate.
Qed.

Lemma keeps_scan_candidates (i level grp r0 jmp col : nat) (cs : list (list F))
      (init_coord : list F) (cands : list (list F)) :
  nth_error coords i = Some cs ->
  nth_error col_start i = Some col ->
  (forall c, In c cands -> In c cs) ->
  forall best_coord,
    In best_coord cs ->
    keeps Inv (scan_candidates model i level grp r0 jmp col (width cs)
                               init_coord cands best_coord)
          (fun b => In b cs).
Proof.
  intros Hcs Hcol. induction cands as [|c cands IH]; intros Hsub best Hbest; simpl.
  - apply keeps_ret. exact Hbest.
  - eapply keeps_bind.
    + eapply keeps_try_candidate; try eassumption. apply Hsub. left; reflexivity.
    + intros b Hb. apply IH; [|exact Hb].
      intros c' Hc'. apply Hsub. right; exact Hc'.
Qed.

Lemma keeps_scan_block (i level jmp col grp : nat) :
  nth_error col_start i = Some col ->
  keeps Inv (scan_block model coords i level jmp col grp) (fun _ => True).
Proof.
  intros Hcol. unfold scan_block.
  eapply keeps_bind; [apply keeps_index|].
  intros cs Hcs. simpl in Hcs.
  eapply keeps_bind with (P := fun init_coord => In init_coord cs).
  - intros s Hs.
    destruct (nth_error (cur_Y s) (grp * jmp)) as [row|] eqn:Hrow; simpl.
    + split; [exact Hs|]. intros a H; inversion H; subst a.
      destruct Hs as [[_ [_ [_ Hmem]]] _].
      apply (Hmem row i cs col); try assumption.
      eapply nth_error_In; exact Hrow.
    + split; [exact Hs|]. intros a H; discriminate.
  - intros init_coord Hinit.
    eapply keeps_bind.
    + eapply keeps_scan_candidates; try eassumption. auto.
    + intros best Hbest. eapply keeps_assign_block; eassumption.
Qed.

Lemma keeps_scan_factor (ifactor : nat * (nat * Z)) :
  keeps Inv (scan_factor model alphas betas col_start coords ifactor) (fun _ => True).
Proof.
  unfold scan_factor.
  eapply keeps_bind; [apply keeps_index|]. intros jmp _.
  eapply keeps_bind; [apply keeps_index|]. intros col Hcol. simpl in Hcol.
  eapply keeps_bind; [apply keeps_index|]. intros n_groups _.
  apply keeps_for_each. intros grp _.
  apply keeps_scan_block. exact Hcol.
Qed.

Lemma keeps_sweep (factors : list (nat * Z)) :
  keeps Inv (sweep model alphas betas col_start coords factors) (fun _ => True).
Proof.
  intros s Hs. unfold sweep.
  apply keeps_for_each.
  - intros ifactor _. apply keeps_scan_factor.
  - exact Hs.
Qed.

Lemma keeps_iterate (factors : list (nat * Z)) (max_it : nat) :
  keeps Inv (iterate refresh_Minv model alphas betas col_start coords factors max_it)
        (fun _ => True).
Proof.
  induction max_it as [|k IH]; simpl.
  - apply keeps_ret. exact Logic.I.
  - eapply keeps_bind; [apply keeps_sweep|].
    intros _ _ s Hs.
    destruct (updated s).
    + destruct (refresh_Minv (cur_state s) (cur_X s)) as [st'|e]; simpl.
      * apply IH. exact Hs.
      * split; [exact Hs|]. intros a H; discriminate.
    + simpl. split; [exact Hs|auto].
Qed.

End ClosedSearchSpace.

(** C9.  Let [Y] be a valid point of the product of the coordinate
    sets [optimize] uses (generated or overridden), laid out at the
    column starts it uses.  Then every value [optimize] assigns to the
    columns of a factor, a candidate or the final best coordinate of a
    block, is a member of that factor's coordinate set, and the design
    is a valid point when [optimize] is left, by a return or by an
    exception; the design returned is that design. *)
Theorem optimize_closed_search_space
        {F UModel Pre St Metric : Type} {SF : Scalar F}
        {optim : Optim F UModel Pre St Metric}
        (refresh_Minv : St -> list (list F) -> result St)
        (Y : list (list F)) (model : list (list Z)) (plot_sizes : list nat)
        (factors : list (nat * Z)) (prestate : Pre) (max_it : nat)
        (col_start : option (list nat))
        (default_coords : option (list (list (list F)))) (Wd : nat) :
  valid_point Wd (col_start_of factors col_start)
              (possible_coords_of factors default_coords) Y ->
  let r := optimize_run refresh_Minv Y model plot_sizes factors prestate max_it
                        col_start default_coords in
  valid_point Wd (col_start_of factors col_start)
              (possible_coords_of factors default_coords) (final_Y r)
  /\ Forall (member_write (possible_coords_of factors default_coords)) (all_writes r)
  /\ (forall Y' m, outcome r = Ret (Y', m) -> Y' = final_Y r).
Proof.
  intros Hvalid. unfold optimize_run.
  destruct (x2fx_2d Y model) as [X|e]; simpl;
    [|split; [exact Hvalid|split; [constructor|intros; discriminate]]].
  destruct (init prestate Y X) as [st|e]; simpl;
    [|split; [exact Hvalid|split; [constructor|intros; discriminate]]].
  pose proof (keeps_iterate refresh_Minv model
                (rev (cumprod (rev plot_sizes))) (cumprod (1 :: plot_sizes ++ []))
                (col_start_of factors col_start)
                (possible_coords_of factors default_coords) Wd factors max_it
                (mk_ostate Y X st false [] 0)) as Hkeep.
  destruct Hkeep as [[Hv Hw] _].
  { split; simpl; [exact Hvalid|constructor]. }
  destruct (iterate refresh_Minv model (rev (cumprod (rev plot_sizes)))
                    (cumprod (1 :: plot_sizes ++ []))
                    (col_start_of factors col_start)
                    (possible_coords_of factors default_coords) factors max_it
                    (mk_ostate Y X st false [] 0)) as [s [u|e]]; simpl in *.
  - split; [exact Hv|split; [exact Hw|]].
    intros Y' m H.
    destruct (metric (cur_state s) (cur_Y s) (cur_X s)); simpl in H; inversion H.
    reflexivity.
  - split; [exact Hv|split; [exact Hw|intros; discriminate]].
Qed.

(** ** Failures of [update] *)

Section UpdateFailures.
Context {F UModel Pre St Metric : Type} {SF : Scalar F}.
Context {optim : Optim F UModel Pre St Metric}.

Variable refresh_Minv : St -> list (list F) -> result St.
Variable model : list (list Z).

Abbreviation ostate := (ostate (F := F) (St := St)).
Abbreviation M := (M (F := F) (St := St)).

Lemma bind_ext {A B : Type} (m m' : M A) (k k' : A -> M B) (s : ostate) :
  m s = m' s -> (forall a s', k a s' = k' a s') -> bind m k s = bind m' k' s.
Proof.
  intros Hm Hk. unfold bind. rewrite Hm.
  destruct (m' s) as [s' [a|e]]; [apply Hk|reflexivity].
Qed.

Lemma for_each_ext {A : Type} (f g : A -> M unit) (l : list A) :
  (forall a s, f a s = g a s) -> forall s, for_each f l s = for_each g l s.
Proof.
  intros Hfg. induction l as [|a l IH]; intros s; simpl.
  - reflexivity.
  - apply bind_ext; [apply Hfg|]. intros _ s'. apply IH.
Qed.

Lemma try_candidate_raise (i level grp r0 jmp col w : nat)
      (init_coord best_coord new_coord : list F) (s : ostate)
      (Y' Xi_star : list (list F)) (e : exn) :
  write_block r0 jmp col w new_coord (cur_Y s) = Ret Y' ->
  all_eq new_coord init_coord = false ->
  x2fx_2d (slice r0 jmp Y') model = Ret Xi_star ->
  update (cur_state s) (cur_X s) Xi_star level grp = Raise e ->
  try_candidate model i level grp r0 jmp col w init_coord best_coord new_coord s
  = (candidate_written i new_coord Y' s,
     if is_Exception e then Ret best_coord else Raise e).
Proof.
  intros Hw Hne Hx Hu. unfold try_candidate, bind, assign_block.
  rewrite Hw, Hne. simpl. rewrite Hx. simpl. rewrite Hu.
  destruct (is_Exception e); reflexivity.
Qed.

Lemma try_candidate_caught (i level grp r0 jmp col w : nat)
      (init_coord best_coord new_coord : list F) (s : ostate) :
  try_candidate (optim := optim) model i level grp r0 jmp col w
                init_coord best_coord new_coord s
  = try_candidate (optim := caught optim) model i level grp r0 jmp col w
                  init_coord best_coord new_coord s.
Proof.
  unfold try_candidate, bind.
  destruct (assign_block i r0 jmp col w new_coord s) as [s1 [u|e]]; [|reflexivity].
  destruct (all_eq new_coord init_coord); [reflexivity|].
  destruct (x2fx_2d (slice r0 jmp (cur_Y s1)) model) as [Xi|e]; [|reflexivity].
  simpl.
  destruct (update (Optim := optim) (cur_state s1) (cur_X s1) Xi level grp)
    as [[accept st']|e].
  - reflexivity.
  - destruct s1 as [cY cX cst cu cw csw].
    destruct e; reflexivity.
Qed.

Lemma scan_candidates_caught (i level grp r0 jmp col w : nat) (init_coord : list F)
      (cands : list (list F)) :
  forall best_coord s,
    scan_candidates (optim := optim) model i level grp r0 jmp col w
                    init_coord cands best_coord s
    = scan_candidates (optim := caught optim) model i level grp r0 jmp col w
                      init_coord cands best_coord s.
Proof.
  induction cands as [|c cands IH]; intros best s; simpl.
  - reflexivity.
  - apply bind_ext; [apply try_candidate_caught|]. intros b s'. apply IH.
Qed.

Variables alphas betas col_start : list nat.
Variable coords : list (list (list F)).

Lemma scan_block_caught (i level jmp col grp : nat) (s : ostate) :
  scan_block (optim := optim) model coords i level jmp col grp s
  = scan_block (optim := caught optim) model coords i level jmp col grp s.
Proof.
  unfold scan_block.
  apply bind_ext; [reflexivity|]. intros cs s1.
  apply bind_ext; [reflexivity|]. intros init_coord s2.
  apply bind_ext; [apply scan_candidates_caught|]. reflexivity.
Qed.

Lemma scan_factor_caught (ifactor : nat * (nat * Z)) (s : ostate) :
  scan_factor (optim := optim) model alphas betas col_start coords ifactor s
  = scan_factor (optim := caught optim) model alphas betas col_start coords ifactor s.
Proof.
  unfold scan_factor.
  apply bind_ext; [reflexivity|]. intros jmp s1.
  apply bind_ext; [reflexivity|]. intros col s2.
  apply bind_ext; [reflexivity|]. intros n s3.
  apply for_each_ext. intros grp s4. apply scan_block_caught.
Qed.

Lemma sweep_caught (factors : list (nat * Z)) (s : ostate) :
  sweep (optim := optim) model alphas betas col_start coords factors s
  = sweep (optim := caught optim) model alphas betas col_start coords factors s.
Proof.
  unfold sweep. apply for_each_ext. intros ifactor s'. apply scan_factor_caught.
Qed.

Lemma iterate_caught (factors : list (nat * Z)) (max_it : nat) :
  forall s,
    iterate (optim := optim) refresh_Minv model alphas betas col_start coords
            factors max_it s
    = iterate (optim := caught optim) refresh_Minv model alphas betas col_start coords
              factors max_it s.
Proof.
  induction max_it as [|k IH]; intros s; simpl.
  - reflexivity.
  - apply bind_ext; [apply sweep_caught|]. intros _ s'.
    destruct (updated s'); [|reflexivity].
    destruct (refresh_Minv (cur_state s') (cur_X s')); [apply IH|reflexivity].
Qed.

End UpdateFailures.

Lemma optimize_run_caught
      {F UModel Pre St Metric : Type} {SF : Scalar F}
      (optim : Optim F UModel Pre St Metric)
      (refresh_Minv : St -> list (list F) -> result St)
      (Y : list (list F)) (model : list (list Z)) (plot_sizes : list nat)
      (factors : list (nat * Z)) (prestate : Pre) (max_it : nat)
      (col_start : option (list nat))
      (default_coords : option (list (list (list F)))) :
  optimize_run (optim := optim) refresh_Minv Y model plot_sizes factors prestate max_it
               col_start default_coords
  = optimize_run (optim := caught optim) refresh_Minv Y model plot_sizes factors prestate
                 max_it col_start default_coords.
Proof.
  unfold optimize_run. simpl.
  destruct (x2fx_2d Y model) as [X|e]; [|reflexivity].
  destruct (init prestate Y X) as [st|e]; [|reflexivity].
  rewrite iterate_caught. reflexivity.
Qed.

(** C3.  When the assignment of a candidate has succeeded, the candidate
    differs from the block's coordinate, and [update] raises an
    exception [optimize] catches (every Exception, a LinAlgError among
    them), the candidate is rejected: [best_coord] stays, and so do the
    criterion's state, [X] and the flag [updated]; only [Y] holds the
    candidate until the next assignment.  The scan of the block goes on
    with the remaining candidates from there. *)
Theorem optimize_candidate_failure_rejected
        {F UModel Pre St Metric : Type} {SF : Scalar F}
        {optim : Optim F UModel Pre St Metric}
        (model : list (list Z)) (i level grp r0 jmp col w : nat)
        (init_coord best_coord new_coord : list F) (rest : list (list F))
        (s : ostate (F := F) (St := St)) (Y' Xi_star : list (list F)) (e : exn) :
  write_block r0 jmp col w new_coord (cur_Y s) = Ret Y' ->
  all_eq new_coord init_coord = false ->
  x2fx_2d (slice r0 jmp Y') model = Ret Xi_star ->
  update (cur_state s) (cur_X s) Xi_star level grp = Raise e ->
  is_Exception e = true ->
  let s' := mk_ostate Y' (cur_X s) (cur_state s) (updated s)
                      ((i, new_coord) :: writes s) (sweeps s) in
  try_candidate model i level grp r0 jmp col w init_coord best_coord new_coord s
  = (s', Ret best_coord)
  /\ scan_candidates model i level grp r0 jmp col w init_coord (new_coord :: rest)
                     best_coord s
     = scan_candidates model i level grp r0 jmp col w init_coord rest best_coord s'.
Proof.
  intros Hw Hne Hx Hu He s'.
  pose proof (try_candidate_raise model i level grp r0 jmp col w init_coord best_coord
                                  new_coord s Y' Xi_star e Hw Hne Hx Hu) as Htry.
  rewrite He in Htry. fold s' in Htry. unfold candidate_written in Htry.
  split; [exact Htry|].
  simpl. unfold bind. rewrite Htry. reflexivity.
Qed.

(** ** The restart loop of [doe] *)

Lemma callbacks_app (a b : list event) : callbacks (a ++ b) = callbacks a ++ callbacks b.
Proof.
  induction a as [|[|k|i] a IH]; simpl; try exact IH.
  - reflexivity.
  - rewrite IH. reflexivity.
Qed.

Lemma started_app (a b : list event) : started (a ++ b) = started a ++ started b.
Proof.
  induction a as [|[|k|i] a IH]; simpl; try exact IH.
  - reflexivity.
  - rewrite IH. reflexivity.
Qed.

Lemma set_metric_prefix {Metric : Type} (i : nat) (m : Metric) (ms : list Metric) :
  i < length ms -> firstn (S i) (set_metric i m ms) = firstn i ms ++ [m].
Proof.
  intros Hi. unfold set_metric.
  assert (Hlen : length (firstn i ms) = i) by (rewrite length_firstn; lia).
  replace (S i) with (length (firstn i ms) + 1) by lia.
  rewrite firstn_app_2. reflexivity.
Qed.

Lemma set_metric_length {Metric : Type} (i : nat) (m : Metric) (ms : list Metric) :
  i < length ms -> length (set_metric i m ms) = length ms.
Proof.
  intros Hi. unfold set_metric.
  rewrite length_app, length_firstn, length_cons, length_skipn. lia.
Qed.

Section RestartFacts.
Context {F UModel Pre St Metric : Type} {SF : Scalar F} {MO : MetricOps Metric}.
Context {optim : Optim F UModel Pre St Metric}.

Variable refresh_Minv : St -> list (list F) -> result St.
Variable initialize_single :
  nat -> list nat -> list (nat * Z) -> list (list F) ->
  option (list (list (list F))) -> list (list F) * list (list F).
Variable encode_design : list (list F) -> list (nat * Z) -> list (list F).
Variable model_enc : list (list Z).
Variable plot_sizes : list nat.
Variable factors : list (nat * Z).
Variable prestate : Pre.
Variables n_tries max_it : nat.
Variable default_coords : option (list (list (list F))).

Abbreviation restarts :=
  (restarts refresh_Minv initialize_single encode_design model_enc plot_sizes factors
            prestate n_tries max_it default_coords).
Abbreviation attempts :=
  (attempts refresh_Minv initialize_single encode_design model_enc plot_sizes factors
            prestate max_it default_coords).
Abbreviation attempt :=
  (attempt refresh_Minv initialize_single encode_design model_enc plot_sizes factors
           prestate max_it default_coords).

Lemma restarts_complete (fuel k : nat) (d : dstate (F := F) (Metric := Metric)) :
  done d = n_tries -> restarts fuel k d = (d, Finished).
Proof.
  intros Hd.
  assert (Hlt : Nat.ltb (done d) n_tries = false) by (apply Nat.ltb_ge; lia).
  destruct fuel; simpl; rewrite Hlt; reflexivity.
Qed.

Lemma attempts_step (fuel k : nat) (Y : list (list F)) :
  attempts (S fuel) k Y
  = snd (attempt k Y) :: attempts fuel (S k) (fst (attempt k Y)).
Proof. reflexivity. Qed.

Lemma restarts_step (fuel k : nat) (d : dstate (F := F) (Metric := Metric)) :
  restarts (S fuel) k d
  = if Nat.ltb (done d) n_tries then
      match attempt k (template d) with
      | (Y', Ret (Yo, m)) =>
          restarts fuel (S k)
            (mk_dstate (S (done d)) (set_metric (done d) m (metrics d))
                       (if metric_gt m (best_metric d) then m else best_metric d)
                       (if metric_gt m (best_metric d) then Some Yo else best_Y d)
                       Y' (EvCallback (S (done d)) :: EvAttempt k :: events d))
      | (Y', Raise e) =>
          if is_LinAlgError e then
            restarts fuel (S k)
              (mk_dstate (done d) (metrics d) (best_metric d) (best_Y d) Y'
                         (EvAttempt k :: events d))
          else
            (mk_dstate (done d) (metrics d) (best_metric d) (best_Y d) Y'
                       (EvAttempt k :: events d), Fatal e)
      end
    else (d, Finished).
Proof. reflexivity. Qed.

(** The loop in terms of the attempts that returned. *)
Lemma restarts_spec (fuel : nat) :
  forall k (d : dstate (F := F) (Metric := Metric)),
    done d <= n_tries ->
    length (metrics d) = n_tries ->
    Forall survivable (attempts fuel k (template d)) ->
    n_tries - done d <= length (successes (attempts fuel k (template d))) ->
    exists d',
      restarts fuel k d = (d', Finished)
      /\ done d' = n_tries
      /\ metrics d'
         = firstn (done d) (metrics d)
           ++ map snd (firstn (n_tries - done d)
                              (successes (attempts fuel k (template d))))
      /\ callbacks (rev (events d'))
         = callbacks (rev (events d)) ++ seq (S (done d)) (n_tries - done d)
      /\ (best_metric d', best_Y d')
         = fold_left track
                     (firstn (n_tries - done d)
                             (successes (attempts fuel k (template d))))
                     (best_metric d, best_Y d).
Proof.
  induction fuel as [|fuel IH]; intros k d Hle Hlen Hsurv Hsucc.
  - simpl in Hsucc.
    assert (Hd : done d = n_tries) by lia.
    exists d. rewrite restarts_complete by exact Hd.
    rewrite Hd, Nat.sub_diag. simpl.
    rewrite app_nil_r, app_nil_r, <- Hlen, firstn_all.
    repeat split; try reflexivity; try lia.
  - destruct (Nat.eq_dec (done d) n_tries) as [Hd|Hd].
    + exists d. rewrite restarts_complete by exact Hd.
      rewrite Hd, Nat.sub_diag. simpl.
      rewrite app_nil_r, app_nil_r, <- Hlen, firstn_all.
      repeat split; try reflexivity; try lia.
    + assert (Hlt : Nat.ltb (done d) n_tries = true) by (apply Nat.ltb_lt; lia).
      rewrite attempts_step in Hsurv, Hsucc |- *.
      rewrite restarts_step, Hlt.
      apply Forall_cons_iff in Hsurv. destruct Hsurv as [Ho Hos].
      destruct (attempt k (template d)) as [Y' r] eqn:Hatt.
      cbn [fst snd] in *.
      destruct r as [[Yo m]|e]; cbn [successes survivable] in *.
      * set (d1 := mk_dstate (S (done d)) (set_metric (done d) m (metrics d))
                             (if metric_gt m (best_metric d) then m else best_metric d)
                             (if metric_gt m (best_metric d) then Some Yo else best_Y d)
                             Y' (EvCallback (S (done d)) :: EvAttempt k :: events d)).
        destruct (IH (S k) d1) as [d' [Hrun [Hdone [Hms [Hcb Hbest]]]]].
        -- simpl. lia.
        -- simpl. rewrite set_metric_length by lia. exact Hlen.
        -- exact Hos.
        -- simpl in Hsucc |- *. lia.
        -- exists d'. split; [exact Hrun|]. split; [exact Hdone|].
           replace (n_tries - done d) with (S (n_tries - S (done d))) by lia.
           cbn [done metrics events best_metric best_Y template d1] in Hms, Hcb, Hbest.
           cbn [firstn map fold_left].
           split; [|split].
           ++ rewrite Hms. rewrite set_metric_prefix by lia.
              rewrite <- app_assoc. reflexivity.
           ++ rewrite Hcb. cbn [rev]. rewrite !callbacks_app. cbn [callbacks seq].
              rewrite <- !app_assoc. cbn [app]. reflexivity.
           ++ rewrite Hbest.
              change (track (best_metric d, best_Y d) (Yo, m))
                with (if metric_gt m (best_metric d) then (m, Some Yo)
                      else (best_metric d, best_Y d)).
              destruct (metric_gt m (best_metric d)); reflexivity.
      * rewrite Ho.
        set (d1 := mk_dstate (done d) (metrics d) (best_metric d) (best_Y d) Y'
                             (EvAttempt k :: events d)).
        destruct (IH (S k) d1) as [d' [Hrun [Hdone [Hms [Hcb Hbest]]]]];
          try assumption.
        exists d'. split; [exact Hrun|]. split; [exact Hdone|].
        cbn [done metrics events best_metric best_Y template d1] in Hms, Hcb, Hbest.
        split; [exact Hms|]. split; [|exact Hbest].
        rewrite Hcb. cbn [rev]. rewrite callbacks_app. cbn [callbacks].
        rewrite app_nil_r. reflexivity.
Qed.

(** The first failure that is no LinAlgError ends the loop, whatever
    the attempts before it did: they were all started, and the callback
    was called for those that returned. *)
Lemma restarts_first_fatal (fuel : nat) :
  forall k (d : dstate (F := F) (Metric := Metric)) pre post e,
    attempts fuel k (template d) = pre ++ Raise e :: post ->
    Forall survivable pre ->
    done d + length (successes pre) < n_tries ->
    is_LinAlgError e = false ->
    exists d',
      restarts fuel k d = (d', Fatal e)
      /\ started (rev (events d'))
         = started (rev (events d)) ++ seq k (S (length pre))
      /\ callbacks (rev (events d'))
         = callbacks (rev (events d)) ++ seq (S (done d)) (length (successes pre)).
Proof.
  induction fuel as [|fuel IH]; intros k d pre post e Hatt Hsurv Hlt He.
  - simpl in Hatt. destruct pre; discriminate.
  - rewrite attempts_step in Hatt. rewrite restarts_step.
    assert (Hlt' : Nat.ltb (done d) n_tries = true) by (apply Nat.ltb_lt; lia).
    rewrite Hlt'.
    destruct (attempt k (template d)) as [Y' r]. cbn [fst snd] in Hatt.
    destruct pre as [|o pre].
    + simpl in Hatt. inversion Hatt; subst. rewrite He.
      eexists. split; [reflexivity|]. cbn [events rev length successes seq].
      rewrite started_app, callbacks_app. cbn [started callbacks].
      split; reflexivity.
    + simpl in Hatt. inversion Hatt as [[Ho Hrest]]. subst o. clear Hatt.
      apply Forall_cons_iff in Hsurv. destruct Hsurv as [Ho Hpre].
      destruct r as [[Yo m]|e0]; cbn [successes survivable length] in *.
      * destruct (IH (S k)
                     (mk_dstate (S (done d)) (set_metric (done d) m (metrics d))
                                (if metric_gt m (best_metric d) then m else best_metric d)
                                (if metric_gt m (best_metric d) then Some Yo else best_Y d)
                                Y' (EvCallback (S (done d)) :: EvAttempt k :: events d))
                     pre post e Hrest Hpre) as [d' [Hrun [Hst Hcb]]];
          [cbn [done]; lia|exact He|].
        exists d'. split; [exact Hrun|].
        cbn [events done rev] in Hst, Hcb.
        rewrite !started_app in Hst. rewrite !callbacks_app in Hcb.
        cbn [started callbacks] in Hst, Hcb.
        rewrite app_nil_r in Hst, Hcb.
        split.
        -- rewrite Hst, <- app_assoc. reflexivity.
        -- rewrite Hcb, <- app_assoc. reflexivity.
      * rewrite Ho.
        destruct (IH (S k)
                     (mk_dstate (done d) (metrics d) (best_metric d) (best_Y d) Y'
                                (EvAttempt k :: events d))
                     pre post e Hrest Hpre) as [d' [Hrun [Hst Hcb]]];
          [cbn [done]; lia|exact He|].
        exists d'. split; [exact Hrun|].
        cbn [events done rev] in Hst, Hcb.
        rewrite started_app in Hst. rewrite callbacks_app in Hcb.
        cbn [started callbacks] in Hst, Hcb.
        rewrite app_nil_r in Hcb.
        split.
        -- rewrite Hst, <- app_assoc. reflexivity.
        -- exact Hcb.
Qed.

End RestartFacts.

(** ** The running best *)

Section BestFacts.
Context {F Metric : Type} {MO : MetricOps Metric}.

Hypothesis gt_irrefl : forall a : Metric, metric_gt a a = false.
Hypothesis gt_trans :
  forall a b c : Metric, metric_gt a b = true -> metric_gt b c = true -> metric_gt a c = true.

Lemma track_best (succs : list (list (list F) * Metric)) :
  forall bm bY,
    let best := fold_left track succs (bm, bY) in
    (forall r, In r succs -> metric_gt (snd r) (fst best) = false)
    /\ (fst best = bm \/ metric_gt (fst best) bm = true)
    /\ (best = (bm, bY)
        \/ exists j Yo, nth_error succs j = Some (Yo, fst best) /\ snd best = Some Yo).
Proof.
  induction succs as [|[Yo m] succs IH]; intros bm bY; cbv zeta.
  - simpl. split; [intros r []|]. split; [left; reflexivity|left; reflexivity].
  - cbn [fold_left].
    change (track (bm, bY) (Yo, m))
      with (if metric_gt m bm then (m, Some Yo) else (bm, bY)).
    destruct (metric_gt m bm) eqn:Hgt.
    + destruct (IH m (Some Yo)) as [Hmax [Hmono Hwho]].
      set (best := fold_left track succs (m, Some Yo)) in *.
      split; [|split].
      * intros r [Hr|Hr]; [|apply Hmax; exact Hr].
        subst r. cbn [snd].
        destruct Hmono as [Heq|Hup].
        -- rewrite Heq. apply gt_irrefl.
        -- destruct (metric_gt m (fst best)) eqn:Hm; [|reflexivity].
           rewrite <- (gt_irrefl m). symmetry.
           apply (gt_trans m (fst best) m); assumption.
      * right. destruct Hmono as [Heq|Hup].
        -- rewrite Heq. exact Hgt.
        -- apply (gt_trans (fst best) m bm); assumption.
      * right. destruct Hwho as [Heq|[j [Yb [Hj Hb]]]].
        -- exists 0, Yo. rewrite Heq. simpl. split; reflexivity.
        -- exists (S j), Yb. simpl. split; assumption.
    + destruct (IH bm bY) as [Hmax [Hmono Hwho]].
      set (best := fold_left track succs (bm, bY)) in *.
      split; [|split].
      * intros r [Hr|Hr]; [|apply Hmax; exact Hr].
        subst r. cbn [snd].
        destruct Hmono as [Heq|Hup].
        -- rewrite Heq. exact Hgt.
        -- destruct (metric_gt m (fst best)) eqn:Hm; [|reflexivity].
           rewrite <- Hgt. symmetry.
           apply (gt_trans m (fst best) bm); assumption.
      * exact Hmono.
      * destruct Hwho as [Heq|[j [Yb [Hj Hb]]]].
        -- left. exact Heq.
        -- right. exists (S j), Yb. simpl. split; assumption.
Qed.

End BestFacts.

Section DoeFacts.
Context {F UModel Pre St Metric Decoded : Type} {SF : Scalar F} {MO : MetricOps Metric}.
Context {optim : Optim F UModel Pre St Metric}.

Variable refresh_Minv : St -> list (list F) -> result St.
Variable encode_model : UModel -> list (nat * Z) -> list (list Z).
Variable initialize_single :
  nat -> list nat -> list (nat * Z) -> list (list F) ->
  option (list (list (list F))) -> list (list F) * list (list F).
Variable encode_design : list (list F) -> list (nat * Z) -> list (list F).
Variable decode_design : list (list F) -> list (nat * Z) -> Decoded.

Variable model : UModel.
Variable plot_sizes : list nat.
Variable factors : list (nat * Z).
Variables n_tries max_it : nat.
Variable default_coords : option (list (list (list F))).
Variable ratios : option (list F).
Variable fuel : nat.
Variable ratios' : list F.
Variable prestate : Pre.

Hypothesis ratios_ok : normalize_ratios plot_sizes ratios = Ret ratios'.
Hypothesis preinit_ok :
  preinit plot_sizes (model, encode_model model factors) factors ratios' = Ret prestate.

Abbreviation zeros := (repeat (repeat (F0 (F := F)) (length factors)) (np_prod plot_sizes)).
Abbreviation outs :=
  (attempts refresh_Minv initialize_single encode_design (encode_model model factors)
            plot_sizes factors prestate max_it default_coords fuel 0 zeros).
Abbreviation the_run :=
  (doe_run_of refresh_Minv encode_model initialize_single encode_design decode_design
              model plot_sizes factors n_tries max_it default_coords ratios fuel).

(** [doe] in terms of the attempts that returned. *)
Lemma doe_run_spec :
  Forall survivable outs ->
  n_tries <= length (successes outs) ->
  exists d,
    the_run
    = mk_doe_run (rev (events d))
                 (Some (match best_Y d with Some b => b | None => template d end))
                 (Returned (decode_design
                              (match best_Y d with Some b => b | None => template d end)
                              factors)
                           (map snd (firstn n_tries (successes outs))))
    /\ callbacks (rev (events d)) = seq 1 n_tries
    /\ (best_metric d, best_Y d)
       = fold_left track (firstn n_tries (successes outs)) (neg_inf, None).
Proof.
  intros Hsurv Hsucc.
  destruct (restarts_spec refresh_Minv initialize_single encode_design
                          (encode_model model factors) plot_sizes factors prestate
                          n_tries max_it default_coords fuel 0
                          (mk_dstate 0 (repeat metric_zero n_tries) neg_inf None zeros
                                     [EvPreinit]))
    as [d [Hrun [Hdone [Hms [Hcb Hbest]]]]].
  - simpl. lia.
  - simpl. apply repeat_length.
  - exact Hsurv.
  - simpl. lia.
  - cbn [done metrics events best_metric best_Y template] in Hms, Hcb, Hbest.
    rewrite Nat.sub_0_r in Hms, Hcb, Hbest. simpl in Hms, Hcb.
    exists d. split; [|split; assumption].
    unfold doe_run_of. rewrite ratios_ok, preinit_ok, Hrun, Hms. reflexivity.
Qed.

(** [doe] when an attempt fails for good. *)
Lemma doe_run_first_fatal (pre post : list (result (list (list F) * Metric))) (e : exn) :
  outs = pre ++ Raise e :: post ->
  Forall survivable pre ->
  length (successes pre) < n_tries ->
  is_LinAlgError e = false ->
  exists evs,
    the_run = mk_doe_run evs None (Raised e)
    /\ started evs = seq 0 (S (length pre))
    /\ callbacks evs = seq 1 (length (successes pre)).
Proof.
  intros Hatt Hsurv Hlt He.
  destruct (restarts_first_fatal refresh_Minv initialize_single encode_design
                                 (encode_model model factors) plot_sizes factors prestate
                                 n_tries max_it default_coords fuel 0
                                 (mk_dstate 0 (repeat metric_zero n_tries) neg_inf None zeros
                                            [EvPreinit]) pre post e Hatt Hsurv Hlt He)
    as [d' [Hrun [Hst Hcb]]].
  exists (rev (events d')).
  split; [|split; [exact Hst|exact Hcb]].
  unfold doe_run_of. rewrite ratios_ok, preinit_ok, Hrun. reflexivity.
Qed.

End DoeFacts.

(** C6.  Let the attempts examined either return or raise a
    LinAlgError, and let at least [n_tries] of them return.  Then [doe]
    returns; the metrics it returns are those of the first [n_tries]
    attempts that returned, in order, one slot each, so that a failed
    attempt records nothing and takes no slot; [it_callback] was called
    with 1, 2, ..., [n_tries], once per attempt that returned; and the
    best design is the running best, replaced only by a strictly
    greater metric. *)
Theorem doe_restart_loop
        {F UModel Pre St Metric Decoded : Type} {SF : Scalar F} {MO : MetricOps Metric}
        {optim : Optim F UModel Pre St Metric}
        (refresh_Minv : St -> list (list F) -> result St)
        (encode_model : UModel -> list (nat * Z) -> list (list Z))
        (initialize_single :
           nat -> list nat -> list (nat * Z) -> list (list F) ->
           option (list (list (list F))) -> list (list F) * list (list F))
        (encode_design : list (list F) -> list (nat * Z) -> list (list F))
        (decode_design : list (list F) -> list (nat * Z) -> Decoded)
        (model : UModel) (plot_sizes : list nat) (factors : list (nat * Z))
        (n_tries max_it : nat) (default_coords : option (list (list (list F))))
        (ratios : option (list F)) (fuel : nat) (ratios' : list F) (prestate : Pre) :
  normalize_ratios plot_sizes ratios = Ret ratios' ->
  preinit plot_sizes (model, encode_model model factors) factors ratios' = Ret prestate ->
  let outs := attempts refresh_Minv initialize_single encode_design
                       (encode_model model factors) plot_sizes factors prestate max_it
                       default_coords fuel 0
                       (repeat (repeat F0 (length factors)) (np_prod plot_sizes)) in
  let completed := firstn n_tries (successes outs) in
  let run := doe_run_of refresh_Minv encode_model initialize_single encode_design
                        decode_design model plot_sizes factors n_tries max_it
                        default_coords ratios fuel in
  Forall survivable outs ->
  n_tries <= length (successes outs) ->
  (exists best, doe_result run = Returned best (map snd completed))
  /\ length (map snd completed) = n_tries
  /\ callbacks (observed run) = seq 1 n_tries
  /\ (forall b, snd (fold_left track completed (neg_inf, None)) = Some b ->
                best_encoded run = Some b
                /\ doe_result run = Returned (decode_design b factors) (map snd completed)).
Proof.
  intros Hr Hp outs completed run Hsurv Hsucc.
  destruct (doe_run_spec refresh_Minv encode_model initialize_single encode_design
                         decode_design model plot_sizes factors n_tries max_it
                         default_coords ratios fuel ratios' prestate Hr Hp Hsurv Hsucc)
    as [d [Hrun [Hcb Hbest]]].
  assert (Hlen : length (map snd completed) = n_tries).
  { unfold completed. rewrite length_map, length_firstn. lia. }
  unfold run. rewrite Hrun. simpl.
  split; [eexists; reflexivity|].
  split; [exact Hlen|].
  split; [exact Hcb|].
  intros b Hb. unfold completed, outs in Hb. rewrite <- Hbest in Hb. simpl in Hb.
  rewrite Hb. split; reflexivity.
Qed.

(** C8, as the code has it.  Let [>] on metrics be irreflexive and
    transitive, as it is on doubles.  In a run of [doe] that completes
    its restarts, if the metric of some completed restart is strictly
    greater than [-inf], then the best design returned (before
    decoding) is the design of a completed restart, the metric recorded
    for that restart is exceeded by no recorded metric, and the metrics
    vector has [n_tries] entries. *)
Theorem doe_best_is_maximum
        {F UModel Pre St Metric Decoded : Type} {SF : Scalar F} {MO : MetricOps Metric}
        {optim : Optim F UModel Pre St Metric}
        (refresh_Minv : St -> list (list F) -> result St)
        (encode_model : UModel -> list (nat * Z) -> list (list Z))
        (initialize_single :
           nat -> list nat -> list (nat * Z) -> list (list F) ->
           option (list (list (list F))) -> list (list F) * list (list F))
        (encode_design : list (list F) -> list (nat * Z) -> list (list F))
        (decode_design : list (list F) -> list (nat * Z) -> Decoded)
        (model : UModel) (plot_sizes : list nat) (factors : list (nat * Z))
        (n_tries max_it : nat) (default_coords : option (list (list (list F))))
        (ratios : option (list F)) (fuel : nat) (ratios' : list F) (prestate : Pre) :
  (forall a : Metric, metric_gt a a = false) ->
  (forall a b c : Metric,
      metric_gt a b = true -> metric_gt b c = true -> metric_gt a c = true) ->
  normalize_ratios plot_sizes ratios = Ret ratios' ->
  preinit plot_sizes (model, encode_model model factors) factors ratios' = Ret prestate ->
  let outs := attempts refresh_Minv initialize_single encode_design
                       (encode_model model factors) plot_sizes factors prestate max_it
                       default_coords fuel 0
                       (repeat (repeat F0 (length factors)) (np_prod plot_sizes)) in
  let completed := firstn n_tries (successes outs) in
  let run := doe_run_of refresh_Minv encode_model initialize_single encode_design
                        decode_design model plot_sizes factors n_tries max_it
                        default_coords ratios fuel in
  Forall survivable outs ->
  n_tries <= length (successes outs) ->
  (exists r, In r completed /\ metric_gt (snd r) neg_inf = true) ->
  exists j Yb mb,
    nth_error completed j = Some (Yb, mb)
    /\ best_encoded run = Some Yb
    /\ doe_result run = Returned (decode_design Yb factors) (map snd completed)
    /\ nth_error (map snd completed) j = Some mb
    /\ (forall m, In m (map snd completed) -> metric_gt m mb = false)
    /\ length (map snd completed) = n_tries.
Proof.
  intros Hirr Htrans Hr Hp outs completed run Hsurv Hsucc [r [Hin Hgt]].
  destruct (doe_run_spec refresh_Minv encode_model initialize_single encode_design
                         decode_design model plot_sizes factors n_tries max_it
                         default_coords ratios fuel ratios' prestate Hr Hp Hsurv Hsucc)
    as [d [Hrun [Hcb Hbest]]].
  assert (Hlen : length (map snd completed) = n_tries).
  { unfold completed. rewrite length_map, length_firstn. lia. }
  fold outs in Hrun, Hbest. fold completed in Hrun, Hbest.
  destruct (track_best Hirr Htrans completed neg_inf None) as [Hmax [_ Hwho]].
  rewrite <- Hbest in Hmax, Hwho. simpl in Hmax, Hwho.
  destruct Hwho as [Heq|[j [Yb [Hj Hb]]]].
  - exfalso. inversion Heq as [[Hbm HbY]].
    pose proof (Hmax r Hin) as Hr0. rewrite Hbm, Hgt in Hr0. discriminate.
  - exists j, Yb, (best_metric d).
    split; [exact Hj|].
    unfold run. rewrite Hrun. simpl. rewrite Hb.
    split; [reflexivity|]. split; [reflexivity|].
    split; [|split].
    + rewrite nth_error_map, Hj. reflexivity.
    + intros m Hm. apply in_map_iff in Hm. destruct Hm as [r' [Hr' Hin']].
      subst m. apply Hmax. exact Hin'.
    + exact Hlen.
Qed.

(** C2, as the code has it.  A failure of [update] that is an Exception,
    numerical or not, never leaves [optimize]: [optimize] does what it
    does with the criterion whose [update] returns a rejection and the
    state it was given instead of raising.  A failure of [update] that
    is no Exception ends the scan of the block with that failure.  And
    [doe] passes on to its caller every failure of [optimize] other than
    a LinAlgError: whichever attempt it is that fails so, after attempts
    that returned or raised a LinAlgError and before [n_tries] attempts
    have returned, [doe] raises that failure. *)
Theorem update_failure_caught_or_fatal
        {F UModel Pre St Metric Decoded : Type} {SF : Scalar F} {MO : MetricOps Metric}
        (optim : Optim F UModel Pre St Metric)
        (refresh_Minv : St -> list (list F) -> result St) :
  (forall Y model plot_sizes factors prestate max_it col_start default_coords,
      optimize (optim := optim) refresh_Minv Y model plot_sizes factors prestate max_it
               col_start default_coords
      = optimize (optim := caught optim) refresh_Minv Y model plot_sizes factors prestate
                 max_it col_start default_coords)
  /\ (forall model i level grp r0 jmp col w init_coord best_coord new_coord rest
             (s : ostate (F := F) (St := St)) Y' Xi_star e,
        write_block r0 jmp col w new_coord (cur_Y s) = Ret Y' ->
        all_eq new_coord init_coord = false ->
        x2fx_2d (slice r0 jmp Y') model = Ret Xi_star ->
        update (Optim := optim) (cur_state s) (cur_X s) Xi_star level grp = Raise e ->
        is_Exception e = false ->
        scan_candidates (optim := optim) model i level grp r0 jmp col w init_coord
                        (new_coord :: rest) best_coord s
        = (candidate_written i new_coord Y' s, Raise e))
  /\ (forall (encode_model : UModel -> list (nat * Z) -> list (list Z))
             initialize_single encode_design (decode_design : _ -> _ -> Decoded)
             model plot_sizes factors n_tries max_it default_coords ratios fuel
             ratios' prestate pre post e,
        normalize_ratios plot_sizes ratios = Ret ratios' ->
        preinit (Optim := optim) plot_sizes (model, encode_model model factors) factors
                ratios' = Ret prestate ->
        attempts (optim := optim) refresh_Minv initialize_single encode_design
                 (encode_model model factors) plot_sizes factors prestate max_it
                 default_coords fuel 0
                 (repeat (repeat F0 (length factors)) (np_prod plot_sizes))
        = pre ++ Raise e :: post ->
        Forall survivable pre ->
        length (successes pre) < n_tries ->
        is_LinAlgError e = false ->
        doe (optim := optim) refresh_Minv encode_model initialize_single encode_design
            decode_design model plot_sizes factors n_tries max_it default_coords ratios
            fuel
        = Raised e).
Proof.
  split; [|split].
  - intros. unfold optimize. rewrite optimize_run_caught. reflexivity.
  - intros model i level grp r0 jmp col w init_coord best_coord new_coord rest
           s Y' Xi_star e Hw Hne Hx Hu He.
    simpl. unfold bind.
    rewrite (try_candidate_raise model i level grp r0 jmp col w init_coord best_coord
                                 new_coord s Y' Xi_star e Hw Hne Hx Hu).
    rewrite He. reflexivity.
  - intros encode_model initialize_single encode_design decode_design model plot_sizes
           factors n_tries max_it default_coords ratios fuel ratios' prestate pre post e
           Hr Hp Hatt Hsurv Hlt He.
    destruct (doe_run_first_fatal refresh_Minv encode_model initialize_single
                                  encode_design decode_design model plot_sizes factors
                                  n_tries max_it default_coords ratios fuel ratios'
                                  prestate Hr Hp pre post e Hatt Hsurv Hlt He)
      as [evs [Hrun _]].
    unfold doe. rewrite Hrun. reflexivity.
Qed.

(** ** Block sizes and block counts *)

Lemma np_prod_from (l : list nat) (a : nat) : fold_left Nat.mul l a = a * np_prod l.
Proof.
  unfold np_prod. revert a. induction l as [|x l IH]; intros a; simpl.
  - lia.
  - rewrite IH, (IH (x + 0)). lia.
Qed.

Lemma np_prod_cons (x : nat) (l : list nat) : np_prod (x :: l) = x * np_prod l.
Proof.
  unfold np_prod at 1. simpl. rewrite np_prod_from. lia.
Qed.

Lemma np_prod_app (a b : list nat) : np_prod (a ++ b) = np_prod a * np_prod b.
Proof.
  induction a as [|x a IH]; simpl.
  - change (np_prod []) with 1. lia.
  - rewrite !np_prod_cons, IH. lia.
Qed.

Lemma np_prod_rev (l : list nat) : np_prod (rev l) = np_prod l.
Proof.
  induction l as [|x l IH]; simpl.
  - reflexivity.
  - rewrite np_prod_app, !np_prod_cons, IH. change (np_prod []) with 1. lia.
Qed.

Lemma np_prod_pos (l : list nat) : Forall (fun p => 0 < p) l -> 0 < np_prod l.
Proof.
  induction 1 as [|x l Hx _ IH].
  - change (np_prod []) with 1. lia.
  - rewrite np_prod_cons. apply Nat.mul_pos_pos; assumption.
Qed.

Lemma cumprod_from_nth (l : list nat) :
  forall a k x,
    nth_error (cumprod_from a l) k = Some x -> x = a * np_prod (firstn (S k) l).
Proof.
  induction l as [|y l IH]; intros a k x H.
  - destruct k; discriminate.
  - destruct k as [|k]; simpl in H.
    + inversion H. change (firstn 1 (y :: l)) with [y].
      rewrite np_prod_cons. change (np_prod []) with 1. lia.
    + apply IH in H. rewrite H.
      change (firstn (S (S k)) (y :: l)) with (y :: firstn (S k) l).
      rewrite np_prod_cons. lia.
Qed.

Lemma cumprod_from_length (l : list nat) : forall a, length (cumprod_from a l) = length l.
Proof. induction l as [|y l IH]; intros a; simpl; [reflexivity|rewrite IH; reflexivity]. Qed.

(** [betas[level]] is the product of the plot sizes below the level. *)
Lemma betas_nth (plot_sizes : list nat) (level jmp : nat) :
  nth_error (cumprod (1 :: plot_sizes)) level = Some jmp ->
  jmp = np_prod (firstn level plot_sizes).
Proof.
  unfold cumprod. intros H. apply cumprod_from_nth in H.
  change (firstn (S level) (1 :: plot_sizes)) with (1 :: firstn level plot_sizes) in H.
  rewrite np_prod_cons in H. lia.
Qed.

(** [alphas[level]] is the product of the plot sizes from the level on. *)
Lemma alphas_nth (plot_sizes : list nat) (level n : nat) :
  nth_error (rev (cumprod (rev plot_sizes))) level = Some n ->
  level < length plot_sizes /\ n = np_prod (skipn level plot_sizes).
Proof.
  intros H. rewrite nth_error_rev in H.
  unfold cumprod in H. rewrite cumprod_from_length, length_rev in H.
  destruct (Nat.ltb level (length plot_sizes)) eqn:Hlt; [|discriminate].
  apply Nat.ltb_lt in Hlt. split; [exact Hlt|].
  apply cumprod_from_nth in H.
  replace (S (length plot_sizes - S level)) with (length plot_sizes - level) in H by lia.
  rewrite firstn_rev in H.
  replace (length plot_sizes - (length plot_sizes - level)) with level in H by lia.
  rewrite np_prod_rev in H. lia.
Qed.

Lemma alphas_betas_defined (plot_sizes : list nat) (level : nat) :
  level < length plot_sizes ->
  exists jmp n,
    nth_error (cumprod (1 :: plot_sizes)) level = Some jmp
    /\ nth_error (rev (cumprod (rev plot_sizes))) level = Some n.
Proof.
  intros Hlt.
  destruct (nth_error (cumprod (1 :: plot_sizes)) level) as [jmp|] eqn:Hb.
  - destruct (nth_error (rev (cumprod (rev plot_sizes))) level) as [n|] eqn:Ha.
    + exists jmp, n. split; reflexivity.
    + apply nth_error_None in Ha.
      unfold cumprod in Ha. rewrite length_rev, cumprod_from_length, length_rev in Ha. lia.
  - apply nth_error_None in Hb.
    unfold cumprod in Hb. rewrite cumprod_from_length in Hb. simpl in Hb. lia.
Qed.

(** The blocks of a level tile the runs. *)
Lemma block_in_range (plot_sizes : list nat) (level jmp n grp : nat) :
  Forall (fun p => 0 < p) plot_sizes ->
  nth_error (cumprod (1 :: plot_sizes)) level = Some jmp ->
  nth_error (rev (cumprod (rev plot_sizes))) level = Some n ->
  grp < n ->
  0 < jmp /\ grp * jmp + jmp <= np_prod plot_sizes.
Proof.
  intros Hpos Hb Ha Hgrp.
  apply betas_nth in Hb. apply alphas_nth in Ha. destruct Ha as [Hlt Hn].
  assert (Hprod : np_prod plot_sizes = jmp * n).
  { rewrite <- (firstn_skipn level plot_sizes) at 1.
    rewrite np_prod_app. subst. reflexivity. }
  assert (Hjmp : 0 < jmp).
  { subst jmp. apply np_prod_pos.
    apply Forall_forall. intros p Hp.
    rewrite Forall_forall in Hpos. apply Hpos.
    rewrite <- (firstn_skipn level plot_sizes). apply in_or_app. left. exact Hp. }
  split; [exact Hjmp|]. rewrite Hprod. nia.
Qed.

(** ** Assigning a block *)

Section BlockFacts.
Context {F : Type} {SF : Scalar F}.

Variables (Wd r0 jmp col w : nat).
Variable Y : list (list F).

Hypothesis rect : Forall (fun row : list F => length row = Wd) Y.
Hypothesis rows_in : r0 + jmp <= length Y.
Hypothesis cols_in : col + w <= Wd.

Lemma block_with_length (v : list F) : length (block_with r0 jmp col w v Y) = length Y.
Proof.
  unfold block_with. apply length_splice; [exact rows_in|].
  rewrite length_map. apply length_slice. exact rows_in.
Qed.

Lemma block_with_rect (v : list F) :
  length v = w -> Forall (fun row : list F => length row = Wd) (block_with r0 jmp col w v Y).
Proof.
  intros Hv. apply Forall_forall. intros row Hin.
  rewrite Forall_forall in rect.
  unfold block_with in Hin. apply In_splice in Hin. destruct Hin as [Hin|Hin].
  - apply rect. exact Hin.
  - apply in_map_iff in Hin. destruct Hin as [row0 [Hrow Hin0]]. subst row.
    apply In_slice in Hin0.
    rewrite length_splice; [apply rect; exact Hin0| |exact Hv].
    rewrite (rect row0 Hin0). exact cols_in.
Qed.

Lemma slice_block_with (v : list F) :
  slice r0 jmp (block_with r0 jmp col w v Y) = map (splice col w v) (slice r0 jmp Y).
Proof.
  unfold block_with. apply slice_splice; [lia|].
  rewrite length_map. apply length_slice. exact rows_in.
Qed.

Lemma block_with_block_with (v1 v2 : list F) :
  length v1 = w ->
  block_with r0 jmp col w v2 (block_with r0 jmp col w v1 Y) = block_with r0 jmp col w v2 Y.
Proof.
  intros Hv1. unfold block_with at 1. rewrite slice_block_with.
  unfold block_with at 1.
  rewrite splice_splice; [|lia|rewrite length_map; apply length_slice; exact rows_in].
  unfold block_with. f_equal.
  rewrite map_map. apply map_ext_in. intros row Hin.
  apply In_slice in Hin. rewrite Forall_forall in rect.
  apply splice_splice; [|exact Hv1].
  rewrite (rect row Hin). lia.
Qed.

Lemma block_with_constant :
  block_constant Y r0 jmp col w ->
  block_with r0 jmp col w (slice col w (nth r0 Y [])) Y = Y.
Proof.
  intros Hconst. unfold block_with.
  unfold block_constant in Hconst. rewrite Forall_forall in Hconst.
  assert (Hmap : map (splice col w (slice col w (nth r0 Y []))) (slice r0 jmp Y)
                 = slice r0 jmp Y).
  { rewrite <- (map_id (slice r0 jmp Y)) at 2.
    apply map_ext_in. intros row Hin.
    rewrite <- (Hconst row Hin). apply splice_slice_id. }
  rewrite Hmap. apply splice_slice_id.
Qed.

Lemma write_block_in_range (v : list F) :
  0 < length Y -> length v = w ->
  write_block r0 jmp col w v Y = Ret (block_with r0 jmp col w v Y).
Proof.
  intros Hne Hv. unfold write_block.
  assert (Hhd : length (hd [] Y) = Wd).
  { destruct Y as [|y Y0]; [simpl in Hne; lia|]. inversion rect; assumption. }
  rewrite length_slice by lia.
  rewrite Hv, Nat.eqb_refl. simpl. unfold block_with. do 2 f_equal.
  apply map_ext. intros row. unfold put_cols. rewrite Hv, Nat.eqb_refl. reflexivity.
Qed.

End BlockFacts.

(** ** A sweep that accepts nothing *)

Section ReturnFacts.
Context {F St : Type}.

Abbreviation ostate := (ostate (F := F) (St := St)).
Abbreviation M := (M (F := F) (St := St)).

Lemma returns_bind {A B : Type} (P : ostate -> Prop) (m : M A) (k : A -> M B)
      (Q1 : A -> ostate -> Prop) (Q2 : B -> ostate -> Prop) :
  returns P m Q1 -> (forall a, returns (Q1 a) (k a) Q2) -> returns P (bind m k) Q2.
Proof.
  intros Hm Hk s Hs. unfold bind.
  destruct (Hm s Hs) as [a [s' [Hrun Hq]]]. rewrite Hrun.
  apply (Hk a s' Hq).
Qed.

Lemma returns_weaken {A : Type} (P : ostate -> Prop) (m : M A)
      (Q Q' : A -> ostate -> Prop) :
  returns P m Q -> (forall a s, Q a s -> Q' a s) -> returns P m Q'.
Proof.
  intros Hm HQ s Hs. destruct (Hm s Hs) as [a [s' [Hrun Hq]]].
  exists a, s'. split; [exact Hrun|apply HQ; exact Hq].
Qed.

Lemma returns_index {A : Type} (P : ostate -> Prop) (l : list A) (n : nat) (a : A) :
  nth_error l n = Some a -> returns P (index l n) (fun a' s' => a' = a /\ P s').
Proof.
  intros Hn s Hs. unfold index. rewrite Hn.
  exists a, s. split; [reflexivity|split; [reflexivity|exact Hs]].
Qed.

Lemma returns_for_each {A : Type} (P : ostate -> Prop) (body : A -> M unit) (l : list A) :
  (forall a, In a l -> returns P (body a) (fun _ => P)) ->
  returns P (for_each body l) (fun _ => P).
Proof.
  induction l as [|a l IH]; intros Hbody; simpl.
  - intros s Hs. exists tt, s. split; [reflexivity|exact Hs].
  - eapply returns_bind.
    + apply Hbody. left; reflexivity.
    + intros u. apply IH. intros b Hb. apply Hbody. right; exact Hb.
Qed.

End ReturnFacts.

Section QuietSweep.
Context {F UModel Pre St Metric : Type} {SF : Scalar F}.
Context {optim : Optim F UModel Pre St Metric}.

Variable refresh_Minv : St -> list (list F) -> result St.
Variable model : list (list Z).
Variable plot_sizes : list nat.
Variable factors : list (nat * Z).
Variable col_start : list nat.
Variable coords : list (list (list F)).
Variable Wd : nat.
Variables Y X : list (list F).
Variable Inv : St -> Prop.

Hypothesis shapes : shapes_agree Wd Y model plot_sizes factors col_start coords.
Hypothesis spec : model_spec model.
Hypothesis constant : blocks_constant Y plot_sizes factors col_start coords.
Hypothesis quiet :
  no_improving_candidate optim Inv Y X model plot_sizes factors col_start coords.

Abbreviation alphas := (rev (cumprod (rev plot_sizes))).
Abbreviation betas := (cumprod (1 :: plot_sizes)).

(** Between two blocks, and within the scan of a block, of a sweep in
    which nothing was accepted so far: [X] and the state are those of
    the local optimum. *)
Abbreviation resting n :=
  (fun s : ostate => at_rest Y n s /\ cur_X s = X /\ Inv (cur_state s)).
Abbreviation scanning_quietly r0 jmp col w n :=
  (fun s : ostate => in_scan Y r0 jmp col w n s /\ cur_X s = X /\ Inv (cur_state s)).

Section OneBlock.
Variables (i jmp n_groups col grp n : nat).
Variable factor : nat * Z.
Variable cs : list (list F).

Hypothesis the_factor : nth_error factors i = Some factor.
Hypothesis the_jmp : nth_error betas (fst factor) = Some jmp.
Hypothesis the_groups : nth_error alphas (fst factor) = Some n_groups.
Hypothesis the_col : nth_error col_start i = Some col.
Hypothesis the_coords : nth_error coords i = Some cs.
Hypothesis the_grp : grp < n_groups.
Hypothesis rows_in : grp * jmp + jmp <= length Y.
Hypothesis rows_some : 0 < length Y.
Hypothesis cols_in : col + width cs <= Wd.

Lemma returns_try_candidate (best_coord new_coord : list F) :
  In new_coord cs ->
  length new_coord = width cs ->
  returns (scanning_quietly (grp * jmp) jmp col (width cs) n)
          (try_candidate model i (fst factor) grp (grp * jmp) jmp col (width cs)
                         (slice col (width cs) (nth (grp * jmp) Y []))
                         best_coord new_coord)
          (fun b s' => b = best_coord
                       /\ scanning_quietly (grp * jmp) jmp col (width cs) n s').
Proof.
  intros Hin Hnew s [[[v [Hv HY]] [Hu Hs]] [HX HI]].
  destruct shapes as [Hrect _].
  assert (Hw : write_block (grp * jmp) jmp col (width cs) new_coord (cur_Y s)
               = Ret (block_with (grp * jmp) jmp col (width cs) new_coord Y)).
  { rewrite HY.
    rewrite (write_block_in_range Wd (grp * jmp) jmp col (width cs)
                                  (block_with (grp * jmp) jmp col (width cs) v Y)).
    - rewrite (block_with_block_with Wd (grp * jmp) jmp col (width cs) Y) by assumption.
      reflexivity.
    - apply (block_with_rect Wd); assumption.
    - rewrite (block_with_length (grp * jmp) jmp col (width cs) Y) by assumption.
      exact rows_in.
    - exact cols_in.
    - rewrite (block_with_length (grp * jmp) jmp col (width cs) Y) by assumption.
      exact rows_some.
    - exact Hnew. }
  unfold try_candidate, bind, assign_block. rewrite Hw.
  set (s1 := mk_ostate (block_with (grp * jmp) jmp col (width cs) new_coord Y)
                       (cur_X s) (cur_state s)
                       (updated s) ((i, new_coord) :: writes s) (sweeps s)).
  assert (Hs1 : forall st', Inv st' ->
             scanning_quietly (grp * jmp) jmp col (width cs) n
               (mk_ostate (cur_Y s1) (cur_X s1) st' (updated s1) (writes s1) (sweeps s1))).
  { intros st' Hst'. split; [|split; [exact HX|exact Hst']].
    split; [exists new_coord; split; [exact Hnew|reflexivity]|].
    split; assumption. }
  destruct (all_eq new_coord (slice col (width cs) (nth (grp * jmp) Y []))) eqn:Hsame.
  - exists best_coord, s1. split; [reflexivity|]. split; [reflexivity|].
    apply (Hs1 (cur_state s)). exact HI.
  - cbn [cur_Y s1].
    destruct (x2fx_2d_returns
                model
                (slice (grp * jmp) jmp
                       (block_with (grp * jmp) jmp col (width cs) new_coord Y)) spec)
      as [Xi HXi].
    rewrite HXi. cbn [cur_state cur_X s1].
    pose proof (quiet i factor col cs jmp n_groups grp new_coord Xi (cur_state s)
                      the_factor the_col the_coords the_jmp the_groups the_grp
                      Hin Hsame HXi HI) as Hq.
    rewrite <- HX in Hq.
    destruct (update (cur_state s) (cur_X s) Xi (fst factor) grp) as [[accept st']|e].
    + destruct Hq as [Hacc Hst']. subst accept.
      eexists best_coord, _. split; [reflexivity|]. split; [reflexivity|].
      apply (Hs1 st'). exact Hst'.
    + rewrite Hq.
      exists best_coord, s1. split; [reflexivity|]. split; [reflexivity|].
      apply (Hs1 (cur_state s)). exact HI.
Qed.

Lemma returns_scan_candidates (cands : list (list F)) (best_coord : list F) :
  Forall (fun c => In c cs /\ length c = width cs) cands ->
  returns (scanning_quietly (grp * jmp) jmp col (width cs) n)
          (scan_candidates model i (fst factor) grp (grp * jmp) jmp col (width cs)
                           (slice col (width cs) (nth (grp * jmp) Y []))
                           cands best_coord)
          (fun b s' => b = best_coord
                       /\ scanning_quietly (grp * jmp) jmp col (width cs) n s').
Proof.
  induction 1 as [|c cands [Hin Hc] _ IH]; simpl.
  - intros s Hs. exists best_coord, s. split; [reflexivity|split; [reflexivity|exact Hs]].
  - eapply returns_bind.
    + apply returns_try_candidate; assumption.
    + intros b s [Hb Hs]. subst b. apply IH. exact Hs.
Qed.

End OneBlock.

Lemma enumerate_nth {A : Type} (l : list A) :
  forall a i (x : A),
    In (i, x) (combine (seq a (length l)) l) -> a <= i /\ nth_error l (i - a) = Some x.
Proof.
  induction l as [|y l IH]; intros a i x Hin; simpl in Hin.
  - contradiction.
  - destruct Hin as [Heq|Hin].
    + inversion Heq; subst. rewrite Nat.sub_diag. split; [lia|reflexivity].
    + apply IH in Hin. destruct Hin as [Hle Hnth].
      split; [lia|].
      replace (i - a) with (S (i - S a)) by lia. exact Hnth.
Qed.

Lemma returns_scan_block (i : nat) (factor : nat * Z) (jmp n_groups col grp n : nat) :
  nth_error factors i = Some factor ->
  nth_error betas (fst factor) = Some jmp ->
  nth_error alphas (fst factor) = Some n_groups ->
  nth_error col_start i = Some col ->
  grp < n_groups ->
  returns (resting n) (scan_block model coords i (fst factor) jmp col grp)
          (fun _ => resting n).
Proof.
  intros Hfac Hjmp Hn Hcol Hgrp s [[HY [Hu Hs]] [HX HI]].
  destruct shapes as [Hrect [Hpos [Hlen [Hmodel Hfactors]]]].
  destruct (Hfactors i factor Hfac) as [Hlevel [col' [cs [Hcol' [Hcs [Hfit Hcslen]]]]]].
  rewrite Hcol in Hcol'. inversion Hcol'; subst col'. clear Hcol'.
  destruct (block_in_range plot_sizes (fst factor) jmp n_groups grp Hpos Hjmp Hn Hgrp)
    as [Hjpos Hrange].
  rewrite <- Hlen in Hrange.
  assert (Hsome : 0 < length Y) by lia.
  assert (Hconst : block_constant Y (grp * jmp) jmp col (width cs)).
  { apply (constant i factor col cs jmp n_groups grp); assumption. }
  destruct (nth_error Y (grp * jmp)) as [row0|] eqn:Hrow0;
    [|apply nth_error_None in Hrow0; lia].
  assert (Hnth : nth (grp * jmp) Y [] = row0) by (apply nth_error_nth; exact Hrow0).
  assert (Hrow0len : length row0 = Wd).
  { rewrite Forall_forall in Hrect. apply Hrect. eapply nth_error_In; exact Hrow0. }
  assert (Hinit : length (slice col (width cs) row0) = width cs).
  { apply length_slice. lia. }
  assert (Hcands : Forall (fun c => In c cs /\ length c = width cs) cs).
  { apply Forall_forall. intros c Hc. split; [exact Hc|].
    rewrite Forall_forall in Hcslen. apply Hcslen. exact Hc. }
  unfold scan_block, bind, index. rewrite Hcs. unfold ret.
  rewrite HY, Hrow0.
  pose proof (returns_scan_candidates i jmp n_groups col grp n factor cs
                Hfac Hjmp Hn Hcol Hcs Hgrp Hrange Hsome Hfit cs
                (slice col (width cs) row0) Hcands s) as Hscan.
  rewrite Hnth in Hscan.
  destruct Hscan as [b [s' [Hrun [Hb Hs']]]].
  { split; [|split; assumption].
    split; [|split; assumption].
    exists (slice col (width cs) row0). split; [exact Hinit|].
    rewrite HY, <- Hnth. symmetry.
    apply (block_with_constant (grp * jmp) jmp col (width cs) Y). exact Hconst. }
  rewrite Hrun. subst b.
  destruct Hs' as [[[v [Hv HYs']] [Hu' Hsw']] [HX' HI']].
  unfold assign_block. rewrite HYs'.
  rewrite (write_block_in_range Wd (grp * jmp) jmp col (width cs)
                                (block_with (grp * jmp) jmp col (width cs) v Y)).
  - rewrite (block_with_block_with Wd (grp * jmp) jmp col (width cs) Y) by assumption.
    rewrite <- Hnth.
    rewrite (block_with_constant (grp * jmp) jmp col (width cs) Y) by exact Hconst.
    eexists tt, _. split; [reflexivity|].
    split; [|split; assumption].
    split; [reflexivity|]. split; assumption.
  - apply (block_with_rect Wd); assumption.
  - rewrite (block_with_length (grp * jmp) jmp col (width cs) Y) by assumption.
    exact Hrange.
  - exact Hfit.
  - rewrite (block_with_length (grp * jmp) jmp col (width cs) Y) by assumption.
    exact Hsome.
  - exact Hinit.
Qed.

Lemma returns_scan_factor (ifactor : nat * (nat * Z)) (n : nat) :
  In ifactor (enumerate factors) ->
  returns (resting n) (scan_factor model alphas betas col_start coords ifactor)
          (fun _ => resting n).
Proof.
  destruct ifactor as [i factor]. intros Hin.
  unfold enumerate in Hin. apply enumerate_nth in Hin.
  destruct Hin as [_ Hfac]. rewrite Nat.sub_0_r in Hfac.
  destruct shapes as [_ [_ [_ [_ Hfactors]]]].
  destruct (Hfactors i factor Hfac) as [Hlevel [col [cs [Hcol _]]]].
  destruct (alphas_betas_defined plot_sizes (fst factor) Hlevel)
    as [jmp [n_groups [Hjmp Hn]]].
  intros s Hs.
  unfold scan_factor, bind, index, ret. cbn [fst snd].
  rewrite Hjmp. cbv beta iota.
  rewrite Hcol. cbv beta iota.
  rewrite Hn. cbv beta iota.
  apply (returns_for_each (resting n)); [|exact Hs].
  intros grp Hgrp. apply in_seq in Hgrp.
  apply (returns_scan_block i factor jmp n_groups col grp n); try assumption. lia.
Qed.

Lemma returns_sweep (n : nat) :
  returns (fun s => cur_Y s = Y /\ sweeps s = n /\ cur_X s = X /\ Inv (cur_state s))
          (sweep model alphas betas col_start coords factors)
          (fun _ => resting (S n)).
Proof.
  intros s [HY [Hs [HX HI]]]. unfold sweep.
  apply (returns_for_each (resting (S n))).
  - intros ifactor Hin. apply returns_scan_factor. exact Hin.
  - split; [|split; assumption].
    split; [exact HY|]. split; [reflexivity|]. simpl. rewrite Hs. reflexivity.
Qed.

Lemma iterate_one_sweep (max_it : nat) (s : ostate) :
  1 <= max_it ->
  cur_Y s = Y -> sweeps s = 0 -> cur_X s = X -> Inv (cur_state s) ->
  exists s',
    iterate refresh_Minv model alphas betas col_start coords factors max_it s
    = (s', Ret tt)
    /\ resting 1 s'.
Proof.
  intros Hmax HY Hs HX HI.
  destruct max_it as [|k]; [lia|]. simpl. unfold bind.
  destruct (returns_sweep 0 s (conj HY (conj Hs (conj HX HI)))) as [u [s' [Hrun Hrest]]].
  rewrite Hrun.
  destruct Hrest as [[HY' [Hu' Hs']] HXI]. rewrite Hu'.
  exists s'. split; [reflexivity|]. split; [|exact HXI].
  split; [exact HY'|]. split; assumption.
Qed.

End QuietSweep.

(** C7, as the code has it.  Let the shapes agree, let the model be a
    ModelSpec, and let every block of [Y] be constant: the rows of a
    block of a factor carry, in the factor's columns, the coordinate of
    the block's first row.  Let [X] be the model matrix of [Y] and
    [init] return a state.  If no improving candidate exists at [Y]
    (in the states the sweep goes through, [update] accepts no exchange
    of a block of [Y] for another coordinate), [metric] returns in
    those states and [max_it] is at least 1, then [optimize] makes
    exactly one sweep, which leaves [updated] False, and returns the
    design [Y] it was given. *)
Theorem optimize_no_improvement_one_sweep
        {F UModel Pre St Metric : Type} {SF : Scalar F}
        {optim : Optim F UModel Pre St Metric}
        (refresh_Minv : St -> list (list F) -> result St)
        (Y : list (list F)) (model : list (list Z)) (plot_sizes : list nat)
        (factors : list (nat * Z)) (prestate : Pre) (max_it : nat)
        (col_start : option (list nat))
        (default_coords : option (list (list (list F)))) (Wd : nat)
        (X : list (list F)) (state : St) (Inv : St -> Prop) :
  shapes_agree Wd Y model plot_sizes factors (col_start_of factors col_start)
               (possible_coords_of factors default_coords) ->
  model_spec model ->
  blocks_constant Y plot_sizes factors (col_start_of factors col_start)
                  (possible_coords_of factors default_coords) ->
  x2fx_2d Y model = Ret X ->
  init prestate Y X = Ret state ->
  Inv state ->
  no_improving_candidate optim Inv Y X model plot_sizes factors
                         (col_start_of factors col_start)
                         (possible_coords_of factors default_coords) ->
  (forall st, Inv st -> exists m, metric st Y X = Ret m) ->
  1 <= max_it ->
  let r := optimize_run refresh_Minv Y model plot_sizes factors prestate max_it
                        col_start default_coords in
  (exists m, outcome r = Ret (Y, m))
  /\ final_Y r = Y
  /\ final_updated r = false
  /\ n_sweeps r = 1.
Proof.
  intros Hshape Hspec Hconst HX Hinit HI Hquiet Hmetric Hmax.
  unfold optimize_run.
  rewrite HX, Hinit.
  rewrite np_concatenate_tuple.
  destruct (iterate_one_sweep refresh_Minv model plot_sizes factors
                              (col_start_of factors col_start)
                              (possible_coords_of factors default_coords) Wd Y X Inv
                              Hshape Hspec Hconst Hquiet max_it
                              (mk_ostate Y X state false [] 0) Hmax
                              eq_refl eq_refl eq_refl HI)
    as [s' [Hrun [[HY [Hu Hs]] [HX' HI']]]].
  rewrite Hrun. cbv zeta. cbn [final_Y final_updated n_sweeps outcome].
  rewrite HY, Hu, Hs, HX'.
  destruct (Hmetric (cur_state s') HI') as [m Hm]. rewrite Hm.
  split; [exists m; reflexivity|]. repeat split.
Qed.

(** ** The properties on small designs *)

Section ToyFacts.
Import Toy.

Lemma xgt_irrefl (a : xfloat) : xgt a a = false.
Proof. destruct a; simpl; try reflexivity. apply Z.ltb_irrefl. Qed.

Lemma xgt_trans (a b c : xfloat) : xgt a b = true -> xgt b c = true -> xgt a c = true.
Proof.
  destruct a, b, c; simpl; intros H1 H2; try discriminate; try reflexivity.
  apply Z.ltb_lt in H1, H2. apply Z.ltb_lt. lia.
Qed.

Lemma never_never_accepts : never_accepts never.
Proof. intros s X Xi level grp. reflexivity. Qed.

End ToyFacts.

(** One run over a continuous factor at level 0 and a continuous factor
    at level 1, two plots of two runs, and one over a continuous and a
    three-level factor. *)
Example optimize_two_levels :
  let r := optimize_run (optim := Toy.never) Toy.keep_Minv
                        [[1; 0]; [-1; 0]; [0; 1]; [1; 1]]%Z [[1; 0]; [0; 1]]%Z [2; 2]
                        [(0, 1%Z); (1, 1%Z)] tt 10 None None in
  outcome r = Ret ([[1; 0]; [-1; 0]; [0; 1]; [1; 1]]%Z, Toy.Fin 0)
  /\ n_sweeps r = 1
  /\ length (all_writes r) = 24.
Proof. vm_compute. repeat split. Qed.

Example optimize_mixed_factors :
  let r := optimize_run (optim := Toy.accepting [[-1; 0; 1]]%Z) Toy.keep_Minv
                        [[0; 0; 1]]%Z [[1; 0; 0]; [0; 1; 0]; [0; 0; 1]]%Z [1]
                        [(0, 1%Z); (0, 3%Z)] tt 10 None None in
  outcome r = Ret ([[-1; 0; 1]]%Z, Toy.Fin 8)
  /\ n_sweeps r = 2
  /\ map snd (all_writes r)
     = [[0; 1]; [-1; -1]; [0; 1]; [1; 0]; [-1]; [1]; [0]; [-1];
        [0; 1]; [-1; -1]; [0; 1]; [1; 0]; [-1]; [1]; [0]; [-1]]%Z.
Proof. vm_compute. repeat split. Qed.

Lemma optimize_closed_search_space_witness :
  valid_point 3 [0; 1; 3]
              [[[-1]; [0]; [1]]; [[1; 0]; [0; 1]; [-1; -1]]]%Z [[0; 0; 1]]%Z
  /\ valid_point 3 [0; 1; 3]
                 [[[-1]; [0]; [1]]; [[1; 0]; [0; 1]; [-1; -1]]]%Z [[-1; 0; 1]]%Z
  /\ Forall (member_write [[[-1]; [0]; [1]]; [[1; 0]; [0; 1]; [-1; -1]]]%Z)
            (all_writes
               (optimize_run (optim := Toy.accepting [[-1; 0; 1]]%Z) Toy.keep_Minv
                             [[0; 0; 1]]%Z [[1; 0; 0]; [0; 1; 0]; [0; 0; 1]]%Z [1]
                             [(0, 1%Z); (0, 3%Z)] tt 10 None None)).
Proof.
  assert (Hvalid : valid_point 3 [0; 1; 3]
                     [[[-1]; [0]; [1]]; [[1; 0]; [0; 1]; [-1; -1]]]%Z [[0; 0; 1]]%Z).
  { split; [repeat constructor|]. split; [|split].
    - intros i cs col Hcs Hcol.
      destruct i as [|[|i]]; simpl in Hcs, Hcol.
      + inversion Hcs; inversion Hcol; subst.
        split; [unfold width; simpl; lia|repeat constructor].
      + inversion Hcs; inversion Hcol; subst.
        split; [unfold width; simpl; lia|repeat constructor].
      + destruct i; discriminate.
    - intros i k cs ck col colk Hik Hcs Hcol Hck Hcolk.
      destruct i as [|[|i]]; simpl in Hcs, Hcol; try (destruct i; discriminate);
        destruct k as [|[|k]]; simpl in Hck, Hcolk; try (destruct k; discriminate);
          try (exfalso; apply Hik; reflexivity);
          inversion Hcs; inversion Hcol; inversion Hck; inversion Hcolk; subst;
            unfold width; simpl; lia.
    - intros row i cs col [Hrow|[]] Hcs Hcol. subst row.
      destruct i as [|[|i]]; simpl in Hcs, Hcol.
      + inversion Hcs; inversion Hcol; subst. unfold width, slice. simpl. auto.
      + inversion Hcs; inversion Hcol; subst. unfold width, slice. simpl. auto.
      + destruct i; discriminate. }
  split; [exact Hvalid|].
  destruct (optimize_closed_search_space
              (SF := Scalar_Z) (optim := Toy.accepting [[-1; 0; 1]]%Z) Toy.keep_Minv
              [[0; 0; 1]]%Z [[1; 0; 0]; [0; 1; 0]; [0; 0; 1]]%Z [1]
              [(0, 1%Z); (0, 3%Z)] tt 10 None None 3 Hvalid) as [Hv [Hw _]].
  split; [exact Hv|exact Hw].
Defined.

Lemma optimize_candidate_failure_rejected_witness :
  let s := mk_ostate [[0]]%Z [[0]]%Z 0 false [] 1 in
  let s' := mk_ostate [[-1]]%Z [[0]]%Z 0 false [(0, [-1]%Z)] 1 in
  try_candidate (optim := Toy.raising LinAlgError) [[1]]%Z 0 0 0 0 1 0 1
                [0]%Z [0]%Z [-1]%Z s
  = (s', Ret [0]%Z)
  /\ scan_candidates (optim := Toy.raising LinAlgError) [[1]]%Z 0 0 0 0 1 0 1
                     [0]%Z [[-1]; [0]; [1]]%Z [0]%Z s
     = scan_candidates (optim := Toy.raising LinAlgError) [[1]]%Z 0 0 0 0 1 0 1
                       [0]%Z [[0]; [1]]%Z [0]%Z s'.
Proof.
  intros s s'.
  apply (optimize_candidate_failure_rejected
           (optim := Toy.raising LinAlgError) [[1]]%Z 0 0 0 0 1 0 1
           [0]%Z [0]%Z [-1]%Z [[0]; [1]]%Z s [[-1]]%Z [[-1]]%Z LinAlgError);
    reflexivity.
Defined.

(** C2 as stated fails: a criterion whose [update] raises an error that
    is no LinAlgError on every call; [doe] returns. *)
Lemma criterion_error_not_fatal :
  (forall s X Xi level grp,
      update (Optim := Toy.raising (CriterionError 7)) s X Xi level grp
      = Raise (CriterionError 7))
  /\ is_LinAlgError (CriterionError 7) = false
  /\ doe (optim := Toy.raising (CriterionError 7)) Toy.keep_Minv Toy.encode_model_id
         (Toy.initialize_to [[0]]%Z) Toy.encode_continuous Toy.decode_id
         [[1]]%Z [1] [(0, 1%Z)] 1 10 None None 3
     = Returned [[0]]%Z [Toy.Fin 0].
Proof.
  split; [intros; reflexivity|]. split; [reflexivity|]. vm_compute. reflexivity.
Qed.

Lemma update_failure_caught_or_fatal_witness :
  optimize (optim := Toy.raising (CriterionError 7)) Toy.keep_Minv
           [[0]]%Z [[1]]%Z [1] [(0, 1%Z)] tt 10 None None
  = optimize (optim := caught (Toy.raising (CriterionError 7))) Toy.keep_Minv
             [[0]]%Z [[1]]%Z [1] [(0, 1%Z)] tt 10 None None
  /\ scan_candidates (optim := Toy.raising KeyboardInterrupt) [[1]]%Z 0 0 0 0 1 0 1
                     [0]%Z [[-1]; [0]; [1]]%Z [0]%Z
                     (mk_ostate [[0]]%Z [[0]]%Z 0 false [] 1)
     = (mk_ostate [[-1]]%Z [[0]]%Z 0 false [(0, [-1]%Z)] 1, Raise KeyboardInterrupt)
  /\ attempts (optim := Toy.interrupted_at [[1]]%Z) Toy.keep_Minv
              (Toy.initialize_from [[[1]]; [[0]]; [[-1]]]%Z) Toy.encode_continuous
              [[1]]%Z [1] [(0, 1%Z)] tt 10 None 3 0 [[0]]%Z
     = [Ret ([[1]]%Z, Toy.Fin 2); Raise LinAlgError; Raise KeyboardInterrupt]
  /\ doe (optim := Toy.interrupted_at [[1]]%Z) Toy.keep_Minv Toy.encode_model_id
         (Toy.initialize_from [[[1]]; [[0]]; [[-1]]]%Z) Toy.encode_continuous
         Toy.decode_id [[1]]%Z [1] [(0, 1%Z)] 2 10 None None 3
     = Raised KeyboardInterrupt.
Proof.
  split; [|split; [|split]].
  - destruct (update_failure_caught_or_fatal
                (Decoded := list (list Z)) (Toy.raising (CriterionError 7)) Toy.keep_Minv)
      as [H _].
    apply H.
  - destruct (update_failure_caught_or_fatal
                (Decoded := list (list Z)) (Toy.raising KeyboardInterrupt) Toy.keep_Minv)
      as [_ [H _]].
    apply (H [[1]]%Z 0 0 0 0 1 0 1 [0]%Z [0]%Z [-1]%Z [[0]; [1]]%Z
             (mk_ostate [[0]]%Z [[0]]%Z 0 false [] 1) [[-1]]%Z [[-1]]%Z KeyboardInterrupt);
      reflexivity.
  - vm_compute. reflexivity.
  - destruct (update_failure_caught_or_fatal
                (Decoded := list (list Z)) (Toy.interrupted_at [[1]]%Z) Toy.keep_Minv)
      as [_ [_ H]].
    apply (H Toy.encode_model_id (Toy.initialize_from [[[1]]; [[0]]; [[-1]]]%Z)
             Toy.encode_continuous Toy.decode_id [[1]]%Z [1] [(0, 1%Z)] 2 10 None None 3
             [1%Z] tt [Ret ([[1]]%Z, Toy.Fin 2); Raise LinAlgError] []
             KeyboardInterrupt).
    + reflexivity.
    + reflexivity.
    + vm_compute. reflexivity.
    + repeat constructor.
    + simpl. lia.
    + reflexivity.
Defined.

Lemma doe_restart_loop_witness :
  let run := doe_run_of (optim := Toy.accepting [[0]]%Z) Toy.singular_at_zero
                        Toy.encode_model_id
                        (Toy.initialize_from [[[1]]; [[0]]; [[1]]; [[0]]]%Z)
                        Toy.encode_continuous Toy.decode_id
                        [[1]]%Z [1] [(0, 1%Z)] 2 10 None None 4 in
  (exists best, doe_result run = Returned best [Toy.Fin 2; Toy.Fin 2])
  /\ callbacks (observed run) = [1; 2]
  /\ started (observed run) = [0; 1; 2; 3].
Proof.
  intros run.
  destruct (doe_restart_loop
              (optim := Toy.accepting [[0]]%Z) Toy.singular_at_zero Toy.encode_model_id
              (Toy.initialize_from [[[1]]; [[0]]; [[1]]; [[0]]]%Z)
              Toy.encode_continuous Toy.decode_id
              [[1]]%Z [1] [(0, 1%Z)] 2 10 None None 4 [1%Z] tt)
    as [Hres [_ [Hcb _]]].
  - reflexivity.
  - reflexivity.
  - vm_compute. repeat constructor.
  - vm_compute. repeat constructor.
  - split; [exact Hres|]. split; [exact Hcb|]. vm_compute. reflexivity.
Defined.

(** C8 as stated fails: one restart completes, with metric [-inf]; the
    best design returned is the template the initializer filled, not the
    encoded design of the restart. *)
Lemma doe_best_not_a_completed_design :
  let outs := attempts (optim := Toy.hopeless) Toy.keep_Minv
                       (Toy.initialize_to [[0]]%Z) Toy.encode_three_level
                       [[1; 0]; [0; 1]]%Z [1] [(0, 3%Z)] tt 10 None 3 0 [[0]]%Z in
  let completed := firstn 1 (successes outs) in
  let run := doe_run_of (optim := Toy.hopeless) Toy.keep_Minv Toy.encode_model_id
                        (Toy.initialize_to [[0]]%Z) Toy.encode_three_level Toy.decode_id
                        [[1; 0]; [0; 1]]%Z [1] [(0, 3%Z)] 1 10 None None 3 in
  completed = [([[1; 0]]%Z, Toy.NegInf)]
  /\ doe_result run = Returned [[0]]%Z [Toy.NegInf]
  /\ best_encoded run = Some [[0]]%Z
  /\ ~ (exists j Yb mb,
          nth_error completed j = Some (Yb, mb) /\ best_encoded run = Some Yb).
Proof.
  vm_compute. split; [reflexivity|]. split; [reflexivity|]. split; [reflexivity|].
  intros [j [Yb [mb [Hj Hb]]]].
  destruct j as [|j].
  - inversion Hj; subst. discriminate Hb.
  - destruct j; discriminate Hj.
Qed.

Lemma doe_best_is_maximum_witness :
  let outs := attempts (optim := Toy.accepting [[0]]%Z) Toy.singular_at_zero
                       (Toy.initialize_from [[[1]]; [[0]]; [[1]]; [[0]]]%Z)
                       Toy.encode_continuous [[1]]%Z [1] [(0, 1%Z)] tt 10 None 4 0
                       [[0]]%Z in
  let completed := firstn 2 (successes outs) in
  let run := doe_run_of (optim := Toy.accepting [[0]]%Z) Toy.singular_at_zero
                        Toy.encode_model_id
                        (Toy.initialize_from [[[1]]; [[0]]; [[1]]; [[0]]]%Z)
                        Toy.encode_continuous Toy.decode_id
                        [[1]]%Z [1] [(0, 1%Z)] 2 10 None None 4 in
  completed = [([[0]]%Z, Toy.Fin 2); ([[0]]%Z, Toy.Fin 2)]
  /\ exists j Yb mb,
       nth_error completed j = Some (Yb, mb)
       /\ best_encoded run = Some Yb
       /\ doe_result run = Returned (Toy.decode_id Yb [(0, 1%Z)]) (map snd completed)
       /\ nth_error (map snd completed) j = Some mb
       /\ (forall m, In m (map snd completed) -> metric_gt m mb = false)
       /\ length (map snd completed) = 2.
Proof.
  intros outs completed run.
  split; [vm_compute; reflexivity|].
  refine (doe_best_is_maximum
            (optim := Toy.accepting [[0]]%Z) Toy.singular_at_zero Toy.encode_model_id
            (Toy.initialize_from [[[1]]; [[0]]; [[1]]; [[0]]]%Z)
            Toy.encode_continuous Toy.decode_id
            [[1]]%Z [1] [(0, 1%Z)] 2 10 None None 4 [1%Z] tt
            xgt_irrefl xgt_trans eq_refl eq_refl _ _ _).
  - vm_compute. repeat constructor.
  - vm_compute. repeat constructor.
  - exists ([[0]]%Z, Toy.Fin 2).
  split; [vm_compute; left; reflexivity|vm_compute; reflexivity].
Defined.

Lemma doe_rejects_bad_ratios_witness :
  exists msg,
    doe_run_of (optim := Toy.never) Toy.keep_Minv Toy.encode_model_id
               (Toy.initialize_to [[0]]%Z) Toy.encode_continuous Toy.decode_id
               [[1]]%Z [2; 2] [(0, 1%Z)] 1 10 None (Some [1; 1; 1]%Z) 3
    = mk_doe_run [] None (Raised (AssertionError msg)).
Proof.
  apply (doe_rejects_bad_ratios (optim := Toy.never)).
  left. simpl. split; lia.
Defined.

Example doe_rejects_first_ratio :
  doe_run_of (optim := Toy.never) Toy.keep_Minv Toy.encode_model_id
             (Toy.initialize_to [[0]]%Z) Toy.encode_continuous Toy.decode_id
             [[1]]%Z [2; 2] [(0, 1%Z)] 1 10 None (Some [2; 1]%Z) 3
  = mk_doe_run [] None (Raised (AssertionError "First element of ratios should be 1")).
Proof. reflexivity. Qed.

Example doe_default_ratios :
  normalize_ratios (F := Z) [2; 2; 3] None = Ret [1; 1; 1]%Z.
Proof. reflexivity. Qed.

(** C7 as stated fails: with a criterion that never accepts, a block
    whose two runs differ comes back with the coordinate of its first
    run in both. *)
Lemma optimize_rewrites_uneven_block :
  never_accepts Toy.never
  /\ optimize (optim := Toy.never) Toy.keep_Minv
              [[1]; [0]; [0]; [0]]%Z [[1]]%Z [2; 2] [(1, 1%Z)] tt 10 None None
     = Ret ([[1]; [1]; [0]; [0]]%Z, Toy.Fin 0)
  /\ [[1]; [1]; [0]; [0]]%Z <> [[1]; [0]; [0]; [0]]%Z.
Proof.
  split; [exact never_never_accepts|]. split; [vm_compute; reflexivity|discriminate].
Qed.

Lemma optimize_no_improvement_one_sweep_witness :
  let Y := [[1; 1]; [1; 1]; [1; 1]; [1; 1]]%Z in
  let r := optimize_run (optim := Toy.greedy) Toy.keep_Minv Y [[1; 0]; [0; 1]]%Z [2; 2]
                        [(0, 1%Z); (1, 1%Z)] tt 10 None None in
  (exists m, outcome r = Ret (Y, m))
  /\ final_Y r = Y
  /\ final_updated r = false
  /\ n_sweeps r = 1.
Proof.
  intros Y r.
  refine (optimize_no_improvement_one_sweep
            (SF := Scalar_Z) (optim := Toy.greedy) Toy.keep_Minv Y [[1; 0]; [0; 1]]%Z [2; 2]
            [(0, 1%Z); (1, 1%Z)] tt 10 None None 2 Y 0 (fun s => s = 0)
            _ _ _ eq_refl eq_refl eq_refl _ _ _).
  - split; [repeat constructor|]. split; [repeat constructor|].
    split; [reflexivity|]. split; [repeat constructor|].
    intros i factor Hfac.
    destruct i as [|[|i]]; simpl in Hfac.
    + inversion Hfac; subst. split; [simpl; lia|].
      exists 0, [[-1]; [0]; [1]]%Z.
      split; [reflexivity|]. split; [reflexivity|].
      split; [unfold width; simpl; lia|repeat constructor].
    + inversion Hfac; subst. split; [simpl; lia|].
      exists 1, [[-1]; [0]; [1]]%Z.
      split; [reflexivity|]. split; [reflexivity|].
      split; [unfold width; simpl; lia|repeat constructor].
    + destruct i; discriminate.
  - repeat constructor; discriminate.
  - intros i factor col cs jmp n_groups grp Hfac Hcol Hcs Hjmp Hn Hgrp.
    destruct i as [|[|i]]; simpl in Hfac; try (destruct i; discriminate);
      inversion Hfac; subst factor; simpl in Hcol, Hcs, Hjmp, Hn;
        inversion Hcol; inversion Hcs; inversion Hjmp; inversion Hn; subst.
    + destruct grp as [|[|[|[|grp]]]]; try lia; repeat constructor.
    + destruct grp as [|[|grp]]; try lia; repeat constructor.
  - intros i factor col cs jmp n_groups grp c Xi s Hfac Hcol Hcs Hjmp Hn Hgrp
           Hc Hne HXi Hs.
    subst s.
    destruct i as [|[|i]]; simpl in Hfac; try (destruct i; discriminate);
      inversion Hfac; subst factor; simpl in Hcol, Hcs, Hjmp, Hn;
        inversion Hcol; inversion Hcs; inversion Hjmp; inversion Hn; subst.
    + destruct grp as [|[|[|[|grp]]]]; try lia;
        simpl in Hc; destruct Hc as [Hc|[Hc|[Hc|[]]]]; subst c;
          vm_compute in Hne; try discriminate;
            vm_compute in HXi; inversion HXi; subst Xi;
              vm_compute; split; reflexivity.
    + destruct grp as [|[|grp]]; try lia;
        simpl in Hc; destruct Hc as [Hc|[Hc|[Hc|[]]]]; subst c;
          vm_compute in Hne; try discriminate;
            vm_compute in HXi; inversion HXi; subst Xi;
              vm_compute; split; reflexivity.
  - intros st Hst. eexists. reflexivity.
  - lia.
Defined.

(** * Further properties of the code *)

(** ** Ratio normalisation (lines 319-326) *)

(** X1.  The ratio normalisation of [doe] returns in two cases only:
    [ratios] is None, and the result is all ones; or [ratios] is not
    empty, has the length of [plot_sizes] and a first entry equal to 1,
    and the result is [ratios] itself.  What it returns has the length
    of [plot_sizes].  An empty [ratios] for an empty [plot_sizes] passes
    the length check and raises IndexError at [ratios[0]]. *)
Theorem normalize_ratios_returns_iff {F : Type} {SF : Scalar F}
        (plot_sizes : list nat) (ratios : option (list F)) (r' : list F) :
  (normalize_ratios plot_sizes ratios = Ret r'
   <-> (ratios = None /\ r' = repeat F1 (length plot_sizes))
       \/ (exists r0 rest,
              ratios = Some (r0 :: rest) /\ r' = r0 :: rest
              /\ length (r0 :: rest) = length plot_sizes /\ Feqb r0 F1 = true))
  /\ (normalize_ratios plot_sizes ratios = Ret r' -> length r' = length plot_sizes)
  /\ normalize_ratios (F := F) [] (Some []) = Raise IndexError.
Proof.
  assert (Hiff : normalize_ratios plot_sizes ratios = Ret r'
                 <-> (ratios = None /\ r' = repeat F1 (length plot_sizes))
                     \/ (exists r0 rest,
                            ratios = Some (r0 :: rest) /\ r' = r0 :: rest
                            /\ length (r0 :: rest) = length plot_sizes
                            /\ Feqb r0 F1 = true)).
  { split.
    - intros H. destruct ratios as [r|]; simpl in H.
      + right.
        destruct (Nat.eqb (length r + 1) (length plot_sizes)) eqn:H1; [discriminate|].
        destruct (Nat.eqb (length r) (length plot_sizes)) eqn:H2; simpl in H;
          [|discriminate].
        destruct r as [|r0 rest]; [discriminate|].
        destruct (Feqb r0 F1) eqn:H3; [|discriminate].
        inversion H; subst. exists r0, rest.
        apply Nat.eqb_eq in H2. repeat split; assumption.
      + left. inversion H. split; reflexivity.
    - intros [[Hn Hr]|[r0 [rest [Hs [Hr [Hlen H1]]]]]]; subst.
      + reflexivity.
      + unfold normalize_ratios.
        assert (Hne : Nat.eqb (length (r0 :: rest) + 1) (length plot_sizes) = false)
          by (apply Nat.eqb_neq; lia).
        apply Nat.eqb_eq in Hlen. rewrite Hne, Hlen. simpl. rewrite H1. reflexivity. }
  split; [exact Hiff|]. split; [|reflexivity].
  intros H. apply Hiff in H.
  destruct H as [[_ Hr]|[r0 [rest [_ [Hr [Hlen _]]]]]]; subst.
  - apply repeat_length.
  - exact Hlen.
Qed.

(** ** Block sizes and block counts (lines 158-159) *)

Lemma alphas_beyond_last_level (plot_sizes : list nat) (level : nat) :
  length plot_sizes <= level ->
  nth_error (rev (cumprod (rev plot_sizes))) level = None.
Proof.
  intros Hge. apply nth_error_None.
  unfold cumprod. rewrite length_rev, cumprod_from_length, length_rev. exact Hge.
Qed.

(** X2.  Let the products of the first and of the last plot sizes fit
    in [int64], so that [np.cumprod] does not wrap.  For a level of
    [plot_sizes], [betas[level]] is the product of the plot sizes below
    the level, [alphas[level]] the product of the plot sizes from the
    level on, both are [int64] values, and together they make the
    number of runs: the blocks of a level tile the runs.  Beyond the
    last level [alphas] has no entry. *)
Theorem blocks_tile_runs (plot_sizes : list nat) (level : nat) :
  int64_products plot_sizes ->
  (level < length plot_sizes ->
   exists jmp n_groups,
     nth_error (cumprod (1 :: plot_sizes)) level = Some jmp
     /\ nth_error (rev (cumprod (rev plot_sizes))) level = Some n_groups
     /\ jmp = np_prod (firstn level plot_sizes)
     /\ n_groups = np_prod (skipn level plot_sizes)
     /\ (Z.of_nat jmp < 2 ^ 63)%Z
     /\ (Z.of_nat n_groups < 2 ^ 63)%Z
     /\ n_groups * jmp = np_prod plot_sizes)
  /\ (length plot_sizes <= level ->
      nth_error (rev (cumprod (rev plot_sizes))) level = None).
Proof.
  intros Hfit. split.
  - intros Hlt.
    destruct (alphas_betas_defined plot_sizes level Hlt) as [jmp [n [Hb Ha]]].
    exists jmp, n. split; [exact Hb|]. split; [exact Ha|].
    pose proof (betas_nth plot_sizes level jmp Hb) as Hj.
    destruct (alphas_nth plot_sizes level n Ha) as [_ Hn].
    destruct (Hfit level) as [Hfj Hfn].
    split; [exact Hj|]. split; [exact Hn|].
    split; [rewrite Hj; exact Hfj|]. split; [rewrite Hn; exact Hfn|].
    assert (Hp : np_prod plot_sizes
                 = np_prod (firstn level plot_sizes) * np_prod (skipn level plot_sizes)).
    { rewrite <- np_prod_app, firstn_skipn. reflexivity. }
    rewrite Hp. subst. lia.
  - apply alphas_beyond_last_level.
Qed.

Lemma blocks_tile_runs_witness :
  int64_products [2; 3; 4]
  /\ nth_error (cumprod (1 :: [2; 3; 4])) 1 = Some 2
  /\ nth_error (rev (cumprod (rev [2; 3; 4]))) 1 = Some 12
  /\ 12 * 2 = np_prod [2; 3; 4]
  /\ nth_error (rev (cumprod (rev [2; 3; 4]))) 3 = None.
Proof.
  assert (Hfit : int64_products [2; 3; 4]).
  { intros k. destruct k as [|[|[|[|k]]]]; split; vm_compute; reflexivity. }
  split; [exact Hfit|].
  destruct (blocks_tile_runs [2; 3; 4] 1 Hfit) as [H _].
  destruct H as [jmp [n [Hb [Ha [_ [_ [_ [_ Hp]]]]]]]]; [simpl; lia|].
  vm_compute in Hb, Ha. inversion Hb; inversion Ha; subst.
  split; [reflexivity|]. split; [reflexivity|]. split; [exact Hp|].
  destruct (blocks_tile_runs [2; 3; 4] 3 Hfit) as [_ H]. apply H. simpl. lia.
Defined.

(** ** The restart loop: more of what it does *)

Section RestartMore.
Context {F UModel Pre St Metric : Type} {SF : Scalar F} {MO : MetricOps Metric}.
Context {optim : Optim F UModel Pre St Metric}.

Variable refresh_Minv : St -> list (list F) -> result St.
Variable initialize_single :
  nat -> list nat -> list (nat * Z) -> list (list F) ->
  option (list (list (list F))) -> list (list F) * list (list F).
Variable encode_design : list (list F) -> list (nat * Z) -> list (list F).
Variable model_enc : list (list Z).
Variable plot_sizes : list nat.
Variable factors : list (nat * Z).
Variable prestate : Pre.
Variables n_tries max_it : nat.
Variable default_coords : option (list (list (list F))).

Abbreviation restarts' :=
  (restarts refresh_Minv initialize_single encode_design model_enc plot_sizes factors
            prestate n_tries max_it default_coords).
Abbreviation attempts' :=
  (attempts refresh_Minv initialize_single encode_design model_enc plot_sizes factors
            prestate max_it default_coords).
Abbreviation attempt' :=
  (attempt refresh_Minv initialize_single encode_design model_enc plot_sizes factors
           prestate max_it default_coords).

(** While every attempt raises a LinAlgError the loop goes on: the
    state keeps its results and only the attempts are counted. *)
Lemma restarts_all_singular (fuel : nat) :
  forall k (d : dstate (F := F) (Metric := Metric)),
    done d < n_tries ->
    (forall k' Y, snd (attempt' k' Y) = Raise LinAlgError) ->
    exists d',
      restarts' fuel k d = (d', OutOfFuel)
      /\ done d' = done d /\ metrics d' = metrics d
      /\ best_Y d' = best_Y d
      /\ callbacks (rev (events d')) = callbacks (rev (events d))
      /\ started (rev (events d')) = started (rev (events d)) ++ seq k fuel.
Proof.
  induction fuel as [|fuel IH]; intros k d Hlt Hsing.
  - exists d. simpl. apply Nat.ltb_lt in Hlt. rewrite Hlt.
    rewrite app_nil_r. repeat split; reflexivity.
  - rewrite restarts_step.
    pose proof Hlt as Hlt'. apply Nat.ltb_lt in Hlt'. rewrite Hlt'.
    pose proof (Hsing k (template d)) as Hk.
    destruct (attempt' k (template d)) as [Y' r]. cbn [snd] in Hk. subst r.
    cbn [is_LinAlgError].
    destruct (IH (S k) (mk_dstate (done d) (metrics d) (best_metric d) (best_Y d) Y'
                                  (EvAttempt k :: events d)) Hlt Hsing)
      as [d' [Hrun [Hd [Hm [Hb [Hc Hs]]]]]].
    exists d'. split; [exact Hrun|].
    cbn [done metrics best_Y events rev] in Hd, Hm, Hb, Hc, Hs.
    split; [exact Hd|]. split; [exact Hm|]. split; [exact Hb|]. split.
    + rewrite Hc, callbacks_app. simpl. apply app_nil_r.
    + rewrite Hs, started_app. simpl. rewrite <- app_assoc. reflexivity.
Qed.

End RestartMore.

Section BestMore.
Context {F Metric : Type} {MO : MetricOps Metric}.

Hypothesis gt_irrefl : forall a : Metric, metric_gt a a = false.
Hypothesis gt_trans :
  forall a b c : Metric, metric_gt a b = true -> metric_gt b c = true -> metric_gt a c = true.

(** The running best is the first of the restarts that reach its
    metric. *)
Lemma track_first (succs : list (list (list F) * Metric)) :
  forall bm bY,
    fold_left track succs (bm, bY) = (bm, bY)
    \/ exists j Yb,
         nth_error succs j = Some (Yb, fst (fold_left track succs (bm, bY)))
         /\ snd (fold_left track succs (bm, bY)) = Some Yb
         /\ metric_gt (fst (fold_left track succs (bm, bY))) bm = true
         /\ forall j' Y' m',
              j' < j -> nth_error succs j' = Some (Y', m') ->
              m' <> fst (fold_left track succs (bm, bY)).
Proof.
  induction succs as [|[Yo m] succs IH]; intros bm bY.
  - left. reflexivity.
  - cbn [fold_left].
    change (track (bm, bY) (Yo, m))
      with (if metric_gt m bm then (m, Some Yo) else (bm, bY)).
    destruct (metric_gt m bm) eqn:Hgt.
    + right. destruct (IH m (Some Yo)) as [Heq|[j [Yb [Hj [Hb [Hup Hfirst]]]]]].
      * rewrite Heq. exists 0, Yo. simpl.
        split; [reflexivity|]. split; [reflexivity|]. split; [exact Hgt|].
        intros j' Y' m' Hlt. lia.
      * exists (S j), Yb. split; [exact Hj|]. split; [exact Hb|].
        split; [apply (gt_trans _ m bm); assumption|].
        intros [|j'] Y' m' Hlt Hnth; simpl in Hnth.
        -- inversion Hnth; subst. intros Heq. rewrite <- Heq in Hup.
           rewrite gt_irrefl in Hup. discriminate.
        -- apply (Hfirst j' Y' m'); [lia|exact Hnth].
    + destruct (IH bm bY) as [Heq|[j [Yb [Hj [Hb [Hup Hfirst]]]]]].
      * left. exact Heq.
      * right. exists (S j), Yb. split; [exact Hj|]. split; [exact Hb|].
        split; [exact Hup|].
        intros [|j'] Y' m' Hlt Hnth; simpl in Hnth.
        -- inversion Hnth; subst. intros Heq. rewrite <- Heq in Hup.
           rewrite Hgt in Hup. discriminate.
        -- apply (Hfirst j' Y' m'); [lia|exact Hnth].
Qed.

End BestMore.


(** X4.  [doe] has no bound on its retries: when every attempt raises
    a LinAlgError and at least one restart is asked for, [doe] has not
    returned after any number of attempts; all of them were started,
    and the callback was never called. *)
Theorem doe_retries_without_bound
        {F UModel Pre St Metric Decoded : Type} {SF : Scalar F} {MO : MetricOps Metric}
        {optim : Optim F UModel Pre St Metric}
        (refresh_Minv : St -> list (list F) -> result St)
        (encode_model : UModel -> list (nat * Z) -> list (list Z))
        (initialize_single :
           nat -> list nat -> list (nat * Z) -> list (list F) ->
           option (list (list (list F))) -> list (list F) * list (list F))
        (encode_design : list (list F) -> list (nat * Z) -> list (list F))
        (decode_design : list (list F) -> list (nat * Z) -> Decoded)
        (model : UModel) (plot_sizes : list nat) (factors : list (nat * Z))
        (n_tries max_it : nat) (default_coords : option (list (list (list F))))
        (ratios : option (list F)) (ratios' : list F) (prestate : Pre) :
  normalize_ratios plot_sizes ratios = Ret ratios' ->
  preinit plot_sizes (model, encode_model model factors) factors ratios' = Ret prestate ->
  0 < n_tries ->
  (forall k Y,
      snd (attempt refresh_Minv initialize_single encode_design
                   (encode_model model factors) plot_sizes factors prestate max_it
                   default_coords k Y) = Raise LinAlgError) ->
  forall fuel,
    let run := doe_run_of refresh_Minv encode_model initialize_single encode_design
                          decode_design model plot_sizes factors n_tries max_it
                          default_coords ratios fuel in
    doe_result run = Unfinished
    /\ started (observed run) = seq 0 fuel
    /\ callbacks (observed run) = [].
Proof.
  intros Hr Hp Hn Hsing fuel. unfold doe_run_of. rewrite Hr, Hp.
  destruct (restarts_all_singular
              refresh_Minv initialize_single encode_design (encode_model model factors)
              plot_sizes factors prestate n_tries max_it default_coords fuel 0
              (mk_dstate 0 (repeat metric_zero n_tries) neg_inf None
                         (repeat (repeat F0 (length factors)) (np_prod plot_sizes))
                         [EvPreinit]) Hn Hsing)
    as [d' [Hrun [_ [_ [_ [Hc Hs]]]]]].
  rewrite Hrun. cbn [doe_result observed].
  split; [reflexivity|]. split; [exact Hs|exact Hc].
Qed.

(** X5.  The first attempt whose failure is no LinAlgError ends [doe]
    with that failure, whatever the attempts before it did, as long as
    fewer than [n_tries] of them returned.  Every attempt up to the
    failing one was started and none after it; [it_callback] was called
    once for each attempt that returned, with 1, 2, ...; and neither
    the metrics nor the best design recorded so far are returned. *)
Theorem doe_first_fatal_failure
        {F UModel Pre St Metric Decoded : Type} {SF : Scalar F} {MO : MetricOps Metric}
        {optim : Optim F UModel Pre St Metric}
        (refresh_Minv : St -> list (list F) -> result St)
        (encode_model : UModel -> list (nat * Z) -> list (list Z))
        (initialize_single :
           nat -> list nat -> list (nat * Z) -> list (list F) ->
           option (list (list (list F))) -> list (list F) * list (list F))
        (encode_design : list (list F) -> list (nat * Z) -> list (list F))
        (decode_design : list (list F) -> list (nat * Z) -> Decoded)
        (model : UModel) (plot_sizes : list nat) (factors : list (nat * Z))
        (n_tries max_it : nat) (default_coords : option (list (list (list F))))
        (ratios : option (list F)) (fuel : nat) (ratios' : list F) (prestate : Pre)
        (pre post : list (result (list (list F) * Metric))) (e : exn) :
  normalize_ratios plot_sizes ratios = Ret ratios' ->
  preinit plot_sizes (model, encode_model model factors) factors ratios' = Ret prestate ->
  attempts refresh_Minv initialize_single encode_design (encode_model model factors)
           plot_sizes factors prestate max_it default_coords fuel 0
           (repeat (repeat F0 (length factors)) (np_prod plot_sizes))
  = pre ++ Raise e :: post ->
  Forall survivable pre ->
  length (successes pre) < n_tries ->
  is_LinAlgError e = false ->
  let run := doe_run_of refresh_Minv encode_model initialize_single encode_design
                        decode_design model plot_sizes factors n_tries max_it
                        default_coords ratios fuel in
  doe_result run = Raised e
  /\ best_encoded run = None
  /\ started (observed run) = seq 0 (S (length pre))
  /\ callbacks (observed run) = seq 1 (length (successes pre)).
Proof.
  intros Hr Hp Hatt Hsurv Hlt He run.
  destruct (doe_run_first_fatal refresh_Minv encode_model initialize_single
                                encode_design decode_design model plot_sizes factors
                                n_tries max_it default_coords ratios fuel ratios'
                                prestate Hr Hp pre post e Hatt Hsurv Hlt He)
    as [evs [Hrun [Hst Hcb]]].
  unfold run. rewrite Hrun. cbn [doe_result best_encoded observed].
  split; [reflexivity|]. split; [reflexivity|]. split; [exact Hst|exact Hcb].
Qed.

(** X6.  Ties go to the earliest restart.  With [>] irreflexive and
    transitive on metrics, in a run of [doe] that completes and in
    which some completed restart scores above [-inf], the design
    returned is that of a completed restart whose metric no recorded
    metric exceeds and no earlier completed restart equals. *)
Theorem doe_best_is_first_maximum
        {F UModel Pre St Metric Decoded : Type} {SF : Scalar F} {MO : MetricOps Metric}
        {optim : Optim F UModel Pre St Metric}
        (refresh_Minv : St -> list (list F) -> result St)
        (encode_model : UModel -> list (nat * Z) -> list (list Z))
        (initialize_single :
           nat -> list nat -> list (nat * Z) -> list (list F) ->
           option (list (list (list F))) -> list (list F) * list (list F))
        (encode_design : list (list F) -> list (nat * Z) -> list (list F))
        (decode_design : list (list F) -> list (nat * Z) -> Decoded)
        (model : UModel) (plot_sizes : list nat) (factors : list (nat * Z))
        (n_tries max_it : nat) (default_coords : option (list (list (list F))))
        (ratios : option (list F)) (fuel : nat) (ratios' : list F) (prestate : Pre) :
  (forall a : Metric, metric_gt a a = false) ->
  (forall a b c : Metric,
      metric_gt a b = true -> metric_gt b c = true -> metric_gt a c = true) ->
  normalize_ratios plot_sizes ratios = Ret ratios' ->
  preinit plot_sizes (model, encode_model model factors) factors ratios' = Ret prestate ->
  let outs := attempts refresh_Minv initialize_single encode_design
                       (encode_model model factors) plot_sizes factors prestate max_it
                       default_coords fuel 0
                       (repeat (repeat F0 (length factors)) (np_prod plot_sizes)) in
  let completed := firstn n_tries (successes outs) in
  let run := doe_run_of refresh_Minv encode_model initialize_single encode_design
                        decode_design model plot_sizes factors n_tries max_it
                        default_coords ratios fuel in
  Forall survivable outs ->
  n_tries <= length (successes outs) ->
  (exists r, In r completed /\ metric_gt (snd r) neg_inf = true) ->
  exists j Yb mb,
    nth_error completed j = Some (Yb, mb)
    /\ best_encoded run = Some Yb
    /\ (forall r, In r completed -> metric_gt (snd r) mb = false)
    /\ (forall j' Y' m',
           j' < j -> nth_error completed j' = Some (Y', m') -> m' <> mb).
Proof.
  intros Hirr Htrans Hr Hp outs completed run Hsurv Hsucc [r [Hin Hgt]].
  destruct (doe_run_spec refresh_Minv encode_model initialize_single encode_design
                         decode_design model plot_sizes factors n_tries max_it
                         default_coords ratios fuel ratios' prestate Hr Hp Hsurv Hsucc)
    as [d [Hrun [Hcb Hbest]]].
  fold outs in Hrun, Hbest. fold completed in Hrun, Hbest.
  destruct (track_best Hirr Htrans completed neg_inf None) as [Hmax _].
  destruct (track_first Hirr Htrans completed neg_inf None)
    as [Heq|[j [Yb [Hj [Hb [_ Hfirst]]]]]].
  - exfalso. rewrite Heq in Hmax. cbn [fst] in Hmax.
    pose proof (Hmax r Hin) as Hr0. rewrite Hgt in Hr0. discriminate.
  - rewrite <- Hbest in Hmax, Hj, Hb, Hfirst. cbn [fst snd] in Hmax, Hj, Hb, Hfirst.
    exists j, Yb, (best_metric d).
    split; [exact Hj|].
    unfold run. rewrite Hrun. cbn [best_encoded]. rewrite Hb.
    split; [reflexivity|]. split; [exact Hmax|exact Hfirst].
Qed.


Lemma doe_retries_without_bound_witness :
  let run := doe_run_of (optim := Toy.accepting [[0]]%Z) Toy.singular_at_zero
                        Toy.encode_model_id (Toy.initialize_to [[1]]%Z)
                        Toy.encode_continuous Toy.decode_id
                        [[1]]%Z [1] [(0, 1%Z)] 1 10 None None 25 in
  doe_result run = Unfinished
  /\ started (observed run) = seq 0 25
  /\ callbacks (observed run) = [].
Proof.
  apply (doe_retries_without_bound
           (optim := Toy.accepting [[0]]%Z) Toy.singular_at_zero Toy.encode_model_id
           (Toy.initialize_to [[1]]%Z) Toy.encode_continuous Toy.decode_id
           [[1]]%Z [1] [(0, 1%Z)] 1 10 None None [1%Z] tt).
  - reflexivity.
  - reflexivity.
  - lia.
  - intros k Y. vm_compute. reflexivity.
Defined.

Lemma doe_first_fatal_failure_witness :
  let run := doe_run_of (optim := Toy.interrupted_at [[1]]%Z) Toy.keep_Minv
                        Toy.encode_model_id
                        (Toy.initialize_from [[[0]]; [[1]]; [[-1]]; [[1]]]%Z)
                        Toy.encode_continuous Toy.decode_id
                        [[1]]%Z [1] [(0, 1%Z)] 2 10 None None 4 in
  attempts (optim := Toy.interrupted_at [[1]]%Z) Toy.keep_Minv
           (Toy.initialize_from [[[0]]; [[1]]; [[-1]]; [[1]]]%Z) Toy.encode_continuous
           [[1]]%Z [1] [(0, 1%Z)] tt 10 None 4 0 [[0]]%Z
  = [Raise LinAlgError; Ret ([[1]]%Z, Toy.Fin 2); Raise KeyboardInterrupt;
     Ret ([[1]]%Z, Toy.Fin 2)]
  /\ doe_result run = Raised KeyboardInterrupt
  /\ best_encoded run = None
  /\ started (observed run) = [0; 1; 2]
  /\ callbacks (observed run) = [1].
Proof.
  intros run. split; [vm_compute; reflexivity|].
  refine (doe_first_fatal_failure
            (optim := Toy.interrupted_at [[1]]%Z) Toy.keep_Minv Toy.encode_model_id
            (Toy.initialize_from [[[0]]; [[1]]; [[-1]]; [[1]]]%Z)
            Toy.encode_continuous Toy.decode_id
            [[1]]%Z [1] [(0, 1%Z)] 2 10 None None 4 [1%Z] tt
            [Raise LinAlgError; Ret ([[1]]%Z, Toy.Fin 2)]
            [Ret ([[1]]%Z, Toy.Fin 2)] KeyboardInterrupt _ _ _ _ _ _).
  - reflexivity.
  - reflexivity.
  - vm_compute. reflexivity.
  - repeat constructor.
  - simpl. lia.
  - reflexivity.
Defined.

Lemma doe_best_is_first_maximum_witness :
  let outs := attempts (optim := Toy.never) Toy.keep_Minv
                       (Toy.initialize_from [[[1]]; [[-1]]; [[0]]]%Z)
                       Toy.encode_continuous [[1]]%Z [1] [(0, 1%Z)] tt 10 None 3 0
                       [[0]]%Z in
  let completed := firstn 3 (successes outs) in
  let run := doe_run_of (optim := Toy.never) Toy.keep_Minv Toy.encode_model_id
                        (Toy.initialize_from [[[1]]; [[-1]]; [[0]]]%Z)
                        Toy.encode_continuous Toy.decode_id
                        [[1]]%Z [1] [(0, 1%Z)] 3 10 None None 3 in
  completed = [([[1]]%Z, Toy.Fin 0); ([[-1]]%Z, Toy.Fin 0); ([[0]]%Z, Toy.Fin 0)]
  /\ best_encoded run = Some [[1]]%Z
  /\ exists j Yb mb,
       nth_error completed j = Some (Yb, mb)
       /\ best_encoded run = Some Yb
       /\ (forall r, In r completed -> metric_gt (snd r) mb = false)
       /\ (forall j' Y' m',
              j' < j -> nth_error completed j' = Some (Y', m') -> m' <> mb).
Proof.
  intros outs completed run.
  split; [vm_compute; reflexivity|]. split; [vm_compute; reflexivity|].
  refine (doe_best_is_first_maximum
            (optim := Toy.never) Toy.keep_Minv Toy.encode_model_id
            (Toy.initialize_from [[[1]]; [[-1]]; [[0]]]%Z)
            Toy.encode_continuous Toy.decode_id
            [[1]]%Z [1] [(0, 1%Z)] 3 10 None None 3 [1%Z] tt
            xgt_irrefl xgt_trans eq_refl eq_refl _ _ _).
  - vm_compute. repeat constructor.
  - vm_compute. repeat constructor.
  - exists ([[1]]%Z, Toy.Fin 0).
    split; [vm_compute; left; reflexivity|vm_compute; reflexivity].
Defined.

(** ** [x2fx]: slices and errors *)

Lemma mapR_app {A B : Type} (f : A -> result B) (l1 l2 : list A) (r1 r2 : list B) :
  mapR f l1 = Ret r1 -> mapR f l2 = Ret r2 -> mapR f (l1 ++ l2) = Ret (r1 ++ r2).
Proof.
  revert r1. induction l1 as [|a l1 IH]; intros r1 H1 H2; simpl in *.
  - inversion H1. exact H2.
  - destruct (f a) as [b|e]; simpl in *; [|discriminate].
    destruct (mapR f l1) as [bs|e]; simpl in *; [|discriminate].
    inversion H1; subst. rewrite (IH bs eq_refl H2). reflexivity.
Qed.

Lemma mapR_firstn {A B : Type} (f : A -> result B) (n : nat) :
  forall (l : list A) (r : list B),
    mapR f l = Ret r -> mapR f (firstn n l) = Ret (firstn n r).
Proof.
  induction n as [|n IH]; intros l r H.
  - reflexivity.
  - destruct l as [|a l]; simpl in *.
    + inversion H. reflexivity.
    + destruct (f a) as [b|e]; simpl in *; [|discriminate].
      destruct (mapR f l) as [bs|e] eqn:Hl; simpl in *; [|discriminate].
      inversion H; subst. simpl. rewrite (IH l bs Hl). reflexivity.
Qed.

Lemma mapR_skipn {A B : Type} (f : A -> result B) (n : nat) :
  forall (l : list A) (r : list B),
    mapR f l = Ret r -> mapR f (skipn n l) = Ret (skipn n r).
Proof.
  induction n as [|n IH]; intros l r H.
  - exact H.
  - destruct l as [|a l]; simpl in *.
    + inversion H. reflexivity.
    + destruct (f a) as [b|e]; simpl in *; [|discriminate].
      destruct (mapR f l) as [bs|e] eqn:Hl; simpl in *; [|discriminate].
      inversion H; subst. simpl. apply IH. exact Hl.
Qed.

Lemma mapR_first_raise {A B : Type} (f : A -> result B) (e0 : exn) (l : list A) :
  (forall a e, f a = Raise e -> e = e0) ->
  Exists (fun a => exists e, f a = Raise e) l ->
  mapR f l = Raise e0.
Proof.
  intros Honly. induction 1 as [a l [e He]|a l _ IH]; simpl.
  - rewrite He. simpl. rewrite (Honly a e He). reflexivity.
  - destruct (f a) as [b|e] eqn:Ha; simpl.
    + rewrite IH. reflexivity.
    + rewrite (Honly a e Ha). reflexivity.
Qed.

Section X2fxMore.
Context {F : Type} {SF : Scalar F}.

Lemma x2fx_term_inside (y : list F) (term : list Z) :
  forall j p,
    (forall k, length y <= j + k -> nth k term 0%Z = 0%Z) ->
    (forall k t, nth_error term k = Some t -> (t < 0)%Z ->
                 Feqb (Fpow (nth (j + k) y F0) (- t)) F0 = false) ->
    x2fx_term y term j p =
    Ret (fold_left Fmul
           (map (spec_factor y)
                (filter nonzero_exponent (combine (seq j (length term)) term)))
           p).
Proof.
  induction term as [|t term IH]; intros j p Hin Hdiv; simpl.
  - reflexivity.
  - unfold nonzero_exponent at 1; simpl.
    assert (Hrest : forall k, length y <= S j + k -> nth k term 0%Z = 0%Z).
    { intros k Hk. apply (Hin (S k)). lia. }
    assert (Hdrest : forall k t0, nth_error term k = Some t0 -> (t0 < 0)%Z ->
                                  Feqb (Fpow (nth (S j + k) y F0) (- t0)) F0 = false).
    { intros k t0 Hk Ht0. replace (S j + k) with (j + S k) by lia.
      apply (Hdiv (S k)); assumption. }
    destruct (t =? 0)%Z eqn:Ht; simpl.
    + apply IH; assumption.
    + assert (Hj : j < length y).
      { destruct (Nat.lt_ge_cases j (length y)) as [Hlt|Hge]; [exact Hlt|].
        pose proof (Hin 0) as H0. simpl in H0.
        rewrite H0 in Ht by lia. discriminate. }
      rewrite unchecked_read_inside by exact Hj.
      unfold spec_factor at 2; simpl.
      destruct (t =? 1)%Z.
      * apply IH; assumption.
      * unfold power. destruct (t <? 0)%Z eqn:Hneg; simpl.
        -- apply Z.ltb_lt in Hneg.
           pose proof (Hdiv 0 t eq_refl Hneg) as H0. rewrite Nat.add_0_r in H0.
           rewrite H0. simpl. apply IH; assumption.
        -- apply IH; assumption.
Qed.

(** The division is all that can fail in [x2fx]. *)
Lemma x2fx_term_only_ZeroDivisionError (y : list F) (term : list Z) :
  forall j p e, x2fx_term y term j p = Raise e -> e = ZeroDivisionError.
Proof.
  induction term as [|t term IH]; intros j p e H; simpl in H.
  - discriminate.
  - destruct (t =? 0)%Z; [apply (IH _ _ _ H)|].
    destruct (t =? 1)%Z; [apply (IH _ _ _ H)|].
    unfold power in H.
    destruct ((t <? 0)%Z && Feqb (Fpow (unchecked_read y j) (- t)) F0)%bool; simpl in H.
    + inversion H. reflexivity.
    + apply (IH _ _ _ H).
Qed.

Lemma x2fx_term_divides (y : list F) (term : list Z) :
  forall j p,
    (forall k, length y <= j + k -> nth k term 0%Z = 0%Z) ->
    (exists k t, nth_error term k = Some t /\ (t < 0)%Z
                 /\ Feqb (Fpow (nth (j + k) y F0) (- t)) F0 = true) ->
    x2fx_term y term j p = Raise ZeroDivisionError.
Proof.
  induction term as [|t term IH]; intros j p Hin [k [t0 [Hk [Hneg Hz]]]].
  - destruct k; discriminate.
  - assert (Hrest : forall k', length y <= S j + k' -> nth k' term 0%Z = 0%Z).
    { intros k' Hk'. apply (Hin (S k')). lia. }
    simpl. destruct k as [|k].
    + simpl in Hk. inversion Hk; subst t0.
      assert (Ht0 : (t =? 0)%Z = false) by (apply Z.eqb_neq; lia).
      assert (Ht1 : (t =? 1)%Z = false) by (apply Z.eqb_neq; lia).
      assert (Hlt : (t <? 0)%Z = true) by (apply Z.ltb_lt; exact Hneg).
      assert (Hj : j < length y).
      { destruct (Nat.lt_ge_cases j (length y)) as [Hl|Hge]; [exact Hl|].
        pose proof (Hin 0) as H0. simpl in H0.
        apply Z.eqb_neq in Ht0. exfalso. apply Ht0. apply H0. lia. }
      rewrite Ht0, Ht1. rewrite unchecked_read_inside by exact Hj.
      unfold power. rewrite Nat.add_0_r in Hz. rewrite Hlt, Hz. reflexivity.
    + assert (Hex : exists k' t', nth_error term k' = Some t' /\ (t' < 0)%Z
                                  /\ Feqb (Fpow (nth (S j + k') y F0) (- t')) F0 = true).
      { exists k, t0. split; [exact Hk|]. split; [exact Hneg|].
        replace (S j + k) with (j + S k) by lia. exact Hz. }
      destruct (t =? 0)%Z; [apply IH; assumption|].
      destruct (t =? 1)%Z; [apply IH; assumption|].
      destruct (power (unchecked_read y j) t) as [q|e] eqn:Hp; simpl.
      * apply IH; assumption.
      * unfold power in Hp.
        destruct ((t <? 0)%Z && Feqb (Fpow (unchecked_read y j) (- t)) F0)%bool;
          inversion Hp; reflexivity.
Qed.

Lemma x2fx_point_inside (model : list (list Z)) (y : list F) :
  Forall (reads_inside y) model ->
  Forall (fun term => ~ divides_by_zero y term) model ->
  x2fx_point model y = Ret (spec_row model y).
Proof.
  intros Hin Hdiv. unfold x2fx_point, spec_row. apply mapR_total.
  apply Forall_forall. intros term Hterm.
  rewrite Forall_forall in Hin, Hdiv.
  rewrite x2fx_term_inside; [reflexivity| |].
  - intros k Hk. apply (Hin term Hterm). exact Hk.
  - intros k t Hk Ht. simpl.
    destruct (Feqb (Fpow (nth k y F0) (- t)) F0) eqn:Hz; [|reflexivity].
    exfalso. apply (Hdiv term Hterm). exists k, t.
    split; [exact Hk|]. split; [exact Ht|exact Hz].
Qed.

Lemma x2fx_point_only_ZeroDivisionError (model : list (list Z)) (y : list F) (e : exn) :
  x2fx_point model y = Raise e -> e = ZeroDivisionError.
Proof.
  unfold x2fx_point. induction model as [|term model IH]; simpl; intros H.
  - discriminate.
  - destruct (x2fx_term y term 0 F1) as [b|e0] eqn:Ht; simpl in H.
    + destruct (mapR (fun term0 => x2fx_term y term0 0 F1) model) as [bs|e1];
        simpl in H; [discriminate|].
      inversion H; subst. apply IH. reflexivity.
    + inversion H; subst. eapply x2fx_term_only_ZeroDivisionError; exact Ht.
Qed.

Lemma x2fx_point_divides (model : list (list Z)) (y : list F) :
  Forall (reads_inside y) model ->
  Exists (divides_by_zero y) model ->
  x2fx_point model y = Raise ZeroDivisionError.
Proof.
  intros Hin Hex. unfold x2fx_point.
  apply mapR_first_raise.
  - intros term e He. eapply x2fx_term_only_ZeroDivisionError; exact He.
  - apply Exists_exists in Hex. destruct Hex as [term [Hterm Hdiv]].
    apply Exists_exists. exists term. split; [exact Hterm|].
    exists ZeroDivisionError.
    rewrite Forall_forall in Hin.
    apply x2fx_term_divides.
    + intros k Hk. apply (Hin term Hterm). exact Hk.
    + exact Hdiv.
Qed.

Lemma x2fx_2d_only_ZeroDivisionError (model : list (list Z)) (Y : list (list F)) (e : exn) :
  x2fx_2d Y model = Raise e -> e = ZeroDivisionError.
Proof.
  unfold x2fx_2d. induction Y as [|y Y IH]; simpl; intros H.
  - discriminate.
  - destruct (x2fx_point model y) as [b|e0] eqn:Hy; simpl in H.
    + destruct (mapR (x2fx_point model) Y) as [bs|e1]; simpl in H; [discriminate|].
      inversion H; subst. apply IH. reflexivity.
    + inversion H; subst. eapply x2fx_point_only_ZeroDivisionError; exact Hy.
Qed.

Lemma model_spec_divides_nowhere (model : list (list Z)) (y : list F) :
  model_spec model -> Forall (fun term => ~ divides_by_zero y term) model.
Proof.
  intros Hspec. eapply Forall_impl; [|exact Hspec].
  intros term Hterm [j [t [Hj [Hneg _]]]].
  rewrite Forall_forall in Hterm.
  pose proof (Hterm t (nth_error_In term j Hj)) as Hpos. simpl in Hpos. lia.
Qed.

End X2fxMore.

(** X7.  Let no term have a nonzero exponent for a column the design's
    rows do not have; a zero exponent never reads [Y], so the model may
    have more columns than the design.  Then [x2fx] on a 2-d design
    returns the specified row for every run unless some term divides by
    zero at some run, that is, has a negative exponent for a column
    whose value raised to the opposite exponent is zero; in that case
    it raises ZeroDivisionError.  For a ModelSpec, whose exponents are
    not negative, it returns. *)
Theorem x2fx_zero_division {F : Type} {SF : Scalar F}
        (Y : list (list F)) (model : list (list Z)) :
  Forall (fun y => Forall (reads_inside y) model) Y ->
  (Forall (fun y => Forall (fun term => ~ divides_by_zero y term) model) Y ->
   x2fx_2d Y model = Ret (map (spec_row model) Y))
  /\ (Exists (fun y => Exists (divides_by_zero y) model) Y ->
      x2fx_2d Y model = Raise ZeroDivisionError)
  /\ (model_spec model -> x2fx_2d Y model = Ret (map (spec_row model) Y)).
Proof.
  intros Hin.
  assert (Hret : Forall (fun y => Forall (fun term => ~ divides_by_zero y term) model) Y ->
                 x2fx_2d Y model = Ret (map (spec_row model) Y)).
  { intros Hdiv. unfold x2fx_2d. apply mapR_total.
    apply Forall_forall. intros y Hy.
    rewrite Forall_forall in Hin, Hdiv.
    apply x2fx_point_inside; [apply Hin|apply Hdiv]; exact Hy. }
  split; [exact Hret|]. split.
  - intros Hex. unfold x2fx_2d. apply mapR_first_raise.
    + intros y e He. eapply x2fx_point_only_ZeroDivisionError; exact He.
    + apply Exists_exists in Hex. destruct Hex as [y [Hy Hdiv]].
      apply Exists_exists. exists y. split; [exact Hy|].
      exists ZeroDivisionError.
      rewrite Forall_forall in Hin.
      apply x2fx_point_divides; [apply Hin; exact Hy|exact Hdiv].
  - intros Hspec. apply Hret.
    apply Forall_forall. intros y _. apply model_spec_divides_nowhere. exact Hspec.
Qed.

Lemma x2fx_zero_division_witness :
  x2fx_2d [[2; 3]; [5; 7]]%Z [[1; 1; 0]; [0; 2; 0; 0]]%Z
  = Ret [[6; 9]; [35; 49]]%Z
  /\ x2fx_2d [[2; 3]; [5; 0]]%Z [[1; 0]; [1; -2]]%Z = Raise ZeroDivisionError.
Proof.
  split.
  - refine (proj2 (proj2 (x2fx_zero_division
                            [[2; 3]; [5; 7]]%Z [[1; 1; 0]; [0; 2; 0; 0]]%Z _)) _).
    + repeat constructor;
        intros j Hj; simpl in Hj;
          do 5 (destruct j as [|j]; [try lia; reflexivity|]); destruct j; reflexivity.
    + repeat constructor; discriminate.
  - refine (proj1 (proj2 (x2fx_zero_division
                            [[2; 3]; [5; 0]]%Z [[1; 0]; [1; -2]]%Z _)) _).
    + repeat constructor;
        intros j Hj; simpl in Hj;
          do 3 (destruct j as [|j]; [try lia; reflexivity|]); destruct j; reflexivity.
    + apply Exists_cons_tl. apply Exists_cons_hd.
      apply Exists_cons_tl. apply Exists_cons_hd.
      exists 1, (-2)%Z. split; [reflexivity|]. split; [lia|reflexivity].
Defined.

(** X8.  The model matrix of a row slice is the row slice of the model
    matrix: when [x2fx(Y)] returns [X], [x2fx(Y[a:a+n])] returns
    [X[a:a+n]].  [optimize] relies on it when it recomputes only the
    rows of a block. *)
Theorem x2fx_of_row_slice {F : Type} {SF : Scalar F}
        (Y X : list (list F)) (model : list (list Z)) (a n : nat) :
  x2fx_2d Y model = Ret X ->
  x2fx_2d (slice a n Y) model = Ret (slice a n X).
Proof.
  unfold x2fx_2d, slice. intros H.
  apply mapR_firstn. apply mapR_skipn. exact H.
Qed.

Lemma x2fx_of_row_slice_witness :
  x2fx_2d (slice 1 2 [[1; 2]; [3; 4]; [5; 6]; [7; 8]]%Z) [[1; 1]; [2; 0]]%Z
  = Ret (slice 1 2 [[2; 1]; [12; 9]; [30; 25]; [56; 49]]%Z).
Proof.
  apply (x2fx_of_row_slice [[1; 2]; [3; 4]; [5; 6]; [7; 8]]%Z
                           [[2; 1]; [12; 9]; [30; 25]; [56; 49]]%Z).
  reflexivity.
Defined.

(** ** The default column layout (lines 162-172) *)

Lemma cumsum_from_consecutive (l : list nat) :
  forall a i w,
    nth_error l i = Some w ->
    exists c,
      nth_error (a :: cumsum_from a l) i = Some c
      /\ nth_error (a :: cumsum_from a l) (S i) = Some (c + w).
Proof.
  induction l as [|x l IH]; intros a i w H.
  - destruct i; discriminate.
  - destruct i as [|i]; simpl in H.
    + inversion H; subst. exists a. split; reflexivity.
    + destruct (IH (a + x) i w H) as [c [Hc Hn]].
      exists c. split; [exact Hc|exact Hn].
Qed.

Section LayoutFacts.
Context {F : Type} {SF : Scalar F}.

Lemma generated_width (factor : nat * Z) :
  let cs := generate_coordinates (F := F) (snd factor) no_default in
  cs <> [] /\ width cs = factor_width factor /\ 0 < width cs
  /\ Forall (fun c => length c = width cs) cs.
Proof.
  unfold generate_coordinates, factor_width. simpl.
  destruct (snd factor <=? 1)%Z eqn:Hle.
  - assert (Hgt : (snd factor >? 1)%Z = false).
    { apply Z.leb_le in Hle. rewrite Z.gtb_ltb. apply Z.ltb_ge. exact Hle. }
    rewrite Hgt. unfold width. simpl.
    split; [discriminate|]. split; [reflexivity|]. split; [lia|repeat constructor].
  - assert (Hgt : (snd factor >? 1)%Z = true).
    { apply Z.leb_gt in Hle. rewrite Z.gtb_ltb. apply Z.ltb_lt. exact Hle. }
    rewrite Hgt. apply Z.leb_gt in Hle.
    set (n := Z.to_nat (snd factor - 1)).
    assert (Hn : 0 < n) by (unfold n; lia).
    assert (Hw : width (eye (F := F) n ++ [repeat (Fopp F1) n]) = n).
    { unfold width. destruct n as [|n']; [lia|].
      unfold eye. simpl. rewrite length_map, length_seq. reflexivity. }
    rewrite Hw.
    split; [|split; [reflexivity|split; [exact Hn|]]].
    + intros Hnil. apply (f_equal (@length (list F))) in Hnil.
      rewrite length_app in Hnil. simpl in Hnil. lia.
    + apply Forall_app. split; [apply eye_rows|].
      constructor; [apply repeat_length|constructor].
Qed.

End LayoutFacts.

Lemma default_layout_next {F : Type} {SF : Scalar F}
      (factors : list (nat * Z)) (i : nat) (factor : nat * Z) :
  nth_error factors i = Some factor ->
  exists col,
    nth_error (col_start_of factors None) i = Some col
    /\ nth_error (possible_coords_of (F := F) factors None) i
       = Some (generate_coordinates (snd factor) no_default)
    /\ nth_error (col_start_of factors None) (S i) = Some (col + factor_width factor).
Proof.
  intros Hf.
  assert (Hw : nth_error (map factor_width factors) i = Some (factor_width factor)).
  { rewrite nth_error_map, Hf. reflexivity. }
  destruct (cumsum_from_consecutive (map factor_width factors) 0 i _ Hw) as [col [Hc Hn]].
  exists col. split; [exact Hc|]. split; [|exact Hn].
  unfold possible_coords_of. rewrite nth_error_map, Hf. reflexivity.
Qed.

(** X9.  Without explicit column starts and coordinate overrides the
    factors' columns are laid out one after the other: factor [i] has a
    non-empty, rectangular coordinate set whose entries are as wide as
    the factor (1, or one less than its number of levels), its columns
    start at [col_start[i]], and [col_start[i+1]] is where they end. *)
Theorem default_layout_consecutive {F : Type} {SF : Scalar F}
        (factors : list (nat * Z)) (i : nat) (factor : nat * Z) :
  nth_error factors i = Some factor ->
  exists col cs,
    nth_error (col_start_of factors None) i = Some col
    /\ nth_error (possible_coords_of (F := F) factors None) i = Some cs
    /\ cs <> []
    /\ width cs = factor_width factor
    /\ 0 < width cs
    /\ Forall (fun c => length c = width cs) cs
    /\ nth_error (col_start_of factors None) (S i) = Some (col + width cs).
Proof.
  intros Hf.
  destruct (default_layout_next (F := F) factors i factor Hf) as [col [Hc [Hcs Hn]]].
  destruct (generated_width (F := F) factor) as [Hne [Hwd [Hpos Hrect]]].
  exists col, (generate_coordinates (snd factor) no_default).
  split; [exact Hc|]. split; [exact Hcs|].
  split; [exact Hne|]. split; [exact Hwd|]. split; [exact Hpos|].
  split; [exact Hrect|].
  rewrite Hwd. exact Hn.
Qed.

Lemma default_layout_consecutive_witness :
  exists col cs,
    nth_error (col_start_of [(0, 1%Z); (1, 4%Z); (0, 2%Z)] None) 1 = Some col
    /\ nth_error (possible_coords_of (F := Z) [(0, 1%Z); (1, 4%Z); (0, 2%Z)] None) 1
       = Some cs
    /\ cs <> []
    /\ width cs = 3
    /\ 0 < width cs
    /\ Forall (fun c => length c = width cs) cs
    /\ nth_error (col_start_of [(0, 1%Z); (1, 4%Z); (0, 2%Z)] None) 2
       = Some (col + width cs).
Proof.
  exact (default_layout_consecutive (F := Z) [(0, 1%Z); (1, 4%Z); (0, 2%Z)] 1 (1, 4%Z)
                                    eq_refl).
Defined.

(** The column ranges of the default layout are in order, hence
    disjoint. *)
Lemma default_layout_ordered {F : Type} {SF : Scalar F} (factors : list (nat * Z)) :
  forall k i cs col colk,
    i < k ->
    nth_error (possible_coords_of (F := F) factors None) i = Some cs ->
    nth_error (col_start_of factors None) i = Some col ->
    nth_error (col_start_of factors None) k = Some colk ->
    k <= length factors ->
    col + width cs <= colk.
Proof.
  induction k as [|k IH]; intros i cs col colk Hik Hcs Hcol Hcolk Hk; [lia|].
  assert (Hkf : exists fk, nth_error factors k = Some fk).
  { destruct (nth_error factors k) as [fk|] eqn:Hfk; [exists fk; reflexivity|].
    apply nth_error_None in Hfk. lia. }
  destruct Hkf as [fk Hfk].
  destruct (default_layout_next (F := F) factors k fk Hfk) as [ck [Hck [Hcsk Hnext]]].
  destruct (generated_width (F := F) fk) as [_ [Hwd _]].
  rewrite Hnext in Hcolk. inversion Hcolk; subst colk.
  destruct (Nat.eq_dec i k) as [Heq|Hne].
  - subst i. rewrite Hcs in Hcsk. inversion Hcsk; subst cs.
    rewrite Hcol in Hck. inversion Hck; subst ck. lia.
  - assert (Hle : col + width cs <= ck).
    { apply (IH i cs col ck); try assumption; lia. }
    lia.
Qed.

Lemma default_layout_disjoint {F : Type} {SF : Scalar F} (factors : list (nat * Z)) :
  columns_disjoint (col_start_of factors None) (possible_coords_of (F := F) factors None).
Proof.
  intros i k cs ck col colk Hik Hcs Hcol Hck Hcolk.
  assert (Hlen : forall j c, nth_error (possible_coords_of (F := F) factors None) j = Some c ->
                             j < length factors).
  { intros j c Hj.
    assert (Hlt : j < length (possible_coords_of (F := F) factors None))
      by (apply nth_error_Some; rewrite Hj; discriminate).
    unfold possible_coords_of in Hlt. rewrite length_map in Hlt. exact Hlt. }
  pose proof (Hlen i cs Hcs) as Hi. pose proof (Hlen k ck Hck) as Hk.
  destruct (Nat.lt_ge_cases i k) as [Hlt|Hge].
  - left. apply (default_layout_ordered factors k i cs col colk); try assumption. lia.
  - right. apply (default_layout_ordered factors i k ck colk col); try assumption; lia.
Qed.

(** ** What every step of [optimize] keeps, for any invariant of the
    design that the assignments keep *)

Section FrameFacts.
Context {F UModel Pre St Metric : Type} {SF : Scalar F}.
Context {optim : Optim F UModel Pre St Metric}.

Variable refresh_Minv : St -> list (list F) -> result St.
Variable model : list (list Z).
Variables alphas betas col_start : list nat.
Variable coords : list (list (list F)).

Variable I : ostate (F := F) (St := St) -> Prop.

Hypothesis I_frame :
  forall s X st u,
    I s -> I (mk_ostate (cur_Y s) X st u (writes s) (sweeps s)).
Hypothesis I_assign :
  forall i r0 jmp col cs v,
    nth_error coords i = Some cs -> nth_error col_start i = Some col ->
    keeps I (assign_block i r0 jmp col (width cs) v) (fun _ => True).

Lemma frame_try_candidate (i level grp r0 jmp col : nat) (cs : list (list F))
      (init_coord best_coord new_coord : list F) :
  nth_error coords i = Some cs ->
  nth_error col_start i = Some col ->
  keeps I (try_candidate model i level grp r0 jmp col (width cs)
                         init_coord best_coord new_coord)
        (fun _ => True).
Proof.
  intros Hcs Hcol. unfold try_candidate.
  eapply keeps_bind; [apply I_assign; eassumption|].
  intros _ _.
  destruct (all_eq new_coord init_coord); [apply keeps_ret; exact Logic.I|].
  intros s Hs.
  destruct (x2fx_2d (slice r0 jmp (cur_Y s)) model) as [Xi|e]; simpl; [|auto].
  destruct (update (cur_state s) (cur_X s) Xi level grp) as [[[|] st']|e]; simpl.
  - split; [apply (I_frame s _ st' true Hs)|auto].
  - split; [apply (I_frame s _ st' (updated s) Hs)|auto].
  - destruct (is_Exception e); simpl; auto.
Qed.

Lemma frame_scan_candidates (i level grp r0 jmp col : nat) (cs : list (list F))
      (init_coord : list F) (cands : list (list F)) :
  nth_error coords i = Some cs ->
  nth_error col_start i = Some col ->
  forall best_coord,
    keeps I (scan_candidates model i level grp r0 jmp col (width cs)
                             init_coord cands best_coord)
          (fun _ => True).
Proof.
  intros Hcs Hcol. induction cands as [|c cands IH]; intros best; simpl.
  - apply keeps_ret. exact Logic.I.
  - eapply keeps_bind; [apply frame_try_candidate; assumption|].
    intros b _. apply IH.
Qed.

Lemma frame_scan_block (i level jmp col grp : nat) :
  nth_error col_start i = Some col ->
  keeps I (scan_block model coords i level jmp col grp) (fun _ => True).
Proof.
  intros Hcol. unfold scan_block.
  eapply keeps_bind; [apply keeps_index|].
  intros cs Hcs. simpl in Hcs.
  eapply keeps_bind with (P := fun _ => True).
  - intros s Hs. destruct (nth_error (cur_Y s) (grp * jmp)); simpl; auto.
  - intros init_coord _.
    eapply keeps_bind; [apply frame_scan_candidates; assumption|].
    intros best _. apply I_assign; assumption.
Qed.

Lemma frame_scan_factor (ifactor : nat * (nat * Z)) :
  keeps I (scan_factor model alphas betas col_start coords ifactor) (fun _ => True).
Proof.
  unfold scan_factor.
  eapply keeps_bind; [apply keeps_index|]. intros jmp _.
  eapply keeps_bind; [apply keeps_index|]. intros col Hcol. simpl in Hcol.
  eapply keeps_bind; [apply keeps_index|]. intros n_groups _.
  apply keeps_for_each. intros grp _.
  apply frame_scan_block. exact Hcol.
Qed.

Lemma frame_factors (ifactors : list (nat * (nat * Z))) :
  keeps I (for_each (scan_factor model alphas betas col_start coords) ifactors)
        (fun _ => True).
Proof. apply keeps_for_each. intros ifactor _. apply frame_scan_factor. Qed.

Hypothesis I_sweep :
  forall s u n, I s -> I (mk_ostate (cur_Y s) (cur_X s) (cur_state s) u (writes s) n).

Lemma frame_sweep (factors : list (nat * Z)) :
  keeps I (sweep model alphas betas col_start coords factors) (fun _ => True).
Proof.
  intros s Hs. unfold sweep. apply frame_factors. apply I_sweep. exact Hs.
Qed.

Lemma frame_iterate (factors : list (nat * Z)) (max_it : nat) :
  keeps I (iterate refresh_Minv model alphas betas col_start coords factors max_it)
        (fun _ => True).
Proof.
  induction max_it as [|k IH]; simpl.
  - apply keeps_ret. exact Logic.I.
  - eapply keeps_bind; [apply frame_sweep|].
    intros _ _ s Hs.
    destruct (updated s) eqn:Hu; [|simpl; auto].
    destruct (refresh_Minv (cur_state s) (cur_X s)) as [st'|e]; simpl; [|auto].
    apply IH. apply (I_frame s (cur_X s) st' true Hs).
Qed.

End FrameFacts.

(** ** [optimize] writes into the factors' columns only *)

Section OutsideFacts.
Context {A : Type}.

Lemma nth_error_splice_outside (start n c : nat) (mid a : list A) :
  length mid = n -> start + n <= length a ->
  c < start \/ start + n <= c ->
  nth_error (splice start n mid a) c = nth_error a c.
Proof.
  intros Hmid Hle Hc. unfold splice.
  assert (Hfl : length (firstn start a) = start) by (rewrite length_firstn; lia).
  destruct Hc as [Hc|Hc].
  - rewrite nth_error_app1 by lia.
    rewrite nth_error_firstn.
    destruct (Nat.ltb c start) eqn:Hlt; [reflexivity|].
    apply Nat.ltb_ge in Hlt. lia.
  - rewrite nth_error_app2 by lia.
    rewrite nth_error_app2 by lia.
    rewrite nth_error_skipn. f_equal. lia.
Qed.

Lemma Forall2_refl_all (R : A -> A -> Prop) (l : list A) :
  (forall x, R x x) -> Forall2 R l l.
Proof. intros HR. induction l; constructor; auto. Qed.

Lemma Forall2_trans_all (R : A -> A -> Prop) :
  (forall x y z, R x y -> R y z -> R x z) ->
  forall l1 l2 l3, Forall2 R l1 l2 -> Forall2 R l2 l3 -> Forall2 R l1 l3.
Proof.
  intros HR l1 l2 l3 H12. revert l3.
  induction H12 as [|x y l1 l2 Hxy _ IH]; intros l3 H23.
  - inversion H23. constructor.
  - inversion H23; subst. constructor; [eapply HR; eassumption|apply IH; assumption].
Qed.

(** Rewriting the rows of a slice relates the array to itself row by
    row. *)
Lemma Forall2_splice_map (R : A -> A -> Prop) (f : A -> A) (r0 jmp : nat) (l : list A) :
  (forall x, R x x) ->
  (forall x, In x l -> R x (f x)) ->
  Forall2 R l (splice r0 jmp (map f (slice r0 jmp l)) l).
Proof.
  intros Hrefl Hf.
  assert (Hl : l = firstn r0 l ++ slice r0 jmp l ++ skipn (r0 + jmp) l).
  { symmetry. apply (splice_slice_id r0 jmp l). }
  rewrite Hl at 1. unfold splice.
  apply Forall2_app; [apply Forall2_refl_all; exact Hrefl|].
  apply Forall2_app; [|apply Forall2_refl_all; exact Hrefl].
  assert (Hmap : forall xs, (forall x, In x xs -> R x (f x)) -> Forall2 R xs (map f xs)).
  { induction xs as [|x xs IH]; intros Hxs; simpl; constructor.
    - apply Hxs. left; reflexivity.
    - apply IH. intros y Hy. apply Hxs. right; exact Hy. }
  apply Hmap. intros x Hx. apply Hf. apply (In_slice r0 jmp). exact Hx.
Qed.

End OutsideFacts.

Section UntouchedFacts.
Context {F UModel Pre St Metric : Type} {SF : Scalar F}.
Context {optim : Optim F UModel Pre St Metric}.

Variable col_start : list nat.
Variable coords : list (list (list F)).
Variable Wd : nat.
Variable Y0 : list (list F).

Hypothesis rect0 : Forall (fun row : list F => length row = Wd) Y0.

Lemma same_outside_refl (row : list F) : same_outside col_start coords row row.
Proof. split; [reflexivity|intros; reflexivity]. Qed.

Lemma same_outside_trans (a b c : list F) :
  same_outside col_start coords a b -> same_outside col_start coords b c ->
  same_outside col_start coords a c.
Proof.
  intros [Hl1 H1] [Hl2 H2]. split; [congruence|].
  intros k Hk. rewrite (H2 k Hk). apply H1. exact Hk.
Qed.

Lemma untouched_rect (Y : list (list F)) :
  untouched_outside col_start coords Y0 Y ->
  Forall (fun row : list F => length row = Wd) Y /\ length Y = length Y0.
Proof.
  intros H. split.
  - unfold untouched_outside in H. revert rect0.
    induction H as [|r0 r Y0' Y' [Hlen _] _ IH]; intros Hrect; constructor.
    + inversion Hrect; subst. congruence.
    + apply IH. inversion Hrect; assumption.
  - symmetry. eapply Forall2_length. exact H.
Qed.

Lemma write_block_untouched (i r0 jmp col : nat) (cs : list (list F)) (v : list F)
      (Y Y' : list (list F)) :
  nth_error coords i = Some cs ->
  nth_error col_start i = Some col ->
  Forall (fun row : list F => length row = Wd) Y ->
  write_block r0 jmp col (width cs) v Y = Ret Y' ->
  untouched_outside col_start coords Y Y'.
Proof.
  intros Hcs Hcol Hrect Hw. unfold write_block in Hw.
  set (n := length (slice col (width cs) (hd [] Y))) in *.
  destruct (Nat.eqb (length v) n || Nat.eqb (length v) 1) eqn:Hb; [|discriminate].
  inversion Hw; subst Y'; clear Hw.
  apply Forall2_splice_map; [apply same_outside_refl|].
  intros row Hin.
  assert (Hrow : length row = Wd) by (rewrite Forall_forall in Hrect; auto).
  assert (Hhd : length (hd [] Y) = Wd).
  { destruct Y as [|y Y1]; [contradiction|]. inversion Hrect; assumption. }
  assert (Hn : n = Nat.min (width cs) (Wd - col)).
  { unfold n, slice. rewrite length_firstn, length_skipn, Hhd. reflexivity. }
  unfold put_cols.
  set (mid := if Nat.eqb (length v) n then v else repeat (hd F0 v) n).
  assert (Hmid : length mid = n).
  { unfold mid. destruct (Nat.eqb (length v) n) eqn:Hv.
    - apply Nat.eqb_eq. exact Hv.
    - apply repeat_length. }
  destruct (Nat.le_gt_cases col Wd) as [Hle|Hgt].
  - split.
    + apply length_splice; [lia|exact Hmid].
    + intros c Hc. apply nth_error_splice_outside; [exact Hmid|lia|].
      destruct (Hc i col cs Hcol Hcs) as [Hl|Hr]; [left; exact Hl|right; lia].
  - assert (Hn0 : n = 0) by lia.
    assert (Hnil : mid = []).
    { destruct mid; [reflexivity|]. simpl in Hmid. lia. }
    rewrite Hnil, Hn0. unfold splice. simpl.
    rewrite Nat.add_0_r, firstn_skipn. apply same_outside_refl.
Qed.

Abbreviation ostate := (ostate (F := F) (St := St)).

Lemma untouched_assign (i r0 jmp col : nat) (cs : list (list F)) (v : list F) :
  nth_error coords i = Some cs -> nth_error col_start i = Some col ->
  keeps (fun s : ostate => untouched_outside col_start coords Y0 (cur_Y s))
        (assign_block i r0 jmp col (width cs) v) (fun _ => True).
Proof.
  intros Hcs Hcol s Hs. unfold assign_block.
  destruct (write_block r0 jmp col (width cs) v (cur_Y s)) as [Y'|e] eqn:Hw; simpl.
  - split; [|auto].
    eapply (Forall2_trans_all _ same_outside_trans); [exact Hs|].
    eapply write_block_untouched; try eassumption.
    apply (untouched_rect _ Hs).
  - split; [exact Hs|auto].
Qed.

End UntouchedFacts.

(** X10.  Whatever the criterion does and whether [optimize] returns or
    raises, a rectangular design keeps its number of rows and the
    length of its rows, and every entry in a column that belongs to no
    factor keeps its value: [optimize] assigns to the factors' columns
    only. *)
Theorem optimize_writes_factor_columns_only
        {F UModel Pre St Metric : Type} {SF : Scalar F}
        {optim : Optim F UModel Pre St Metric}
        (refresh_Minv : St -> list (list F) -> result St)
        (Y : list (list F)) (model : list (list Z)) (plot_sizes : list nat)
        (factors : list (nat * Z)) (prestate : Pre) (max_it : nat)
        (col_start : option (list nat))
        (default_coords : option (list (list (list F)))) (Wd : nat) :
  Forall (fun row => length row = Wd) Y ->
  let r := optimize_run refresh_Minv Y model plot_sizes factors prestate max_it
                        col_start default_coords in
  length (final_Y r) = length Y
  /\ Forall (fun row => length row = Wd) (final_Y r)
  /\ untouched_outside (col_start_of factors col_start)
                       (possible_coords_of factors default_coords) Y (final_Y r).
Proof.
  intros Hrect r.
  assert (Hu : untouched_outside (col_start_of factors col_start)
                                 (possible_coords_of factors default_coords) Y (final_Y r)).
  { unfold r, optimize_run.
    assert (Hrefl : untouched_outside (col_start_of factors col_start)
                                      (possible_coords_of factors default_coords) Y Y).
    { apply Forall2_refl_all. apply same_outside_refl. }
    destruct (x2fx_2d Y model) as [X|e]; [|exact Hrefl].
    destruct (init prestate Y X) as [st|e]; [|exact Hrefl].
    rewrite np_concatenate_tuple.
    pose proof (frame_iterate
                  refresh_Minv model (rev (cumprod (rev plot_sizes)))
                  (cumprod (1 :: plot_sizes)) (col_start_of factors col_start)
                  (possible_coords_of factors default_coords)
                  (fun s => untouched_outside (col_start_of factors col_start)
                                              (possible_coords_of factors default_coords)
                                              Y (cur_Y s))
                  (fun s X' st' u Hs => Hs)
                  (fun i r0 jmp col cs v Hcs Hcol =>
                     untouched_assign (col_start_of factors col_start)
                                      (possible_coords_of factors default_coords)
                                      Wd Y Hrect i r0 jmp col cs v Hcs Hcol)
                  (fun s u n Hs => Hs)
                  factors max_it (mk_ostate Y X st false [] 0) Hrefl) as [Hk _].
    destruct (iterate refresh_Minv model (rev (cumprod (rev plot_sizes)))
                      (cumprod (1 :: plot_sizes)) (col_start_of factors col_start)
                      (possible_coords_of factors default_coords) factors max_it
                      (mk_ostate Y X st false [] 0)) as [s [u|e]]; exact Hk. }
  destruct (untouched_rect (col_start_of factors col_start)
                           (possible_coords_of factors default_coords) Wd Y Hrect
                           (final_Y r) Hu) as [Hr Hl].
  split; [exact Hl|]. split; [exact Hr|exact Hu].
Qed.

Lemma optimize_writes_factor_columns_only_witness :
  let r := optimize_run (optim := Toy.accepting [[-1]]%Z) Toy.keep_Minv
                        [[0; 9]; [1; 8]]%Z [[1; 0]]%Z [2] [(0, 1%Z)] tt 10 None None in
  final_Y r = [[-1; 9]; [-1; 8]]%Z
  /\ length (final_Y r) = 2
  /\ Forall (fun row => length row = 2) (final_Y r)
  /\ untouched_outside [0; 1] [[[-1]; [0]; [1]]]%Z [[0; 9]; [1; 8]]%Z (final_Y r).
Proof.
  intros r. split; [vm_compute; reflexivity|].
  refine (optimize_writes_factor_columns_only
            (SF := Scalar_Z) (optim := Toy.accepting [[-1]]%Z) Toy.keep_Minv
            [[0; 9]; [1; 8]]%Z [[1; 0]]%Z [2] [(0, 1%Z)] tt 10 None None 2 _).
  repeat constructor.
Defined.

(** ** The iteration cap (lines 175-244) *)

Section SweepCount.
Context {F UModel Pre St Metric : Type} {SF : Scalar F}.
Context {optim : Optim F UModel Pre St Metric}.

Variable refresh_Minv : St -> list (list F) -> result St.
Variable model : list (list Z).
Variables alphas betas col_start : list nat.
Variable coords : list (list (list F)).

Abbreviation ostate := (ostate (F := F) (St := St)).




(** A sweep over factors of which one has no block count does not
    return. *)
Lemma for_each_raises {A : Type} (body : A -> M (F := F) (St := St) unit)
      (l : list A) (a : A) :
  In a l ->
  (forall s, exists e, snd (body a s) = Raise e) ->
  forall s, exists e, snd (for_each body l s) = Raise e.
Proof.
  intros Hin Hbody. induction l as [|b l IH]; intros s; [contradiction|].
  simpl. unfold bind.
  destruct Hin as [Heq|Hin].
  - subst b. destruct (Hbody s) as [e He].
    destruct (body a s) as [s' r]. cbn [snd] in He. subst r.
    exists e. reflexivity.
  - destruct (body b s) as [s' [u|e]].
    + apply (IH Hin).
    + exists e. reflexivity.
Qed.

Lemma scan_factor_bad_level (i level : nat) (cat_lvl : Z) (s : ostate) :
  nth_error alphas level = None ->
  exists e,
    snd (scan_factor model alphas betas col_start coords (i, (level, cat_lvl)) s)
    = Raise e.
Proof.
  intros Ha. unfold scan_factor, bind, index. cbn [fst snd].
  destruct (nth_error betas level) as [jmp|]; [|exists IndexError; reflexivity].
  cbn [ret].
  destruct (nth_error col_start i) as [col|]; [|exists IndexError; reflexivity].
  cbn [ret]. rewrite Ha. exists IndexError. reflexivity.
Qed.

Lemma iterate_bad_level (factors : list (nat * Z)) (k i level : nat) (cat_lvl : Z)
      (s : ostate) :
  In (i, (level, cat_lvl)) (enumerate factors) ->
  nth_error alphas level = None ->
  exists e,
    snd (iterate refresh_Minv model alphas betas col_start coords factors (S k) s)
    = Raise e.
Proof.
  intros Hi Ha. cbn [iterate]. unfold bind, sweep.
  destruct (for_each_raises
              (scan_factor model alphas betas col_start coords)
              (enumerate factors) (i, (level, cat_lvl)) Hi
              (fun s0 => scan_factor_bad_level i level cat_lvl s0 Ha)
              (mk_ostate (cur_Y s) (cur_X s) (cur_state s) false (writes s)
                         (S (sweeps s)))) as [e He].
  destruct (for_each (scan_factor model alphas betas col_start coords)
                     (enumerate factors)
                     (mk_ostate (cur_Y s) (cur_X s) (cur_state s) false (writes s)
                                (S (sweeps s)))) as [s' r'].
  cbn [snd] in He. subst r'. exists e. reflexivity.
Qed.

End SweepCount.


(** X12.  When some factor's level is not a level of [plot_sizes] and
    at least one sweep is allowed, [optimize] does not return a design:
    it raises (IndexError at [alphas[level]], unless something raised
    before). *)
Theorem optimize_level_out_of_range
        {F UModel Pre St Metric : Type} {SF : Scalar F}
        {optim : Optim F UModel Pre St Metric}
        (refresh_Minv : St -> list (list F) -> result St)
        (Y : list (list F)) (model : list (list Z)) (plot_sizes : list nat)
        (factors : list (nat * Z)) (prestate : Pre) (max_it : nat)
        (col_start : option (list nat))
        (default_coords : option (list (list (list F)))) (factor : nat * Z) :
  In factor factors ->
  length plot_sizes <= fst factor ->
  1 <= max_it ->
  exists e,
    optimize refresh_Minv Y model plot_sizes factors prestate max_it col_start
             default_coords = Raise e.
Proof.
  intros Hin Hlevel Hmax. unfold optimize, optimize_run.
  destruct (x2fx_2d Y model) as [X|e]; [|exists e; reflexivity].
  destruct (init prestate Y X) as [st|e]; [|exists e; reflexivity].
  rewrite np_concatenate_tuple.
  destruct max_it as [|k]; [lia|].
  assert (Hi : exists i, In (i, factor) (enumerate factors)).
  { unfold enumerate. clear - Hin.
    assert (Hgen : forall a, exists i, In (i, factor) (combine (seq a (length factors)) factors)).
    { induction factors as [|f fs IH]; intros a; [contradiction|].
      destruct Hin as [Heq|Hin'].
      - subst f. exists a. left. reflexivity.
      - destruct (IH Hin' (S a)) as [i Hi]. exists i. right. exact Hi. }
    apply Hgen. }
  destruct Hi as [i Hi].
  destruct factor as [level cat_lvl]. cbn [fst] in Hlevel.
  assert (Ha : nth_error (rev (cumprod (rev plot_sizes))) level = None).
  { apply alphas_beyond_last_level. exact Hlevel. }
  destruct (iterate_bad_level refresh_Minv model (rev (cumprod (rev plot_sizes)))
                              (cumprod (1 :: plot_sizes)) (col_start_of factors col_start)
                              (possible_coords_of factors default_coords)
                              factors k i level cat_lvl (mk_ostate Y X st false [] 0) Hi Ha)
    as [e He].
  destruct (iterate refresh_Minv model (rev (cumprod (rev plot_sizes)))
                    (cumprod (1 :: plot_sizes)) (col_start_of factors col_start)
                    (possible_coords_of factors default_coords) factors (S k)
                    (mk_ostate Y X st false [] 0)) as [s' r'].
  cbn [snd] in He. subst r'. exists e. reflexivity.
Qed.

Lemma optimize_level_out_of_range_witness :
  optimize (optim := Toy.never) Toy.keep_Minv [[0; 0]]%Z [[1; 0]]%Z [1]
           [(0, 1%Z); (1, 1%Z)] tt 10 None None
  = Raise IndexError.
Proof.
  destruct (optimize_level_out_of_range
              (optim := Toy.never) Toy.keep_Minv [[0; 0]]%Z [[1; 0]]%Z [1]
              [(0, 1%Z); (1, 1%Z)] tt 10 None None (1, 1%Z)) as [e He].
  - right. left. reflexivity.
  - simpl. lia.
  - lia.
  - vm_compute in He. vm_compute. exact He || reflexivity.
Defined.

(** ** Constant blocks and the model matrix through the loop *)

Section ConstBlockFacts.
Context {A : Type}.

Lemma nth_of_nth_error (l : list A) (r : nat) (d : A) :
  nth r l d = match nth_error l r with Some x => x | None => d end.
Proof.
  revert r. induction l as [|a l IH]; intros [|r]; simpl; try reflexivity. apply IH.
Qed.

Lemma const_block_written (d c : A) (l : list A) (r0 jmp : nat) :
  r0 + jmp <= length l -> 0 < jmp ->
  const_block d (splice r0 jmp (repeat c jmp) l) r0 jmp.
Proof.
  intros Hle Hpos. unfold const_block.
  rewrite slice_splice by (try lia; apply repeat_length).
  assert (Hn : nth r0 (splice r0 jmp (repeat c jmp) l) d = c).
  { unfold splice. rewrite app_nth2 by (rewrite length_firstn; lia).
    rewrite length_firstn, Nat.min_l, Nat.sub_diag by lia.
    destruct jmp as [|j]; [lia|]. reflexivity. }
  rewrite Hn. apply Forall_forall. intros x Hx. apply repeat_spec in Hx. exact Hx.
Qed.

Lemma const_block_elsewhere (d : A) (l mid : list A) (r0 jmp r0' jmp' : nat) :
  r0 + jmp <= length l -> length mid = jmp -> 0 < jmp' ->
  r0' + jmp' <= r0 \/ r0 + jmp <= r0' ->
  const_block d l r0' jmp' ->
  const_block d (splice r0 jmp mid l) r0' jmp'.
Proof.
  intros Hle Hmid Hpos Hdis Hc. unfold const_block in *.
  assert (Hs : slice r0' jmp' (splice r0 jmp mid l) = slice r0' jmp' l).
  { destruct Hdis as [Hl|Hr].
    - apply slice_splice_left; lia.
    - apply slice_splice_right; [exact Hr|lia|exact Hmid]. }
  assert (Hn : nth r0' (splice r0 jmp mid l) d = nth r0' l d).
  { rewrite !nth_of_nth_error.
    rewrite nth_error_splice_outside; [reflexivity|exact Hmid|exact Hle|lia]. }
  rewrite Hs, Hn. exact Hc.
Qed.

End ConstBlockFacts.

Section BlockConstantFacts.
Context {F : Type} {SF : Scalar F}.

Lemma slice_map {A B : Type} (g : A -> B) (a n : nat) (l : list A) :
  slice a n (map g l) = map g (slice a n l).
Proof. unfold slice. rewrite skipn_map, firstn_map. reflexivity. Qed.

Lemma map_splice {A B : Type} (g : A -> B) (a n : nat) (mid l : list A) :
  map g (splice a n mid l) = splice a n (map g mid) (map g l).
Proof. unfold splice. rewrite !map_app, firstn_map, skipn_map. reflexivity. Qed.

(** A block is constant when the list of the rows' coordinates is. *)
Lemma block_constant_coordinates (Y : list (list F)) (r0 jmp col w : nat) :
  block_constant Y r0 jmp col w
  <-> const_block (slice col w []) (map (slice col w) Y) r0 jmp.
Proof.
  unfold block_constant, const_block.
  rewrite slice_map.
  rewrite (map_nth (slice col w) Y [] r0).
  rewrite Forall_map. reflexivity.
Qed.

Variables (Wd R0 J C W : nat).
Variable c : list F.
Variable Y : list (list F).

Hypothesis rect : Forall (fun row : list F => length row = Wd) Y.
Hypothesis rows_in : R0 + J <= length Y.
Hypothesis cols_in : C + W <= Wd.
Hypothesis c_len : length c = W.

Lemma coordinates_of_other_columns (col w : nat) :
  col + w <= C \/ C + W <= col ->
  map (slice col w) (block_with R0 J C W c Y) = map (slice col w) Y.
Proof.
  intros Hdis. unfold block_with.
  rewrite map_splice, map_map.
  assert (Hmid : map (fun row => slice col w (splice C W c row)) (slice R0 J Y)
                 = slice R0 J (map (slice col w) Y)).
  { rewrite slice_map.
    apply map_ext_in. intros row Hin. apply In_slice in Hin.
    rewrite Forall_forall in rect. pose proof (rect row Hin) as Hlen.
    destruct Hdis as [Hl|Hr].
    - apply slice_splice_left; lia.
    - apply slice_splice_right; [exact Hr|lia|exact c_len]. }
  rewrite Hmid. apply splice_slice_id.
Qed.

Lemma coordinates_of_same_columns :
  map (slice C W) (block_with R0 J C W c Y)
  = splice R0 J (repeat c J) (map (slice C W) Y).
Proof.
  unfold block_with.
  rewrite map_splice, map_map. f_equal.
  assert (Hmid : forall rows,
             (forall row, In row rows -> length row = Wd) ->
             map (fun row => slice C W (splice C W c row)) rows = repeat c (length rows)).
  { induction rows as [|row rows IH]; intros Hrows; simpl; [reflexivity|].
    rewrite slice_splice; [|rewrite (Hrows row (or_introl eq_refl)); lia|exact c_len].
    f_equal. apply IH. intros r Hr. apply Hrows. right; exact Hr. }
  rewrite Hmid.
  - rewrite length_slice by exact rows_in. reflexivity.
  - intros row Hin. apply In_slice in Hin.
    rewrite Forall_forall in rect. apply rect. exact Hin.
Qed.

End BlockConstantFacts.

Section GuardedFacts.
Context {F St : Type}.

Abbreviation ostate := (ostate (F := F) (St := St)).
Abbreviation M := (M (F := F) (St := St)).

Variable E : exn -> Prop.

Lemma guarded_bind {A B : Type} (P : ostate -> Prop) (m : M A) (k : A -> M B)
      (Q1 : A -> ostate -> Prop) (Q2 : B -> ostate -> Prop) :
  guarded E P m Q1 -> (forall a, guarded E (Q1 a) (k a) Q2) -> guarded E P (bind m k) Q2.
Proof.
  intros Hm Hk s Hs. unfold bind.
  pose proof (Hm s Hs) as H. destruct (m s) as [s' [a|e]].
  - apply (Hk a s' H).
  - exact H.
Qed.

Lemma guarded_for_each {A : Type} (P : ostate -> Prop) (body : A -> M unit) (l : list A) :
  (forall a, In a l -> guarded E P (body a) (fun _ => P)) ->
  guarded E P (for_each body l) (fun _ => P).
Proof.
  induction l as [|a l IH]; intros Hbody; simpl.
  - intros s Hs. exact Hs.
  - eapply guarded_bind.
    + apply Hbody. left; reflexivity.
    + intros u. apply IH. intros b Hb. apply Hbody. right; exact Hb.
Qed.

End GuardedFacts.

Section ConsistentLoop.
Context {F UModel Pre St Metric : Type} {SF : Scalar F}.
Context {optim : Optim F UModel Pre St Metric}.

Variable refresh_Minv : St -> list (list F) -> result St.
Variable model : list (list Z).
Variable plot_sizes : list nat.
Variable factors : list (nat * Z).
Variable col_start : list nat.
Variable coords : list (list (list F)).
Variable Wd : nat.
Variable E : exn -> Prop.

Hypothesis disjoint : columns_disjoint col_start coords.
Hypothesis update_E :
  forall s X Xi level grp e,
    update s X Xi level grp = Raise e -> is_Exception e = false -> E e.
Hypothesis refresh_E : forall s X e, refresh_Minv s X = Raise e -> E e.
Hypothesis x2fx_E : forall rows e, x2fx_2d rows model = Raise e -> E e.

Abbreviation ostate := (ostate (F := F) (St := St)).
Abbreviation alphas := (rev (cumprod (rev plot_sizes))).
Abbreviation betas := (cumprod (1 :: plot_sizes)).
Abbreviation Shapes := (fun Y => shapes_agree Wd Y model plot_sizes factors col_start coords).
Abbreviation Const := (fun Y => blocks_constant Y plot_sizes factors col_start coords).

Lemma shapes_block_with (Y : list (list F)) (r0 jmp col w : nat) (v : list F) :
  Shapes Y -> r0 + jmp <= length Y -> col + w <= Wd -> length v = w ->
  Shapes (block_with r0 jmp col w v Y).
Proof.
  intros [Hrect [Hpos [Hlen [Hmodel Hfac]]]] Hrows Hcols Hv.
  split; [apply (block_with_rect Wd); assumption|].
  split; [exact Hpos|].
  split; [rewrite block_with_length by exact Hrows; exact Hlen|].
  split; assumption.
Qed.

Lemma x2fx_block_with (Y X Xi : list (list F)) (r0 jmp col w : nat) (v : list F) :
  x2fx_2d Y model = Ret X ->
  r0 + jmp <= length Y ->
  x2fx_2d (slice r0 jmp (block_with r0 jmp col w v Y)) model = Ret Xi ->
  x2fx_2d (block_with r0 jmp col w v Y) model = Ret (splice r0 jmp Xi X).
Proof.
  intros HX Hrows HXi.
  assert (Hs : slice r0 jmp (block_with r0 jmp col w v Y)
               = map (splice col w v) (slice r0 jmp Y)).
  { unfold block_with. apply slice_splice; [lia|].
    rewrite length_map. apply length_slice. exact Hrows. }
  rewrite Hs in HXi.
  unfold block_with, splice, x2fx_2d in *.
  apply mapR_app; [apply mapR_firstn; exact HX|].
  apply mapR_app; [exact HXi|apply mapR_skipn; exact HX].
Qed.

Section OneBlock.
Variables (i jmp n_groups col grp : nat).
Variable factor : nat * Z.
Variable cs : list (list F).

Hypothesis the_factor : nth_error factors i = Some factor.
Hypothesis the_jmp : nth_error betas (fst factor) = Some jmp.
Hypothesis the_groups : nth_error alphas (fst factor) = Some n_groups.
Hypothesis the_col : nth_error col_start i = Some col.
Hypothesis the_coords : nth_error coords i = Some cs.
Hypothesis the_grp : grp < n_groups.

Lemma block_geometry (Y : list (list F)) :
  Shapes Y ->
  0 < jmp /\ grp * jmp + jmp <= length Y /\ col + width cs <= Wd
  /\ Forall (fun c => length c = width cs) cs.
Proof.
  intros [Hrect [Hpos [Hlen [Hmodel Hfac]]]].
  destruct (block_in_range plot_sizes (fst factor) jmp n_groups grp Hpos the_jmp
                           the_groups the_grp) as [Hj Hr].
  destruct (Hfac i factor the_factor) as [_ [col' [cs' [Hc [Hs [Hfit Hcl]]]]]].
  rewrite the_col in Hc. inversion Hc; subst col'.
  rewrite the_coords in Hs. inversion Hs; subst cs'.
  rewrite Hlen. repeat split; assumption.
Qed.

(** Writing a coordinate into a block of factor [i] leaves every block
    of every factor constant. *)
Lemma const_block_with (Y : list (list F)) (c : list F) :
  Shapes Y -> Const Y -> length c = width cs ->
  Const (block_with (grp * jmp) jmp col (width cs) c Y).
Proof.
  intros Hsh Hconst Hc.
  destruct (block_geometry Y Hsh) as [Hjpos [Hrows [Hcols _]]].
  pose proof Hsh as [Hrect [Hpos [Hlen [_ Hfac]]]].
  intros i' factor' col' cs' jmp' n' grp' Hf' Hcol' Hcs' Hjmp' Hn' Hgrp'.
  pose proof (Hconst i' factor' col' cs' jmp' n' grp' Hf' Hcol' Hcs' Hjmp' Hn' Hgrp')
    as Hold.
  apply block_constant_coordinates in Hold. apply block_constant_coordinates.
  destruct (block_in_range plot_sizes (fst factor') jmp' n' grp' Hpos Hjmp' Hn' Hgrp')
    as [Hjpos' Hrows'].
  rewrite <- Hlen in Hrows'.
  destruct (Nat.eq_dec i' i) as [Heq|Hne].
  - subst i'.
    rewrite the_factor in Hf'. inversion Hf'; subst factor'.
    rewrite the_col in Hcol'. inversion Hcol'; subst col'.
    rewrite the_coords in Hcs'. inversion Hcs'; subst cs'.
    rewrite the_jmp in Hjmp'. inversion Hjmp'; subst jmp'.
    rewrite (coordinates_of_same_columns Wd (grp * jmp) jmp col (width cs) c Y)
      by assumption.
    destruct (Nat.eq_dec grp' grp) as [Hg|Hg].
    + subst grp'. apply const_block_written; [rewrite length_map; exact Hrows|exact Hjpos].
    + apply const_block_elsewhere; try assumption.
      * rewrite length_map. exact Hrows.
      * apply repeat_length.
      * destruct (Nat.lt_ge_cases grp' grp); [left|right]; nia.
  - destruct (Hfac i' factor' Hf') as [_ [col'' [cs'' [Hc'' [Hs'' [Hfit' _]]]]]].
    rewrite Hcol' in Hc''. inversion Hc''; subst col''.
    rewrite Hcs' in Hs''. inversion Hs''; subst cs''.
    rewrite (coordinates_of_other_columns Wd (grp * jmp) jmp col (width cs) c Y)
      by (try assumption;
          apply (disjoint i' i cs' cs col' col); assumption).
    exact Hold.
Qed.

Abbreviation Scanning :=
  (scanning (St := St) Wd model plot_sizes factors col_start coords
            (grp * jmp) jmp col (width cs)).

Lemma guarded_try_candidate (init_coord best_coord new_coord : list F) :
  length new_coord = width cs ->
  guarded E (Scanning best_coord)
          (try_candidate model i (fst factor) grp (grp * jmp) jmp col (width cs)
                         init_coord best_coord new_coord)
          (fun b s' => Scanning b s').
Proof.
  intros Hnew s [Yb [v [Hsh [Hc [Hx [Hv [Hb [HY Hbest]]]]]]]].
  destruct (block_geometry Yb Hsh) as [Hjpos [Hrows [Hcols Hcslen]]].
  pose proof Hsh as [Hrect _].
  assert (Hw : write_block (grp * jmp) jmp col (width cs) new_coord (cur_Y s)
               = Ret (block_with (grp * jmp) jmp col (width cs) new_coord Yb)).
  { rewrite HY.
    rewrite (write_block_in_range Wd (grp * jmp) jmp col (width cs)
                                  (block_with (grp * jmp) jmp col (width cs) v Yb)).
    - rewrite (block_with_block_with Wd (grp * jmp) jmp col (width cs) Yb)
        by assumption.
      reflexivity.
    - apply (block_with_rect Wd); assumption.
    - rewrite block_with_length by assumption. exact Hrows.
    - exact Hcols.
    - rewrite block_with_length by assumption. lia.
    - exact Hnew. }
  unfold try_candidate, bind, assign_block. rewrite Hw.
  set (Yn := block_with (grp * jmp) jmp col (width cs) new_coord Yb) in *.
  assert (Hrej : forall st' u w',
             Scanning best_coord (mk_ostate Yn (cur_X s) st' u w' (sweeps s))).
  { intros st' u w'. exists Yb, new_coord. cbn [cur_Y cur_X].
    split; [exact Hsh|]. split; [exact Hc|]. split; [exact Hx|].
    split; [exact Hnew|]. split; [exact Hb|]. split; [reflexivity|exact Hbest]. }
  destruct (all_eq new_coord init_coord); [apply Hrej|].
  cbn [cur_Y cur_X cur_state].
  destruct (x2fx_2d (slice (grp * jmp) jmp Yn) model) as [Xi|e] eqn:HXi;
    [|apply (x2fx_E _ _ HXi)].
  destruct (update (cur_state s) (cur_X s) Xi (fst factor) grp) as [[accept st']|e] eqn:Hu.
  - destruct accept.
    + exists Yn, new_coord. cbn [cur_Y cur_X].
      assert (Hshn : Shapes Yn) by (apply shapes_block_with; assumption).
      split; [exact Hshn|].
      split; [apply const_block_with; assumption|].
      split; [apply x2fx_block_with; assumption|].
      split; [exact Hnew|]. split; [exact Hnew|].
      assert (Hidem : block_with (grp * jmp) jmp col (width cs) new_coord Yn = Yn).
      { unfold Yn.
        apply (block_with_block_with Wd (grp * jmp) jmp col (width cs) Yb);
          assumption. }
      split; [symmetry; exact Hidem|exact Hidem].
    + apply Hrej.
  - destruct (is_Exception e) eqn:He.
    + apply Hrej.
    + apply (update_E _ _ _ _ _ _ Hu He).
Qed.

Lemma guarded_scan_candidates (init_coord : list F) (cands : list (list F)) :
  Forall (fun c => length c = width cs) cands ->
  forall best_coord,
    guarded E (Scanning best_coord)
            (scan_candidates model i (fst factor) grp (grp * jmp) jmp col (width cs)
                             init_coord cands best_coord)
            (fun b s' => Scanning b s').
Proof.
  induction 1 as [|c cands Hc _ IH]; intros best; simpl.
  - intros s Hs. exact Hs.
  - eapply guarded_bind.
    + apply guarded_try_candidate. exact Hc.
    + intros b. apply IH.
Qed.

Lemma guarded_scan_block :
  guarded E (consistent Wd model plot_sizes factors col_start coords)
          (scan_block model coords i (fst factor) jmp col grp)
          (fun _ => consistent Wd model plot_sizes factors col_start coords).
Proof.
  intros s [Hsh [Hconst Hx]].
  destruct (block_geometry (cur_Y s) Hsh) as [Hjpos [Hrows [Hcols Hcslen]]].
  pose proof Hsh as [Hrect _].
  assert (Hblock : block_constant (cur_Y s) (grp * jmp) jmp col (width cs)).
  { apply (Hconst i factor col cs jmp n_groups grp); assumption. }
  destruct (nth_error (cur_Y s) (grp * jmp)) as [row0|] eqn:Hrow0;
    [|apply nth_error_None in Hrow0; lia].
  assert (Hnth : nth (grp * jmp) (cur_Y s) [] = row0) by (apply nth_error_nth; exact Hrow0).
  assert (Hrow0len : length row0 = Wd).
  { rewrite Forall_forall in Hrect. apply Hrect. eapply nth_error_In; exact Hrow0. }
  assert (Hinit : length (slice col (width cs) row0) = width cs)
    by (apply length_slice; lia).
  assert (Hsame : block_with (grp * jmp) jmp col (width cs) (slice col (width cs) row0)
                             (cur_Y s) = cur_Y s).
  { rewrite <- Hnth. apply block_with_constant. exact Hblock. }
  unfold scan_block, bind, index. rewrite the_coords. unfold ret.
  rewrite Hrow0.
  pose proof (guarded_scan_candidates (slice col (width cs) row0) cs Hcslen
                                      (slice col (width cs) row0) s) as Hscan.
  destruct (scan_candidates model i (fst factor) grp (grp * jmp) jmp col (width cs)
                            (slice col (width cs) row0) cs (slice col (width cs) row0) s)
    as [s' [b|e]].
  - destruct Hscan as [Yb [v [Hshb [Hcb [Hxb [Hv [Hb [HY Hbest]]]]]]]].
    { exists (cur_Y s), (slice col (width cs) row0).
      split; [exact Hsh|]. split; [exact Hconst|]. split; [exact Hx|].
      split; [exact Hinit|]. split; [exact Hinit|].
      split; [symmetry; exact Hsame|exact Hsame]. }
    destruct (block_geometry Yb Hshb) as [_ [Hrowsb [_ _]]].
    pose proof Hshb as [Hrectb _].
    unfold assign_block. rewrite HY.
    rewrite (write_block_in_range Wd (grp * jmp) jmp col (width cs)
                                  (block_with (grp * jmp) jmp col (width cs) v Yb)).
    + rewrite (block_with_block_with Wd (grp * jmp) jmp col (width cs) Yb)
        by assumption.
      rewrite Hbest. split; [exact Hshb|]. split; [exact Hcb|exact Hxb].
    + apply (block_with_rect Wd); assumption.
    + rewrite block_with_length by assumption. exact Hrowsb.
    + exact Hcols.
    + rewrite block_with_length by assumption. lia.
    + exact Hb.
  - apply Hscan.
    exists (cur_Y s), (slice col (width cs) row0).
    split; [exact Hsh|]. split; [exact Hconst|]. split; [exact Hx|].
    split; [exact Hinit|]. split; [exact Hinit|].
    split; [symmetry; exact Hsame|exact Hsame].
Qed.

End OneBlock.

Abbreviation Consistent := (consistent (St := St) Wd model plot_sizes factors col_start coords).

Lemma guarded_scan_factor (ifactor : nat * (nat * Z)) :
  In ifactor (enumerate factors) ->
  guarded E Consistent (scan_factor model alphas betas col_start coords ifactor)
          (fun _ => Consistent).
Proof.
  destruct ifactor as [i factor]. intros Hin s Hs.
  unfold enumerate in Hin. apply enumerate_nth in Hin.
  destruct Hin as [_ Hfac]. rewrite Nat.sub_0_r in Hfac.
  pose proof Hs as [[_ [_ [_ [_ Hfactors]]]] _].
  destruct (Hfactors i factor Hfac) as [Hlevel [col [cs [Hcol [Hcs _]]]]].
  destruct (alphas_betas_defined plot_sizes (fst factor) Hlevel)
    as [jmp [n_groups [Hjmp Hn]]].
  unfold scan_factor, bind, index, ret. cbn [fst snd].
  rewrite Hjmp. cbv beta iota.
  rewrite Hcol. cbv beta iota.
  rewrite Hn. cbv beta iota.
  apply (guarded_for_each E Consistent); [|exact Hs].
  intros grp Hgrp. apply in_seq in Hgrp.
  apply (guarded_scan_block i jmp n_groups col grp factor cs); try assumption. lia.
Qed.

Lemma guarded_sweep :
  guarded E Consistent (sweep model alphas betas col_start coords factors)
          (fun _ => Consistent).
Proof.
  intros s Hs. unfold sweep.
  apply (guarded_for_each E Consistent).
  - intros ifactor Hin. apply guarded_scan_factor. exact Hin.
  - exact Hs.
Qed.

Lemma guarded_iterate (max_it : nat) :
  guarded E Consistent
          (iterate refresh_Minv model alphas betas col_start coords factors max_it)
          (fun _ => Consistent).
Proof.
  induction max_it as [|k IH]; simpl.
  - intros s Hs. exact Hs.
  - eapply guarded_bind; [apply guarded_sweep|].
    intros _ s Hs.
    destruct (updated s); [|exact Hs].
    destruct (refresh_Minv (cur_state s) (cur_X s)) as [st'|e] eqn:Hr.
    + apply IH. exact Hs.
    + apply (refresh_E _ _ _ Hr).
Qed.

End ConsistentLoop.

(** ** The design stays a split-plot design (lines 152-249) *)

(** X13.  Let the shapes agree, let every block of [Y] be constant (the
    rows of a block of a factor carry, in the factor's columns, one
    coordinate) and let the factors' column ranges not overlap.  When
    [optimize] returns [(Y', m)], [Y'] is the design as mutated in
    place, it has the shapes of [Y], every block of every factor of
    [Y'] is constant again, and [m] is the criterion's metric of [Y']
    and of the model matrix of [Y']: the matrix [X] that [optimize]
    updates block by block is [x2fx(Y', model)]. *)
Theorem optimize_keeps_blocks_constant
        {F UModel Pre St Metric : Type} {SF : Scalar F}
        {optim : Optim F UModel Pre St Metric}
        (refresh_Minv : St -> list (list F) -> result St)
        (Y : list (list F)) (model : list (list Z)) (plot_sizes : list nat)
        (factors : list (nat * Z)) (prestate : Pre) (max_it : nat)
        (col_start : option (list nat))
        (default_coords : option (list (list (list F)))) (Wd : nat) :
  shapes_agree Wd Y model plot_sizes factors (col_start_of factors col_start)
               (possible_coords_of factors default_coords) ->
  blocks_constant Y plot_sizes factors (col_start_of factors col_start)
                  (possible_coords_of factors default_coords) ->
  columns_disjoint (col_start_of factors col_start)
                   (possible_coords_of factors default_coords) ->
  let r := optimize_run refresh_Minv Y model plot_sizes factors prestate max_it
                        col_start default_coords in
  forall Y' m,
    outcome r = Ret (Y', m) ->
    Y' = final_Y r
    /\ shapes_agree Wd Y' model plot_sizes factors (col_start_of factors col_start)
                    (possible_coords_of factors default_coords)
    /\ blocks_constant Y' plot_sizes factors (col_start_of factors col_start)
                       (possible_coords_of factors default_coords)
    /\ exists st X', x2fx_2d Y' model = Ret X' /\ metric st Y' X' = Ret m.
Proof.
  intros Hshape Hconst Hdisj r Y' m. unfold r, optimize_run.
  destruct (x2fx_2d Y model) as [X|e] eqn:HX; [|discriminate].
  destruct (init prestate Y X) as [st|e]; [|discriminate].
  rewrite np_concatenate_tuple.
  pose proof (guarded_iterate refresh_Minv model plot_sizes factors
                              (col_start_of factors col_start)
                              (possible_coords_of factors default_coords) Wd
                              (fun _ => True) Hdisj
                              (fun _ _ _ _ _ _ _ _ => I) (fun _ _ _ _ => I)
                              (fun _ _ _ => I)
                              max_it (mk_ostate Y X st false [] 0)) as Hk.
  destruct (iterate refresh_Minv model (rev (cumprod (rev plot_sizes)))
                    (cumprod (1 :: plot_sizes)) (col_start_of factors col_start)
                    (possible_coords_of factors default_coords) factors max_it
                    (mk_ostate Y X st false [] 0)) as [s [u|e]];
    cbn [outcome final_Y]; [|discriminate].
  destruct Hk as [Hsh [Hc Hx]].
  { split; [exact Hshape|]. split; [exact Hconst|exact HX]. }
  destruct (metric (cur_state s) (cur_Y s) (cur_X s)) as [m'|e] eqn:Hm; [|discriminate].
  cbn [rmap]. intros Hret. inversion Hret; subst Y' m'.
  split; [reflexivity|]. split; [exact Hsh|]. split; [exact Hc|].
  exists (cur_state s), (cur_X s). split; [exact Hx|exact Hm].
Qed.

(** X14.  On a design whose shapes agree, whose blocks are constant and
    whose factors' column ranges do not overlap, [optimize] returns, or
    raises what the criterion raised (an exception of [init], of
    [metric], of the recomputation of [Minv], or one of [update] that
    is not an [Exception]), or, when the model has a negative exponent
    and so is no ModelSpec, raises the ZeroDivisionError of [x2fx].
    The indexing and the assignments of [optimize] itself do not
    fail. *)
Theorem optimize_fails_only_in_criterion
        {F UModel Pre St Metric : Type} {SF : Scalar F}
        {optim : Optim F UModel Pre St Metric}
        (refresh_Minv : St -> list (list F) -> result St)
        (Y : list (list F)) (model : list (list Z)) (plot_sizes : list nat)
        (factors : list (nat * Z)) (prestate : Pre) (max_it : nat)
        (col_start : option (list nat))
        (default_coords : option (list (list (list F)))) (Wd : nat) :
  shapes_agree Wd Y model plot_sizes factors (col_start_of factors col_start)
               (possible_coords_of factors default_coords) ->
  blocks_constant Y plot_sizes factors (col_start_of factors col_start)
                  (possible_coords_of factors default_coords) ->
  columns_disjoint (col_start_of factors col_start)
                   (possible_coords_of factors default_coords) ->
  (exists Y' m, optimize refresh_Minv Y model plot_sizes factors prestate max_it
                         col_start default_coords = Ret (Y', m))
  \/ (exists e, optimize refresh_Minv Y model plot_sizes factors prestate max_it
                         col_start default_coords = Raise e
                /\ (criterion_raises optim refresh_Minv e
                    \/ (e = ZeroDivisionError /\ ~ model_spec model))).
Proof.
  intros Hshape Hconst Hdisj. unfold optimize, optimize_run.
  assert (Hx2fx : forall rows e,
             x2fx_2d rows model = Raise e ->
             criterion_raises optim refresh_Minv e
             \/ (e = ZeroDivisionError /\ ~ model_spec model)).
  { intros rows e He. right.
    split; [apply (x2fx_2d_only_ZeroDivisionError model rows e He)|].
    intros Hspec. destruct (x2fx_2d_returns model rows Hspec) as [X HX].
    rewrite HX in He. discriminate. }
  destruct (x2fx_2d Y model) as [X|e] eqn:HX.
  2:{ right. exists e. split; [reflexivity|]. apply (Hx2fx Y e HX). }
  destruct (init prestate Y X) as [st|e] eqn:Hinit.
  2:{ right. exists e. split; [reflexivity|]. left. left.
      exists prestate, Y, X. exact Hinit. }
  rewrite np_concatenate_tuple.
  pose proof (guarded_iterate refresh_Minv model plot_sizes factors
                              (col_start_of factors col_start)
                              (possible_coords_of factors default_coords) Wd
                              (fun e => criterion_raises optim refresh_Minv e
                                        \/ (e = ZeroDivisionError /\ ~ model_spec model))
                              Hdisj) as Hk.
  specialize (Hk (fun s X0 Xi level grp e Hu He =>
                    or_introl (or_intror (or_introl
                      (ex_intro _ s (ex_intro _ X0 (ex_intro _ Xi (ex_intro _ level
                         (ex_intro _ grp (conj Hu He)))))))))).
  specialize (Hk (fun s X0 e Hr =>
                    or_introl (or_intror (or_intror (or_introl
                      (ex_intro _ s (ex_intro _ X0 Hr))))))).
  specialize (Hk Hx2fx max_it (mk_ostate Y X st false [] 0)).
  destruct (iterate refresh_Minv model (rev (cumprod (rev plot_sizes)))
                    (cumprod (1 :: plot_sizes)) (col_start_of factors col_start)
                    (possible_coords_of factors default_coords) factors max_it
                    (mk_ostate Y X st false [] 0)) as [s [u|e]];
    cbn [outcome].
  - destruct (metric (cur_state s) (cur_Y s) (cur_X s)) as [m|e] eqn:Hm; cbn [rmap].
    + left. exists (cur_Y s), m. reflexivity.
    + right. exists e. split; [reflexivity|]. left.
      right. right. right. exists (cur_state s), (cur_Y s), (cur_X s). exact Hm.
  - right. exists e. split; [reflexivity|]. apply Hk.
    split; [exact Hshape|]. split; [exact Hconst|exact HX].
Qed.

(** A design of two whole plots of two runs, a continuous factor at
    level 0 and one at level 1. *)
Lemma two_level_shapes :
  shapes_agree (F := Z) 2 [[1; 0]; [-1; 0]; [0; 1]; [1; 1]]%Z [[1; 0]; [0; 1]]%Z [2; 2]
               [(0, 1%Z); (1, 1%Z)] (col_start_of [(0, 1%Z); (1, 1%Z)] None)
               (possible_coords_of [(0, 1%Z); (1, 1%Z)] None).
Proof.
  split; [repeat constructor|]. split; [repeat constructor|].
  split; [reflexivity|]. split; [repeat constructor|].
  intros i factor Hfac.
  destruct i as [|[|i]]; simpl in Hfac.
  - inversion Hfac; subst. split; [simpl; lia|].
    exists 0, [[-1]; [0]; [1]]%Z.
    split; [reflexivity|]. split; [reflexivity|].
    split; [unfold width; simpl; lia|repeat constructor].
  - inversion Hfac; subst. split; [simpl; lia|].
    exists 1, [[-1]; [0]; [1]]%Z.
    split; [reflexivity|]. split; [reflexivity|].
    split; [unfold width; simpl; lia|repeat constructor].
  - destruct i; discriminate.
Qed.

Lemma two_level_blocks_constant :
  blocks_constant (F := Z) [[1; 0]; [-1; 0]; [0; 1]; [1; 1]]%Z [2; 2]
                  [(0, 1%Z); (1, 1%Z)] (col_start_of [(0, 1%Z); (1, 1%Z)] None)
                  (possible_coords_of [(0, 1%Z); (1, 1%Z)] None).
Proof.
  intros i factor col cs jmp n_groups grp Hfac Hcol Hcs Hjmp Hn Hgrp.
  destruct i as [|[|i]]; simpl in Hfac; try (destruct i; discriminate);
    inversion Hfac; subst factor; simpl in Hcol, Hcs, Hjmp, Hn;
      inversion Hcol; inversion Hcs; inversion Hjmp; inversion Hn; subst.
  - destruct grp as [|[|[|[|grp]]]]; try lia; repeat constructor.
  - destruct grp as [|[|grp]]; try lia; repeat constructor.
Qed.

Lemma optimize_keeps_blocks_constant_witness :
  let Y' := [[-1; 0]; [-1; 0]; [0; 1]; [1; 1]]%Z in
  let r := optimize_run (optim := Toy.accepting [[-1; 0]]%Z) Toy.keep_Minv
                        [[1; 0]; [-1; 0]; [0; 1]; [1; 1]]%Z [[1; 0]; [0; 1]]%Z [2; 2]
                        [(0, 1%Z); (1, 1%Z)] tt 10 None None in
  outcome r = Ret (Y', Toy.Fin 24)
  /\ Y' = final_Y r
  /\ shapes_agree 2 Y' [[1; 0]; [0; 1]]%Z [2; 2] [(0, 1%Z); (1, 1%Z)]
                  (col_start_of [(0, 1%Z); (1, 1%Z)] None)
                  (possible_coords_of [(0, 1%Z); (1, 1%Z)] None)
  /\ blocks_constant Y' [2; 2] [(0, 1%Z); (1, 1%Z)]
                     (col_start_of [(0, 1%Z); (1, 1%Z)] None)
                     (possible_coords_of [(0, 1%Z); (1, 1%Z)] None)
  /\ exists st X', x2fx_2d Y' [[1; 0]; [0; 1]]%Z = Ret X'
                   /\ metric (Optim := Toy.accepting [[-1; 0]]%Z) st Y' X'
                      = Ret (Toy.Fin 24).
Proof.
  intros Y' r.
  assert (Hrun : outcome r = Ret (Y', Toy.Fin 24)) by (vm_compute; reflexivity).
  split; [exact Hrun|].
  exact (optimize_keeps_blocks_constant
           (SF := Scalar_Z) (optim := Toy.accepting [[-1; 0]]%Z) Toy.keep_Minv
           [[1; 0]; [-1; 0]; [0; 1]; [1; 1]]%Z [[1; 0]; [0; 1]]%Z [2; 2]
           [(0, 1%Z); (1, 1%Z)] tt 10 None None 2
           two_level_shapes two_level_blocks_constant
           (default_layout_disjoint (SF := Scalar_Z) [(0, 1%Z); (1, 1%Z)])
           Y' (Toy.Fin 24) Hrun).
Defined.

Lemma optimize_fails_only_in_criterion_witness :
  optimize (optim := Toy.raising KeyboardInterrupt) Toy.keep_Minv
           [[1; 0]; [-1; 0]; [0; 1]; [1; 1]]%Z [[1; 0]; [0; 1]]%Z [2; 2]
           [(0, 1%Z); (1, 1%Z)] tt 10 None None = Raise KeyboardInterrupt
  /\ ((exists Y' m, optimize (optim := Toy.raising KeyboardInterrupt) Toy.keep_Minv
                             [[1; 0]; [-1; 0]; [0; 1]; [1; 1]]%Z [[1; 0]; [0; 1]]%Z [2; 2]
                             [(0, 1%Z); (1, 1%Z)] tt 10 None None = Ret (Y', m))
      \/ (exists e, optimize (optim := Toy.raising KeyboardInterrupt) Toy.keep_Minv
                             [[1; 0]; [-1; 0]; [0; 1]; [1; 1]]%Z [[1; 0]; [0; 1]]%Z [2; 2]
                             [(0, 1%Z); (1, 1%Z)] tt 10 None None = Raise e
                    /\ (criterion_raises (Toy.raising KeyboardInterrupt) Toy.keep_Minv e
                        \/ (e = ZeroDivisionError
                            /\ ~ model_spec [[1; 0]; [0; 1]]%Z))))
  /\ optimize (optim := Toy.never) Toy.keep_Minv
              [[1; 0]; [-1; 0]; [0; 1]; [1; 1]]%Z [[1; 0]; [0; -1]]%Z [2; 2]
              [(0, 1%Z); (1, 1%Z)] tt 10 None None = Raise ZeroDivisionError.
Proof.
  split; [vm_compute; reflexivity|]. split; [|vm_compute; reflexivity].
  exact (optimize_fails_only_in_criterion
           (SF := Scalar_Z) (optim := Toy.raising KeyboardInterrupt) Toy.keep_Minv
           [[1; 0]; [-1; 0]; [0; 1]; [1; 1]]%Z [[1; 0]; [0; 1]]%Z [2; 2]
           [(0, 1%Z); (1, 1%Z)] tt 10 None None 2
           two_level_shapes two_level_blocks_constant
           (default_layout_disjoint (SF := Scalar_Z) [(0, 1%Z); (1, 1%Z)])).
Defined.
